(** * The scanner of beamsplitter (package [parse])

    A shallow embedding of the scanner of Filament's [beamsplitter] tool and
    the properties of it that the specification states, followed by further
    properties of its methods, of its state functions and of whole scans.
    The node types of the syntax tree (ast.go) close the model.

    Go values are modelled as follows.
    - [int] and [rune] are [Z]; every integer of the scanner is bounded by the
      length of the input, so no wrap-around occurs.
    - a Go [string] is the list of its bytes ([gostring]); slicing and indexing
      check their bounds and raise the run-time panic Go raises.
    - the scanner is a record of type [lexer]; its methods are computations in
      a state monad over that record which can also panic.
    - the channel [items] is the list of the items sent on it so far.
    - the tables behind [unicode.IsLetter] and [unicode.IsDigit] are not part
      of the repository; they are parameters of the development.
    - [lexStruct], [lexClass] and [lexEnum] are called by [lexBlockFn] but are
      not defined in the source file; a call to one of them ends the modelled
      part of a scan (see [nextState]). *)

From Stdlib Require Import Strings.Byte Strings.String.
From Stdlib Require Import ZArith List Bool Lia.
From Stdlib Require Import FunctionalExtensionality.
Import ListNotations.
Open Scope Z_scope.

(* ================================================================= *)
(** ** Go strings, slices and run-time panics *)

Definition gostring := list byte.
Definition rune := Z.

(** A string literal of the source. *)
Definition go (s : String.string) : gostring := String.list_byte_of_string s.

Definition u8 (b : byte) : Z := Z.of_N (Byte.to_N b).
Definition len (s : gostring) : Z := Z.of_nat (length s).

Inductive runtimeError : Type :=
| IndexOutOfRange
| SliceBoundsOutOfRange.

Inductive result (A : Type) : Type :=
| Ok (a : A)
| Panic (e : runtimeError).
Arguments Ok {A} a.
Arguments Panic {A} e.

(** [s[lo:hi]] *)
Definition slice (s : gostring) (lo hi : Z) : result gostring :=
  if (0 <=? lo) && (lo <=? hi) && (hi <=? len s)
  then Ok (firstn (Z.to_nat (hi - lo)) (skipn (Z.to_nat lo) s))
  else Panic SliceBoundsOutOfRange.

(** [s[i]] *)
Definition index (s : gostring) (i : Z) : result byte :=
  if (0 <=? i) && (i <? len s)
  then Ok (nth (Z.to_nat i) s x00)
  else Panic IndexOutOfRange.

(** The byte at offset [i] of a string known to be long enough. *)
Definition byteAt (s : gostring) (i : nat) : Z := u8 (nth i s x00).

(* ================================================================= *)
(** ** Package unicode/utf8 *)

Module utf8.

Definition RuneError : rune := 0xFFFD.
Definition RuneSelf : Z := 0x80.
Definition UTFMax : Z := 4.
Definition MaxRune : rune := 0x10FFFF.

(** The table [first]: information about the first byte of an encoding.
    [0xF0] is ASCII ([as]), [0xF1] is invalid ([xx]); otherwise the low three
    bits are the size and the high four the index into [acceptRanges]. *)
Definition first (b : Z) : Z :=
  if b <? 0x80 then 0xF0
  else if b <? 0xC2 then 0xF1
  else if b <? 0xE0 then 0x02
  else if b =? 0xE0 then 0x13
  else if b <? 0xED then 0x03
  else if b =? 0xED then 0x23
  else if b <? 0xF0 then 0x03
  else if b =? 0xF0 then 0x34
  else if b <? 0xF4 then 0x04
  else if b =? 0xF4 then 0x44
  else 0xF1.

Definition acceptRanges (i : Z) : Z * Z :=
  match i with
  | 0 => (0x80, 0xBF)
  | 1 => (0xA0, 0xBF)
  | 2 => (0x80, 0x9F)
  | 3 => (0x90, 0xBF)
  | 4 => (0x80, 0x8F)
  | _ => (0, 0)
  end.

Definition DecodeRuneInString (s : gostring) : rune * Z :=
  let n := len s in
  if n <? 1 then (RuneError, 0) else
  let s0 := byteAt s 0 in
  let x := first s0 in
  if 0xF0 <=? x then
    (* mask := rune(x) << 31 >> 31: all ones when x is xx, zero when x is as *)
    let mask := if Z.odd x then -1 else 0 in
    (Z.lor (Z.land s0 (Z.lnot mask)) (Z.land RuneError mask), 1)
  else
  let sz := Z.land x 7 in
  let accept := acceptRanges (Z.shiftr x 4) in
  if n <? sz then (RuneError, 1) else
  let s1 := byteAt s 1 in
  if (s1 <? fst accept) || (snd accept <? s1) then (RuneError, 1) else
  if sz <=? 2 then
    (Z.lor (Z.shiftl (Z.land s0 0x1F) 6) (Z.land s1 0x3F), 2)
  else
  let s2 := byteAt s 2 in
  if (s2 <? 0x80) || (0xBF <? s2) then (RuneError, 1) else
  if sz <=? 3 then
    (Z.lor (Z.lor (Z.shiftl (Z.land s0 0x0F) 12) (Z.shiftl (Z.land s1 0x3F) 6))
           (Z.land s2 0x3F), 3)
  else
  let s3 := byteAt s 3 in
  if (s3 <? 0x80) || (0xBF <? s3) then (RuneError, 1) else
  (Z.lor (Z.lor (Z.lor (Z.shiftl (Z.land s0 0x07) 18) (Z.shiftl (Z.land s1 0x3F) 12))
                (Z.shiftl (Z.land s2 0x3F) 6))
         (Z.land s3 0x3F), 4).

(** [RuneStart(b)]: [b] is not a continuation byte. *)
Definition RuneStart (b : Z) : bool := negb (Z.land b 0xC0 =? 0x80).

(** The loop of [DecodeLastRuneInString]:
    [for start--; start >= lim; start-- { if RuneStart(s[start]) { break } }],
    entered with [start] already decremented.  It runs at most [UTFMax - 1]
    times. *)
Fixpoint scanBack (fuel : nat) (s : gostring) (lim start : Z) : Z :=
  match fuel with
  | O => start
  | S fuel' =>
      if start <? lim then start
      else if RuneStart (byteAt s (Z.to_nat start)) then start
      else scanBack fuel' s lim (start - 1)
  end.

Definition DecodeLastRuneInString (s : gostring) : rune * Z :=
  let end_ := len s in
  if end_ =? 0 then (RuneError, 0) else
  let start := end_ - 1 in
  let r := byteAt s (Z.to_nat start) in
  if r <? RuneSelf then (r, 1) else
  let lim := end_ - UTFMax in
  let lim := if lim <? 0 then 0 else lim in
  let start := scanBack (Z.to_nat UTFMax) s lim (start - 1) in
  let start := if start <? 0 then 0 else start in
  let '(r, size) := DecodeRuneInString (skipn (Z.to_nat start) s) in
  if negb (start + size =? end_) then (RuneError, 1) else (r, size).

Definition ValidRune (r : rune) : bool :=
  ((0 <=? r) && (r <? 0xD800)) || ((0xDFFF <? r) && (r <=? MaxRune)).

Definition byteOf (z : Z) : byte :=
  match Byte.of_N (Z.to_N (z mod 256)) with Some b => b | None => x00 end.

(** [string(r)] for a rune, as [AppendRune] encodes it. *)
Definition EncodeRune (r : rune) : gostring :=
  if (0 <=? r) && (r <=? 0x7F) then [byteOf r]
  else if (0 <=? r) && (r <=? 0x7FF) then
    [byteOf (Z.lor 0xC0 (Z.shiftr r 6)); byteOf (Z.lor 0x80 (Z.land r 0x3F))]
  else
    let r := if ValidRune r then r else RuneError in
    if r <=? 0xFFFF then
      [byteOf (Z.lor 0xE0 (Z.shiftr r 12));
       byteOf (Z.lor 0x80 (Z.land (Z.shiftr r 6) 0x3F));
       byteOf (Z.lor 0x80 (Z.land r 0x3F))]
    else
      [byteOf (Z.lor 0xF0 (Z.shiftr r 18));
       byteOf (Z.lor 0x80 (Z.land (Z.shiftr r 12) 0x3F));
       byteOf (Z.lor 0x80 (Z.land (Z.shiftr r 6) 0x3F));
       byteOf (Z.lor 0x80 (Z.land r 0x3F))].

End utf8.

(** [for i, c := range s]: the byte offset and the rune of every step. *)
Fixpoint rangeFrom (fuel : nat) (i : Z) (s : gostring) : list (Z * rune) :=
  match fuel, s with
  | S fuel', _ :: _ =>
      let '(c, w) := utf8.DecodeRuneInString s in
      (i, c) :: rangeFrom fuel' (i + w) (skipn (Z.to_nat w) s)
  | _, _ => []
  end.

Definition rangeString (s : gostring) : list (Z * rune) :=
  rangeFrom (length s) 0 s.

(* ================================================================= *)
(** ** Packages strings and unicode *)

Module strings.

Fixpoint HasPrefix (s prefix : gostring) {struct prefix} : bool :=
  match prefix, s with
  | [], _ => true
  | p :: prefix', b :: s' => Byte.eqb b p && HasPrefix s' prefix'
  | _ :: _, [] => false
  end.

Fixpoint Contains (s substr : gostring) : bool :=
  HasPrefix s substr ||
  match s with
  | [] => false
  | _ :: s' => Contains s' substr
  end.

(** [ContainsRune(s, r)] is [IndexRune(s, r) >= 0]. *)
Definition ContainsRune (s : gostring) (r : rune) : bool :=
  if (0 <=? r) && (r <? utf8.RuneSelf) then
    existsb (fun b => u8 b =? r) s
  else if r =? utf8.RuneError then
    existsb (fun ic => snd ic =? utf8.RuneError) (rangeString s)
  else if negb (utf8.ValidRune r) then false
  else Contains s (utf8.EncodeRune r).

(** [Count(s, "\n")]: the number of newline bytes of [s]. *)
Definition CountNewlines (s : gostring) : Z :=
  Z.of_nat (length (filter (fun b => u8 b =? 10) s)).

End strings.

Module unicode.

(** [IsSpace]: the cases that Go lists for Latin-1, then the table
    [White_Space]. *)
Definition IsSpace (r : rune) : bool :=
  if (0 <=? r) && (r <=? 0xFF) then
    ((9 <=? r) && (r <=? 13)) || (r =? 0x20) || (r =? 0x85) || (r =? 0xA0)
  else
    (r =? 0x1680) || ((0x2000 <=? r) && (r <=? 0x200a)) ||
    (r =? 0x2028) || (r =? 0x2029) || (r =? 0x202f) || (r =? 0x205f) ||
    (r =? 0x3000).

End unicode.

(* ================================================================= *)
(** ** Items and the scanner record *)

(** [itemType] identifies the type of lex items. *)
Inductive itemType : Type :=
| itemError
| itemBlockCommentGroupBegin
| itemBlockCommentGroupEnd
| itemSimpleType
| itemMethodBody
| itemMethodArgs
| itemTemplateArgs
| itemDefaultValue
| itemIdentifier
| itemEOF
| itemSymbol
| itemOpenBrace
| itemCloseBrace
| itemSemicolon
| itemColon
| itemEquals
| itemKeyword
| itemNamespace
| itemClass
| itemConst
| itemNoexcept
| itemStruct
| itemEnum
| itemTemplate
| itemPublic
| itemProtected
| itemPrivate
| itemUsing.

(** [item] represents a token or text string returned from the scanner. *)
Record item : Type := mkItem {
  typ : itemType;       (* The type of this item. *)
  item_pos : Z;         (* The starting position, in bytes, of this item. *)
  val : gostring;       (* The value of this item. *)
  item_line : Z         (* The line number at the start of this item. *)
}.

Definition eof : rune := -1.

(** [lexer] holds the state of the scanner. *)
Record lexer : Type := mkLexer {
  name : gostring;
  input : gostring;
  items : list item;        (* what has been sent on the channel, oldest first *)
  line : Z;
  startLine : Z;
  parenDepth : Z;
  braceDepth : Z;
  angleBracketDepth : Z;
  pos : Z;
  start : Z;
  atEOF : bool
}.

Definition set_pos (p : Z) (l : lexer) : lexer :=
  mkLexer (name l) (input l) (items l) (line l) (startLine l) (parenDepth l)
          (braceDepth l) (angleBracketDepth l) p (start l) (atEOF l).
Definition set_line (n : Z) (l : lexer) : lexer :=
  mkLexer (name l) (input l) (items l) n (startLine l) (parenDepth l)
          (braceDepth l) (angleBracketDepth l) (pos l) (start l) (atEOF l).
Definition set_atEOF (b : bool) (l : lexer) : lexer :=
  mkLexer (name l) (input l) (items l) (line l) (startLine l) (parenDepth l)
          (braceDepth l) (angleBracketDepth l) (pos l) (start l) b.
Definition set_start (p : Z) (l : lexer) : lexer :=
  mkLexer (name l) (input l) (items l) (line l) (startLine l) (parenDepth l)
          (braceDepth l) (angleBracketDepth l) (pos l) p (atEOF l).
Definition set_startLine (n : Z) (l : lexer) : lexer :=
  mkLexer (name l) (input l) (items l) (line l) n (parenDepth l)
          (braceDepth l) (angleBracketDepth l) (pos l) (start l) (atEOF l).
Definition set_items (its : list item) (l : lexer) : lexer :=
  mkLexer (name l) (input l) its (line l) (startLine l) (parenDepth l)
          (braceDepth l) (angleBracketDepth l) (pos l) (start l) (atEOF l).

(* ================================================================= *)
(** ** The monad of the scanner's methods *)

(** What a call of a method on a scanner comes to: it returns [a] and leaves
    the scanner as [l]; or it panics; or the fuel given to one of its loops
    is used up.  The last two keep the scanner as it was at that moment, with
    the items sent until then. *)
Inductive reply (A : Type) : Type :=
| Return (a : A) (l : lexer)
| Panicked (e : runtimeError) (l : lexer)
| OutOfFuel (l : lexer).
Arguments Return {A} a l.
Arguments Panicked {A} e l.
Arguments OutOfFuel {A} l.

Definition M (A : Type) : Type := lexer -> reply A.

Definition ret {A} (a : A) : M A := fun l => Return a l.

Definition bind {A B} (m : M A) (k : A -> M B) : M B :=
  fun l =>
    match m l with
    | Return a l' => k a l'
    | Panicked e l' => Panicked e l'
    | OutOfFuel l' => OutOfFuel l'
    end.

Declare Scope lex_scope.
Delimit Scope lex_scope with lex.
Notation "x <- m ;; k" := (bind m (fun x => k))
  (at level 61, m at next level, right associativity) : lex_scope.
Notation "m ;; k" := (bind m (fun _ => k))
  (at level 61, right associativity) : lex_scope.
Open Scope lex_scope.

Definition get {A} (f : lexer -> A) : M A := fun l => Return (f l) l.
Definition modify (f : lexer -> lexer) : M unit := fun l => Return tt (f l).
Definition lift {A} (r : result A) : M A :=
  fun l =>
    match r with
    | Ok a => Return a l
    | Panic e => Panicked e l
    end.
Definition diverge {A} : M A := fun l => OutOfFuel l.

(** [l.items <- it] *)
Definition send (it : item) : M unit :=
  modify (fun l => set_items (items l ++ [it]) l).

(* ================================================================= *)
(** ** The scanner's methods *)

(** [next] returns the next rune in the input. *)
Definition next : M rune :=
  p <- get pos;;
  s <- get input;;
  if len s <=? p then
    modify (set_atEOF true);;
    ret eof
  else
    rest <- lift (slice s p (len s));;
    let '(r, w) := utf8.DecodeRuneInString rest in
    modify (set_pos (p + w));;
    (if r =? 10 then modify (fun l => set_line (line l + 1) l) else ret tt);;
    ret r.

(** [backup] steps back one rune. *)
Definition backup : M unit :=
  e <- get atEOF;;
  p <- get pos;;
  if negb e && (0 <? p) then
    s <- get input;;
    before <- lift (slice s 0 p);;
    let '(r, w) := utf8.DecodeLastRuneInString before in
    modify (set_pos (p - w));;
    (* Correct newline count. *)
    if r =? 10 then modify (fun l => set_line (line l - 1) l) else ret tt
  else ret tt.

(** [peek] returns but does not consume the next rune in the input. *)
Definition peek : M rune :=
  r <- next;;
  backup;;
  ret r.

Fixpoint backupTimes (n : nat) : M unit :=
  match n with
  | O => ret tt
  | S n' => backup;; backupTimes n'
  end.

(** [for i := 0; i < count; i++ { lex.backup() }] *)
Definition backupMultiple (count : Z) : M unit := backupTimes (Z.to_nat count).

(** [emit] passes an item back to the client. *)
Definition emit (t : itemType) : M unit :=
  l <- get (fun l => l);;
  v <- lift (slice (input l) (start l) (pos l));;
  send (mkItem t (start l) v (startLine l));;
  modify (set_start (pos l));;
  modify (set_startLine (line l)).

(** [ignore] skips over the pending input before this point. *)
Definition ignore : M unit :=
  l <- get (fun l => l);;
  v <- lift (slice (input l) (start l) (pos l));;
  modify (set_line (line l + strings.CountNewlines v));;
  modify (set_start (pos l));;
  modify (fun l' => set_startLine (line l') l').

(** [accept] consumes the next rune if it's from the valid set. *)
Definition accept (valid : gostring) : M bool :=
  r <- next;;
  if strings.ContainsRune valid r then ret true
  else backup;; ret false.

(** The loop [for strings.ContainsRune(valid, l.next()) {}].  Every turn but
    the last consumes a rune, so [fuel] above the number of bytes left is
    never used up ([acceptRun_returns]). *)
Fixpoint acceptRunLoop (fuel : nat) (valid : gostring) : M unit :=
  match fuel with
  | O => diverge
  | S fuel' =>
      r <- next;;
      if strings.ContainsRune valid r then acceptRunLoop fuel' valid else ret tt
  end.

(** [acceptRun] consumes a run of runes from the valid set. *)
Definition acceptRun (valid : gostring) : M unit :=
  s <- get input;;
  acceptRunLoop (S (length s)) valid;;
  backup.

Definition space_tab_newline : gostring := [x20; x09; x0a].
Definition space_newline_tab : gostring := [x20; x0a; x09].
Definition newline : gostring := [x0a].

Definition acceptSpace : M bool := accept space_tab_newline.

Definition acceptRune (expected : rune) : M bool :=
  r <- next;;
  if r =? expected then ret true
  else backup;; ret false.

(** The body of [for i, c := range expectedString] in [acceptString]. *)
Fixpoint acceptStringLoop (steps : list (Z * rune)) : M bool :=
  match steps with
  | [] => ret true
  | (i, c) :: steps' =>
      r <- next;;
      if negb (r =? c) then
        backupMultiple i;;
        ret false
      else acceptStringLoop steps'
  end.

Definition acceptString (expectedString : gostring) : M bool :=
  acceptStringLoop (rangeString expectedString).

(** [lex.eof()] *)
Definition lexer_eof : M bool :=
  p <- get pos;;
  s <- get input;;
  ret (len s <=? p).

(** [stateFn] represents the state of the scanner as a function that returns
    the next state.  The state functions of the source that [run] can be
    given, by name; [call] gives their bodies. *)
Inductive stateFn : Type :=
| LexRootFn
| LexLineCommentFn
| LexEatLineFn
| LexBlockCommentFn
| LexSymbolFn
| LexSpaceFn.

(** The state functions that [lexBlockFn] calls and the source does not
    define. *)
Inductive externFn : Type :=
| lexStruct
| lexClass
| lexEnum.

(** What a state function returns: [nil], one of the state functions of the
    source, or the result of [f(lex)] for [f] outside the source. *)
Inductive nextState : Type :=
| Nil
| Next (s : stateFn)
| Tail (f : externFn).

(** [errorf] returns an error token and terminates the scan by passing back a
    nil pointer that will be the next state.  Every format of the source is
    free of verbs and has no arguments, so [fmt.Sprintf] returns it as it
    is. *)
Definition errorf (format : gostring) : M nextState :=
  l <- get (fun l => l);;
  send (mkItem itemError (start l) format (startLine l));;
  ret Nil.

Section Scanner.

(** [unicode.IsLetter] and [unicode.IsDigit]. *)
Variable IsLetter IsDigit : rune -> bool.

Definition isAlphaNumeric (r : rune) : bool :=
  (r =? 95) || IsLetter r || IsDigit r.

Definition acceptAlphaNumeric : M bool :=
  r <- next;;
  if isAlphaNumeric r then ret true
  else backup;; ret false.

(** The loop [for isAlphaNumeric(lex.next()) {}]; it ends at [eof], which is
    not alphanumeric ([acceptIdentifier_returns]). *)
Fixpoint acceptIdentifierLoop (fuel : nat) : M unit :=
  match fuel with
  | O => diverge
  | S fuel' =>
      r <- next;;
      if isAlphaNumeric r then acceptIdentifierLoop fuel' else ret tt
  end.

Definition acceptIdentifier : M bool :=
  r <- next;;
  if negb (r =? 95) && negb (IsLetter r) then
    backup;;
    ret false
  else
    s <- get input;;
    acceptIdentifierLoop (S (length s));;
    backup;;
    ret true.

Definition acceptKeyword (keyword : gostring) : M bool :=
  start <- get pos;;
  ok <- acceptString keyword;;
  if negb ok then ret false else
  e <- lexer_eof;;
  if e then ret true else
  an <- acceptAlphaNumeric;;
  if an then
    p <- get pos;;
    backupMultiple (p - start);;
    ret false
  else ret true.

(* ================================================================= *)
(** ** State functions *)

Definition lexLineCommentFn : M nextState :=
  e <- lexer_eof;;
  if e then ret Nil else
  nl <- accept newline;;
  if nl then ret (Next LexRootFn) else
  ret (Next LexLineCommentFn).

Definition lexEatLineFn : M nextState :=
  e <- lexer_eof;;
  if e then ret Nil else
  nl <- accept newline;;
  if nl then ret (Next LexRootFn) else
  ret (Next LexEatLineFn).

Definition lexBlockCommentFn : M nextState :=
  e <- lexer_eof;;
  if e then errorf (go "Unexpected EOF") else
  close <- accept (go "*/");;
  if close then ret (Next LexRootFn) else
  ret (Next LexBlockCommentFn).

(** [lexNamespaceFn] and [lexBlockFn] call each other; each is written over
    the other one first.  Upon entry to [lexNamespaceFn] we are just past the
    namespace keyword. *)
Definition lexNamespaceFn_over (lexBlockFn : M nextState) : M nextState :=
  let badlyFormed := errorf (go "Badly formed namespace") in
  b <- acceptRune 123;;
  if b then
    emit itemOpenBrace;;
    lexBlockFn
  else
  id <- acceptIdentifier;;
  if id then
    emit itemIdentifier;;
    b <- acceptRune 123;;
    if b then
      emit itemOpenBrace;;
      lexBlockFn
    else badlyFormed
  else badlyFormed.

Definition lexBlockFn_over (lexNamespaceFn : M nextState) : M nextState :=
  b <- acceptKeyword (go "namespace");;
  if b then
    emit itemNamespace;;
    lexNamespaceFn
  else
  b <- acceptKeyword (go "struct");;
  if b then
    emit itemStruct;;
    id <- acceptIdentifier;;
    (if id then emit itemIdentifier else ret tt);;
    b <- acceptRune 123;;
    if negb b then errorf (go "Badly formed struct") else
    emit itemOpenBrace;;
    ret (Tail lexStruct)
  else
  b <- acceptKeyword (go "class");;
  if b then
    emit itemClass;;
    id <- acceptIdentifier;;
    if negb id then errorf (go "Anonymous classes are illegal.") else
    emit itemIdentifier;;
    b <- acceptRune 123;;
    if negb b then errorf (go "Badly formed class") else
    emit itemOpenBrace;;
    ret (Tail lexClass)
  else
  b <- acceptKeyword (go "enum");;
  if b then
    emit itemEnum;;
    id <- acceptIdentifier;;
    if negb id then errorf (go "Anonymous enums are illegal.") else
    emit itemIdentifier;;
    b <- acceptRune 123;;
    if negb b then errorf (go "Badly formed enum") else
    emit itemOpenBrace;;
    ret (Tail lexEnum)
  else
  errorf (go "Expected namespace, struct, class, or enum.").

(** Every round of the mutual recursion consumes the keyword and the brace,
    so [fuel] above the number of bytes of the input is never used up
    ([lexBlockFn_fuel_fuelled]). *)
Fixpoint lexBlockFn_fuel (fuel : nat) : M nextState :=
  match fuel with
  | O => diverge
  | S fuel' => lexBlockFn_over (lexNamespaceFn_over (lexBlockFn_fuel fuel'))
  end.

Definition lexBlockFn : M nextState :=
  s <- get input;;
  lexBlockFn_fuel (S (length s)).

Definition lexNamespaceFn : M nextState := lexNamespaceFn_over lexBlockFn.

Definition lexRootFn : M nextState :=
  e <- lexer_eof;;
  if e then ret Nil else
  sp <- acceptSpace;;
  if sp then
    acceptRun space_newline_tab;;
    ret (Next LexRootFn)
  else
  b <- acceptString (go "/*");;
  if b then lexBlockCommentFn else
  b <- acceptString (go "//");;
  if b then lexLineCommentFn else
  b <- acceptRune 35;;
  if b then lexEatLineFn else
  b <- acceptKeyword (go "namespace");;
  if b then
    emit itemNamespace;;
    lexNamespaceFn
  else
  errorf (go "Expected namespace").

Definition lexSymbolFn : M nextState :=
  p <- get pos;;
  s <- get input;;
  c <- lift (index s p);;
  let symbol (t : itemType) : M nextState :=
    modify (set_pos (p + 1));;
    emit t;;
    ret (Next LexRootFn) in
  if u8 c =? 123 then symbol itemOpenBrace
  else if u8 c =? 125 then symbol itemCloseBrace
  else if u8 c =? 59 then symbol itemSemicolon
  else if u8 c =? 58 then symbol itemColon
  else if u8 c =? 61 then symbol itemEquals
  else errorf (go "Unexpected input").

(** The loop [for unicode.IsSpace(rune(lex.input[lex.pos])) && !lex.eof()]:
    the byte is read before the end of the input is tested. *)
Fixpoint lexSpaceLoop (fuel : nat) : M unit :=
  match fuel with
  | O => diverge
  | S fuel' =>
      p <- get pos;;
      s <- get input;;
      c <- lift (index s p);;
      e <- lexer_eof;;
      if unicode.IsSpace (u8 c) && negb e then
        modify (set_pos (p + 1));;
        lexSpaceLoop fuel'
      else ret tt
  end.

Definition lexSpaceFn : M nextState :=
  s <- get input;;
  lexSpaceLoop (S (length s));;
  ignore;;
  ret (Next LexRootFn).

(** [state(l)] for a state function of the source. *)
Definition call (state : stateFn) : M nextState :=
  match state with
  | LexRootFn => lexRootFn
  | LexLineCommentFn => lexLineCommentFn
  | LexEatLineFn => lexEatLineFn
  | LexBlockCommentFn => lexBlockCommentFn
  | LexSymbolFn => lexSymbolFn
  | LexSpaceFn => lexSpaceFn
  end.

(* ================================================================= *)
(** ** Running the state machine *)

(** How [run] ends, as far as the source determines it. *)
Inductive outcome : Type :=
| Closed (l : lexer)                      (* the loop was left; [close(l.items)] *)
| Leaves (f : externFn) (l : lexer)       (* control passed to [f(l)] *)
| Crashed (e : runtimeError) (l : lexer)  (* a run-time panic *)
| Running (state : stateFn) (l : lexer)   (* still looping after [fuel] turns *)
| Starved (state : stateFn) (l : lexer).  (* [state] had too little fuel inside *)

(** The scanner at the end, with the items sent on its channel. *)
Definition scanner (o : outcome) : lexer :=
  match o with
  | Closed l | Leaves _ l | Crashed _ l | Running _ l | Starved _ l => l
  end.

(** [for state := lexRootFn; state != nil; { state = state(l) }], cut after
    [fuel] turns. *)
Fixpoint runFrom (fuel : nat) (state : stateFn) (l : lexer) : outcome :=
  match fuel with
  | O => Running state l
  | S fuel' =>
      match call state l with
      | Return Nil l' => Closed l'
      | Return (Next state') l' => runFrom fuel' state' l'
      | Return (Tail f) l' => Leaves f l'
      | Panicked e l' => Crashed e l'
      | OutOfFuel l' => Starved state l'
      end
  end.

Definition run (fuel : nat) (l : lexer) : outcome := runFrom fuel LexRootFn l.

End Scanner.

(** [lex] creates a new scanner for the input string. *)
Definition lex (name input : gostring) : lexer :=
  mkLexer name input [] 1 1 0 0 0 0 0 false.

(* ================================================================= *)
(** * The nodes of the syntax tree (package [parse], ast.go) *)

Module ast.

(** [type NodeType int] and [type Line int]. *)
Definition NodeType := Z.
Definition Line := Z.

Definition NodeRoot : NodeType := 0.
Definition NodeNamespace : NodeType := 1.
Definition NodeClass : NodeType := 2.
Definition NodeStruct : NodeType := 3.
Definition NodeEnum : NodeType := 4.
Definition NodeUsing : NodeType := 5.
Definition NodeAccessSpecifier : NodeType := 6.
Definition NodeGroupingDelimiter : NodeType := 7.
Definition NodeMethod : NodeType := 8.
Definition NodeField : NodeType := 9.

(** [func (t NodeType) Type() NodeType] *)
Definition Type_ (t : NodeType) : NodeType := t.

(** [func (line Line) LineNumber() Line] *)
Definition LineNumber (line : Line) : Line := line.

(** [func (t NodeType) String() string] *)
Definition String (t : NodeType) : gostring :=
  if t =? NodeRoot then go "Root"
  else if t =? NodeNamespace then go "Namespace"
  else if t =? NodeClass then go "Class"
  else if t =? NodeStruct then go "Struct"
  else if t =? NodeEnum then go "Enum"
  else if t =? NodeUsing then go "Using"
  else if t =? NodeAccessSpecifier then go "AccessSpecifier"
  else if t =? NodeGroupingDelimiter then go "GroupingDelimiter"
  else if t =? NodeMethod then go "Method"
  else if t =? NodeField then go "Field"
  else go "Invalid".

End ast.

(* ================================================================= *)
(** * Vocabulary of the statements *)

(** The rune that [next] reads at offset [p] of [s], and its width. *)
Definition runeAt (s : gostring) (p : Z) : rune :=
  fst (utf8.DecodeRuneInString (skipn (Z.to_nat p) s)).
Definition widthAt (s : gostring) (p : Z) : Z :=
  snd (utf8.DecodeRuneInString (skipn (Z.to_nat p) s)).

(** The offsets that reading [s] rune by rune from its start goes through. *)
Inductive boundary (s : gostring) : Z -> Prop :=
| boundary_start : boundary s 0
| boundary_next (p : Z) :
    boundary s p -> p < len s -> boundary s (p + widthAt s p).


(** What holds of the scanner whenever one of its methods is entered: [pos] is
    one of the offsets that reading the input rune by rune goes through, and
    [atEOF] is set only once the end of the input has been read.
    [wellFormed_lex] and [wellFormed_kept] establish it for every state that
    [run] goes through. *)
Definition wellFormed (l : lexer) : Prop :=
  boundary (input l) (pos l) /\
  (atEOF l = true -> len (input l) <= pos l).

(** The scanner when a call is over, however it ended. *)
Definition final {A} (r : reply A) : lexer :=
  match r with
  | Return _ l | Panicked _ l | OutOfFuel l => l
  end.

(** [val == input[pos : pos+len(val)]] *)
Definition verbatim (input : gostring) (it : item) : Prop :=
  slice input (item_pos it) (item_pos it + len (val it)) = Ok (val it).

(** An item that [emit] may have sent while scanning the states of the
    source. *)
Definition token (input : gostring) (it : item) : Prop :=
  typ it <> itemError /\ typ it <> itemEOF /\ verbatim input it.

(** A method that moves within the input and sends nothing. *)
Definition steady (l l' : lexer) : Prop :=
  input l' = input l /\ items l' = items l /\
  start l' = start l /\ startLine l' = startLine l /\
  (wellFormed l -> wellFormed l').

(** A method that sends nothing. *)
Definition silent (l l' : lexer) : Prop :=
  input l' = input l /\ items l' = items l /\
  (wellFormed l -> wellFormed l').

(** A method that sends tokens only. *)
Definition quiet (l l' : lexer) : Prop :=
  input l' = input l /\
  (exists new, items l' = items l ++ new /\ Forall (token (input l)) new) /\
  (wellFormed l -> wellFormed l').

(** A method that sends tokens and then one error item. *)
Definition failed (l l' : lexer) : Prop :=
  input l' = input l /\
  (exists new e, items l' = items l ++ new ++ [e] /\
                 Forall (token (input l)) new /\ typ e = itemError) /\
  (wellFormed l -> wellFormed l').

(** A state function that ends as [E] says, from every scanner. *)
Definition ends (E : lexer -> reply nextState -> Prop) (m : M nextState) : Prop :=
  forall l, E l (m l).

(** How a state function may end: an error item is the last thing it does,
    and it returns [nil] then. *)
Definition endsWell (l : lexer) (r : reply nextState) : Prop :=
  match r with
  | Return Nil l' => quiet l l' \/ failed l l'
  | _ => quiet l (final r)
  end.

(** How [lexNamespaceFn] and [lexBlockFn] may end: in an error or in a state
    function outside the source. *)
Definition endsInBlock (l : lexer) (r : reply nextState) : Prop :=
  match r with
  | Return Nil l' => failed l l'
  | Return (Next _) _ => False
  | _ => quiet l (final r)
  end.

(** The states that [run] goes through from [lexRootFn]. *)
Definition scanning (s : stateFn) : Prop :=
  match s with
  | LexRootFn | LexLineCommentFn | LexEatLineFn | LexBlockCommentFn => True
  | LexSymbolFn | LexSpaceFn => False
  end.

(** How these states may end: as long as the scan goes on, nothing has been
    sent. *)
Definition endsScanning (l : lexer) (r : reply nextState) : Prop :=
  match r with
  | Return Nil l' => silent l l' \/ failed l l'
  | Return (Next s') l' => silent l l' /\ scanning s'
  | _ => quiet l (final r)
  end.

(** A keyword of the source: bytes below [utf8.RuneSelf] only. *)
Definition asciiString (k : gostring) : Prop :=
  Forall (fun b => u8 b < utf8.RuneSelf) k.

(** What the scanner needs of the tables of package unicode: below
    [utf8.RuneSelf] the letters are [A-Z] and [a-z] and the digits [0-9].
    Negative runes, [eof] among them, are neither. *)
Definition asciiLetter (r : rune) : bool :=
  ((65 <=? r) && (r <=? 90)) || ((97 <=? r) && (r <=? 122)).
Definition asciiDigit (r : rune) : bool := (48 <=? r) && (r <=? 57).

Definition unicodeTables (IsLetter IsDigit : rune -> bool) : Prop :=
  (forall r, r < utf8.RuneSelf -> IsLetter r = asciiLetter r) /\
  (forall r, r < utf8.RuneSelf -> IsDigit r = asciiDigit r).

(** Tables that agree with Go's on Latin-1 and hold nothing beyond it; they
    show that [unicodeTables] can be met. *)
Module Latin1.

Definition IsLetter (r : rune) : bool :=
  asciiLetter r || (r =? 0xAA) || (r =? 0xB5) || (r =? 0xBA) ||
  ((0xC0 <=? r) && (r <=? 0xD6)) || ((0xD8 <=? r) && (r <=? 0xF6)) ||
  ((0xF8 <=? r) && (r <=? 0xFF)).

Definition IsDigit (r : rune) : bool := asciiDigit r.

End Latin1.

(** All the bytes from [pos] on are spaces for [lexSpaceFn]. *)
Definition onlySpaceAhead (l : lexer) : Prop :=
  Forall (fun b => unicode.IsSpace (u8 b) = true)
         (skipn (Z.to_nat (pos l)) (input l)).

(** The scanner after [next] has read the rune at [pos]. *)
Definition advance (l : lexer) : lexer :=
  let l1 := set_pos (pos l + widthAt (input l) (pos l)) l in
  if runeAt (input l) (pos l) =? 10 then set_line (line l1 + 1) l1 else l1.

(** A method that keeps a relation between the scanner before and after, in
    whichever way it ends. *)
Definition keeps (R : lexer -> lexer -> Prop) {A} (m : M A) : Prop :=
  forall l, R l (final (m l)).

(** A state function that never reads past the end of the input. *)
Definition boundsChecked {A} (m : M A) : Prop :=
  forall l l', m l <> Panicked IndexOutOfRange l'.

(** How [run] may end: an error item is the last item sent, and the channel
    is closed then. *)
Definition runsWell (l : lexer) (o : outcome) : Prop :=
  match o with
  | Closed l' => quiet l l' \/ failed l l'
  | _ => quiet l (scanner o)
  end.

(** How [run] may end when it stays in the states of [scanning]: closed with
    nothing sent, or after an error item. *)
Definition runsScanning (l : lexer) (o : outcome) : Prop :=
  match o with
  | Closed l' => silent l l' \/ failed l l'
  | _ => quiet l (scanner o)
  end.

(** What [for i, c := range k] goes through when [k] is a keyword. *)
Fixpoint asciiSteps (i : Z) (k : gostring) : list (Z * rune) :=
  match k with
  | [] => []
  | b :: k' => (i, u8 b) :: asciiSteps (i + 1) k'
  end.

(** The type of the last item sent, if any. *)
Definition lastType (its : list item) : option itemType :=
  match rev its with
  | [] => None
  | it :: _ => Some (typ it)
  end.

(** The text of the examples. *)
Definition preprocessorLine : gostring := go "#" ++ [x0a].

(** [run] has left its loop and closed the channel. *)
Definition closed (o : outcome) : Prop :=
  match o with
  | Closed _ => True
  | _ => False
  end.

(** [run] is still in its loop, about to call [state]. *)
Definition running (state : stateFn) (o : outcome) : Prop :=
  match o with
  | Running state' _ => state' = state
  | _ => False
  end.

(** A method none of whose loops runs out of fuel, in the states the scanner
    reaches. *)
Definition fuelled {A} (m : M A) : Prop :=
  forall l l', wellFormed l -> m l <> OutOfFuel l'.

(* ================================================================= *)
(** ** Vocabulary for the methods one by one *)

(** The rune that [next] is about to return. *)
Definition ahead (l : lexer) : rune :=
  if len (input l) <=? pos l then eof else runeAt (input l) (pos l).

(** The scanner after [next]: at the end of the input only [atEOF] is set. *)
Definition taken (l : lexer) : lexer :=
  if len (input l) <=? pos l then set_atEOF true l else advance l.

(** The scanner after a rune has been read and put back: nothing has moved,
    but the end of the input has been noticed. *)
Definition looked (l : lexer) : lexer :=
  if len (input l) <=? pos l then set_atEOF true l else l.

(** [n] calls of [next] in a row, and the runes they return. *)
Fixpoint nextTimes (n : nat) : M (list rune) :=
  match n with
  | O => ret []
  | S n' => r <- next;; rs <- nextTimes n';; ret (r :: rs)
  end.

(** Every rune read from offset [p] up to offset [q] passes [test]. *)
Inductive runOf (test : rune -> bool) (s : gostring) : Z -> Z -> Prop :=
| runOf_nil (p : Z) : runOf test s p p
| runOf_cons (p q : Z) :
    0 <= p < len s -> test (runeAt s p) = true ->
    runOf test s (p + widthAt s p) q -> runOf test s p q.

(** [s[lo:hi]] for offsets known to be within [s]. *)
Definition segment (s : gostring) (lo hi : Z) : gostring :=
  firstn (Z.to_nat (hi - lo)) (skipn (Z.to_nat lo) s).

(** The scanner [l'] is [l] after the longest run of runes that pass [test]
    has been read: the runes between pass the test and the rune ahead does
    not; [line] has gone up by the newlines read, and nothing has been
    sent. *)
Definition readOn (test : rune -> bool) (l l' : lexer) : Prop :=
  runOf test (input l) (pos l) (pos l') /\
  test (ahead l') = false /\
  line l' = line l + strings.CountNewlines (segment (input l) (pos l) (pos l')) /\
  input l' = input l /\ items l' = items l /\
  start l' = start l /\ startLine l' = startLine l /\
  wellFormed l'.

(* ================================================================= *)
(** ** Vocabulary for whole scans *)

(** A method that returns in the states the scanner reaches: it neither
    panics nor uses up the fuel of a loop. *)
Definition safe {A} (m : M A) : Prop :=
  forall l, wellFormed l -> exists a l', m l = Return a l'.

(** The scanner after [emit(t)], when [input[start:pos]] is within bounds. *)
Definition emitted (t : itemType) (l : lexer) : lexer :=
  set_startLine (line l)
    (set_start (pos l)
       (set_items
          (items l ++ [mkItem t (start l) (segment (input l) (start l) (pos l))
                              (startLine l)])
          l)).

(** The types of the items that a scan sends with [emit]. *)
Definition blockTypes : list itemType :=
  [itemNamespace; itemOpenBrace; itemStruct; itemClass; itemEnum].

Definition blockItem (it : item) : Prop := In (typ it) blockTypes.

(** Items of these types have been sent, and nothing else. *)
Definition plain (l l' : lexer) : Prop :=
  input l' = input l /\
  (exists new, items l' = items l ++ new /\ Forall blockItem new) /\
  wellFormed l'.

(** Items of these types have been sent, and then one error item. *)
Definition plainFailed (l l' : lexer) : Prop :=
  input l' = input l /\
  (exists new e, items l' = items l ++ new ++ [e] /\
                 Forall blockItem new /\ typ e = itemError) /\
  wellFormed l'.

(** Nothing has been sent and [start] is where it was. *)
Definition moved (l l' : lexer) : Prop :=
  input l' = input l /\ items l' = items l /\
  start l' = start l /\ startLine l' = startLine l /\
  wellFormed l'.

(** How [lexNamespaceFn] and [lexBlockFn] end: without a panic, in an error
    item or in [lexStruct]. *)
Definition endsPlain (l : lexer) (r : reply nextState) : Prop :=
  match r with
  | Return Nil l' => plainFailed l l'
  | Return (Next _) _ => False
  | Return (Tail f) l' => f = lexStruct /\ plain l l'
  | Panicked _ _ => False
  | OutOfFuel _ => True
  end.

(** How the state functions that [run] goes through end. *)
Definition endsRoot (l : lexer) (r : reply nextState) : Prop :=
  match r with
  | Return Nil l' => moved l l' \/ plainFailed l l'
  | Return (Next s) l' => moved l l' /\ scanning s
  | Return (Tail f) l' => f = lexStruct /\ plain l l'
  | Panicked _ _ => False
  | OutOfFuel _ => True
  end.

(** How [run] ends. *)
Definition runsPlain (l : lexer) (o : outcome) : Prop :=
  match o with
  | Closed l' => moved l l' \/ plainFailed l l'
  | Leaves f l' => f = lexStruct /\ plain l l'
  | Crashed _ _ => False
  | Running _ l' => moved l l'
  | Starved _ _ => True
  end.

(** The scanner as [acceptKeyword] and [emit] leave it: the keyword has been
    sent, and the rune ahead is not alphanumeric. *)
Definition afterKeyword (alphaNumeric : rune -> bool) (l : lexer) : Prop :=
  wellFormed l /\ start l = pos l /\ alphaNumeric (ahead l) = false.

(** Upon entry to [lexNamespaceFn] we are just past the namespace keyword. *)
Definition afterNamespace (alphaNumeric : rune -> bool) (l : lexer) : Prop :=
  afterKeyword alphaNumeric l /\
  slice (input l) (pos l - 9) (pos l) = Ok (go "namespace").

(** Upon entry to [lexBlockFn] we are just past the brace of a namespace. *)
Definition blockEntry (l : lexer) : Prop :=
  wellFormed l /\ start l = pos l /\
  slice (input l) (pos l - 10) (pos l) = Ok (go "namespace{").

(** The scanner between the tests of [lexBlockFn], which was entered at
    [l0]: nothing has been sent, and [pos] is at most three bytes before the
    start of the block body. *)
Definition inBody (l0 l : lexer) : Prop :=
  moved l0 l /\ pos l0 - 3 <= pos l.

(** ** Vocabulary for invariants of a scan *)

(** [Inv] passes from the scanner before to the scanner after. *)
Definition holding (Inv : lexer -> Prop) (l l' : lexer) : Prop := Inv l -> Inv l'.

Definition notError (it : item) : bool :=
  match typ it with
  | itemError => false
  | _ => true
  end.

(** The texts of the items sent by [emit], put together, are the input up to
    [start]. *)
Definition tiled (l : lexer) : Prop :=
  slice (input l) 0 (start l)
  = Ok (concat (map val (filter notError (items l)))).

(** The line that the byte at offset [p] is on. *)
Definition lineOf (s : gostring) (p : Z) : Z :=
  1 + strings.CountNewlines (firstn (Z.to_nat p) s).

(** [line] and [startLine] are the lines of [pos] and [start], and every
    item sent carries the line of its offset. *)
Definition lineCounted (l : lexer) : Prop :=
  wellFormed l /\
  line l = lineOf (input l) (pos l) /\
  startLine l = lineOf (input l) (start l) /\
  Forall (fun it => item_line it = lineOf (input l) (item_pos it)) (items l).

(** The rune is one of the bytes of [valid]. *)
Definition inSet (valid : gostring) (r : rune) : bool :=
  existsb (fun b => u8 b =? r) valid.



(* ================================================================= *)
(** ** Vocabulary for the end of a keyword *)

(** The runes that the specification names as ending the match of a keyword
    when they follow it: a letter, a digit or an underscore.  (The
    specification's words; the source's test is [isAlphaNumeric].) *)
Definition letterDigitOrUnderscore (IsLetter IsDigit : rune -> bool)
           (r : rune) : Prop :=
  IsLetter r = true \/ IsDigit r = true \/ r = 95.

(** The same for a byte below [utf8.RuneSelf]: [A-Z], [a-z], [0-9] and the
    underscore. *)
Definition identifierByte (c : byte) : bool :=
  asciiLetter (u8 c) || asciiDigit (u8 c) || (u8 c =? 95).

(* ================================================================= *)
(** * Facts about the model of Go's strings and UTF-8 decoding *)

Lemma u8_range (b : byte) : 0 <= u8 b < 256.
Proof.
  unfold u8. pose proof (Byte.to_N_bounded b) as Hb. lia.
Qed.

Lemma byteAt_range (s : gostring) (i : nat) : 0 <= byteAt s i < 256.
Proof. apply u8_range. Qed.

Lemma len_nonneg (s : gostring) : 0 <= len s.
Proof. unfold len. lia. Qed.

Lemma len_app (s t : gostring) : len (s ++ t) = len s + len t.
Proof. unfold len. rewrite length_app. lia. Qed.

Lemma len_skipn (s : gostring) (n : nat) :
  len (skipn n s) = Z.max 0 (len s - Z.of_nat n).
Proof. unfold len. rewrite length_skipn. lia. Qed.

Lemma len_firstn (s : gostring) (n : nat) :
  len (firstn n s) = Z.min (Z.of_nat n) (len s).
Proof. unfold len. rewrite length_firstn. lia. Qed.

Lemma byteAt_skipn (s : gostring) (n i : nat) :
  byteAt (skipn n s) i = byteAt s (n + i).
Proof.
  unfold byteAt. f_equal.
  revert s; induction n as [|n IH]; intros s; simpl; [reflexivity|].
  destruct s as [|b s]; simpl; [destruct i; reflexivity | apply IH].
Qed.

Lemma byteAt_firstn (s : gostring) (n i : nat) :
  (i < n)%nat -> byteAt (firstn n s) i = byteAt s i.
Proof.
  unfold byteAt. intros Hi. f_equal.
  revert s i Hi; induction n as [|n IH]; intros s i Hi; [lia|].
  destruct s as [|b s]; simpl; [destruct i; reflexivity|].
  destruct i as [|i]; [reflexivity | apply IH; lia].
Qed.

Lemma slice_ok (s : gostring) (lo hi : Z) :
  0 <= lo <= hi -> hi <= len s ->
  slice s lo hi = Ok (firstn (Z.to_nat (hi - lo)) (skipn (Z.to_nat lo) s)).
Proof.
  intros H1 H2. unfold slice.
  replace (0 <=? lo) with true by (symmetry; apply Z.leb_le; lia).
  replace (lo <=? hi) with true by (symmetry; apply Z.leb_le; lia).
  replace (hi <=? len s) with true by (symmetry; apply Z.leb_le; lia).
  reflexivity.
Qed.

Lemma slice_inv (s : gostring) (lo hi : Z) (v : gostring) :
  slice s lo hi = Ok v ->
  0 <= lo <= hi /\ hi <= len s /\
  v = firstn (Z.to_nat (hi - lo)) (skipn (Z.to_nat lo) s).
Proof.
  unfold slice.
  destruct (0 <=? lo) eqn:H1; [|discriminate].
  destruct (lo <=? hi) eqn:H2; [|discriminate].
  destruct (hi <=? len s) eqn:H3; [|discriminate].
  simpl. intros H; inversion H; subst.
  apply Z.leb_le in H1, H2, H3. auto.
Qed.

Lemma slice_to_end (s : gostring) (p : Z) :
  0 <= p <= len s -> slice s p (len s) = Ok (skipn (Z.to_nat p) s).
Proof.
  intros Hp. rewrite slice_ok by lia. f_equal.
  apply firstn_all2. rewrite length_skipn. unfold len. lia.
Qed.

Lemma slice_from_start (s : gostring) (p : Z) :
  0 <= p <= len s -> slice s 0 p = Ok (firstn (Z.to_nat p) s).
Proof.
  intros Hp. rewrite slice_ok by lia. simpl. rewrite Z.sub_0_r. reflexivity.
Qed.

Lemma slice_len (s : gostring) (lo hi : Z) (v : gostring) :
  slice s lo hi = Ok v -> len v = hi - lo.
Proof.
  intros H. apply slice_inv in H. destruct H as (H1 & H2 & ->).
  rewrite len_firstn, len_skipn. lia.
Qed.

(** *** Bit operations *)

Lemma lor_ge_l (a b : Z) : 0 <= b -> a <= Z.lor a b.
Proof.
  intros Hb. pose proof (Z.sub_lor_l_same_l b a) as H.
  assert (0 <= Z.land b (Z.lnot a)) by (apply Z.land_nonneg; auto).
  lia.
Qed.

Lemma lor_ge_r (a b : Z) : 0 <= a -> b <= Z.lor a b.
Proof. intros Ha. rewrite Z.lor_comm. apply lor_ge_l; assumption. Qed.

Lemma RuneStart_u8 (c : byte) :
  utf8.RuneStart (u8 c) = negb ((0x80 <=? u8 c) && (u8 c <=? 0xBF)).
Proof. destruct c; reflexivity. Qed.

(** *** The table [first] *)

Lemma first_cases (b : Z) :
  0 <= b < 256 ->
  (b < 0x80 /\ utf8.first b = 0xF0) \/
  ((0x80 <= b < 0xC2 \/ 0xF5 <= b) /\ utf8.first b = 0xF1) \/
  (0xC2 <= b < 0xE0 /\ utf8.first b = 0x02) \/
  (b = 0xE0 /\ utf8.first b = 0x13) \/
  ((0xE1 <= b < 0xED \/ 0xEE <= b < 0xF0) /\ utf8.first b = 0x03) \/
  (b = 0xED /\ utf8.first b = 0x23) \/
  (b = 0xF0 /\ utf8.first b = 0x34) \/
  (0xF1 <= b < 0xF4 /\ utf8.first b = 0x04) \/
  (b = 0xF4 /\ utf8.first b = 0x44).
Proof.
  intros Hb. unfold utf8.first.
  repeat match goal with
         | |- context [?a <? ?c] => destruct (Z.ltb_spec a c)
         | |- context [?a =? ?c] => destruct (Z.eqb_spec a c)
         end; lia.
Qed.

(** *** [DecodeRuneInString] *)

Ltac numeral a :=
  lazymatch a with
  | Zpos _ => idtac
  | Z0 => idtac
  | Zneg _ => idtac
  end.

Ltac fold_numerals :=
  repeat match goal with
    | |- context [Z.land ?a ?b] =>
        numeral a; numeral b;
        let v := eval vm_compute in (Z.land a b) in change (Z.land a b) with v
    | |- context [Z.modulo ?a ?b] =>
        numeral a; numeral b;
        let v := eval vm_compute in (Z.modulo a b) in change (Z.modulo a b) with v
    | |- context [Z.shiftr ?a ?b] =>
        numeral a; numeral b;
        let v := eval vm_compute in (Z.shiftr a b) in change (Z.shiftr a b) with v
    | |- context [Z.leb ?a ?b] =>
        numeral a; numeral b;
        let v := eval vm_compute in (Z.leb a b) in change (Z.leb a b) with v
    | |- context [utf8.acceptRanges ?a] =>
        numeral a;
        let v := eval vm_compute in (utf8.acceptRanges a) in
        change (utf8.acceptRanges a) with v
    end;
  cbv beta iota; unfold fst, snd.

Lemma land_ones6 (b : Z) : Z.land b 0x3F = b mod 64.
Proof. change 0x3F with (Z.ones 6). rewrite Z.land_ones by lia. reflexivity. Qed.
Lemma land_ones5 (b : Z) : Z.land b 0x1F = b mod 32.
Proof. change 0x1F with (Z.ones 5). rewrite Z.land_ones by lia. reflexivity. Qed.
Lemma land_ones4 (b : Z) : Z.land b 0x0F = b mod 16.
Proof. change 0x0F with (Z.ones 4). rewrite Z.land_ones by lia. reflexivity. Qed.
Lemma land_ones3 (b : Z) : Z.land b 0x07 = b mod 8.
Proof. change 0x07 with (Z.ones 3). rewrite Z.land_ones by lia. reflexivity. Qed.


Ltac decode_error :=
  intros [= <- <-]; right; right; left; repeat split; auto; lia.

Ltac head_if :=
  lazymatch goal with
  | |- (if ?c then _ else _) = _ -> _ =>
      let Hc := fresh "Hc" in
      destruct c eqn:Hc;
      rewrite ?orb_true_iff, ?orb_false_iff, ?Z.ltb_lt, ?Z.ltb_ge in Hc
  end.

Lemma decode_inv (t : gostring) (r w : Z) :
  utf8.DecodeRuneInString t = (r, w) ->
  (t = [] /\ w = 0) \/
  (t <> [] /\ w = 1 /\ byteAt t 0 < 0x80 /\ r = byteAt t 0) \/
  (t <> [] /\ w = 1 /\ 0x80 <= byteAt t 0 /\ r = utf8.RuneError) \/
  (2 <= w <= 4 /\ w <= len t /\ 0xC2 <= byteAt t 0 /\ 0x80 <= r /\
   forall i, (1 <= i)%nat -> Z.of_nat i < w -> 0x80 <= byteAt t i <= 0xBF).
Proof.
  destruct t as [|c0 t'].
  { intros H. left. inversion H. auto. }
  unfold utf8.DecodeRuneInString.
  assert (Hn : (len (c0 :: t') <? 1) = false).
  { apply Z.ltb_ge. unfold len. simpl length. lia. }
  rewrite Hn; clear Hn.
  assert (Hne : c0 :: t' <> []) by discriminate.
  pose proof (byteAt_range (c0 :: t') 0) as R0.
  pose proof (byteAt_range (c0 :: t') 1) as R1.
  pose proof (byteAt_range (c0 :: t') 2) as R2.
  pose proof (byteAt_range (c0 :: t') 3) as R3.
  assert (Hi : forall i, (1 <= i)%nat -> Z.of_nat i < 4 ->
                    i = 1%nat \/ i = 2%nat \/ i = 3%nat) by lia.
  remember (len (c0 :: t')) as n.
  remember (byteAt (c0 :: t') 0) as s0.
  remember (byteAt (c0 :: t') 1) as s1.
  remember (byteAt (c0 :: t') 2) as s2.
  remember (byteAt (c0 :: t') 3) as s3.
  cbv zeta.
  rewrite !Z.shiftl_mul_pow2, !land_ones6, land_ones5, land_ones4, !land_ones3 by lia.
  change (2 ^ 6) with 64. change (2 ^ 12) with 4096. change (2 ^ 18) with 262144.
  assert (P1 : 0 <= s1 mod 64 < 64) by (apply Z.mod_pos_bound; lia).
  assert (P2 : 0 <= s2 mod 64 < 64) by (apply Z.mod_pos_bound; lia).
  assert (P3 : 0 <= s3 mod 64 < 64) by (apply Z.mod_pos_bound; lia).
  pose proof (Z.div_mod s0 32) as M32; pose proof (Z.mod_pos_bound s0 32) as B32.
  pose proof (Z.div_mod s0 16) as M16; pose proof (Z.mod_pos_bound s0 16) as B16.
  pose proof (Z.div_mod s0 8) as M8; pose proof (Z.mod_pos_bound s0 8) as B8.
  pose proof (Z.div_mod s1 64) as M64.
  pose proof (lor_ge_l (s0 mod 32 * 64) (s1 mod 64)) as L2.
  pose proof (lor_ge_l (Z.lor (s0 mod 16 * 4096) (s1 mod 64 * 64)) (s2 mod 64)) as L3.
  pose proof (lor_ge_l (s0 mod 16 * 4096) (s1 mod 64 * 64)) as L3a.
  pose proof (lor_ge_r (s0 mod 16 * 4096) (s1 mod 64 * 64)) as L3b.
  pose proof (lor_ge_l (Z.lor (Z.lor (s0 mod 8 * 262144) (s1 mod 64 * 4096)) (s2 mod 64 * 64))
                       (s3 mod 64)) as L4.
  pose proof (lor_ge_l (Z.lor (s0 mod 8 * 262144) (s1 mod 64 * 4096)) (s2 mod 64 * 64)) as L4a.
  pose proof (lor_ge_l (s0 mod 8 * 262144) (s1 mod 64 * 4096)) as L4b.
  pose proof (lor_ge_r (s0 mod 8 * 262144) (s1 mod 64 * 4096)) as L4c.
  destruct (first_cases s0 R0) as [[B E]|[[B E]|[[B E]|[[B E]|[[B E]|[[B E]|[[B E]|[[B E]|[B E]]]]]]]]];
    rewrite E; fold_numerals.
  1: { rewrite Z.land_m1_r, Z.lor_0_r. intros [= <- <-]. right; left. auto. }
  1: { rewrite Z.land_0_r, Z.lor_0_l, Z.land_m1_r. decode_error. }
  all: repeat head_if; try decode_error.
  all: intros [= <- <-]; right; right; right.
  all: repeat split; try lia.
  all: destruct (Hi i) as [Hj|[Hj|Hj]]; try lia;
         subst i; rewrite <- ?Heqs1, <- ?Heqs2, <- ?Heqs3; lia.
Qed.

(** The decoder reads at most the bytes of the encoding it returns. *)
Lemma decode_prefix (t t' : gostring) (r w : Z) :
  utf8.DecodeRuneInString t = (r, w) ->
  2 <= w -> w <= len t' ->
  (forall i, Z.of_nat i < w -> byteAt t' i = byteAt t i) ->
  utf8.DecodeRuneInString t' = (r, w).
Proof.
  intros H Hw Hlen Hsame.
  pose proof (decode_inv t r w H) as Hinv.
  destruct Hinv as [[_ ?]|[(_ & ? & _)|[(_ & ? & _)|(Hw4 & Hlt & _)]]]; try lia.
  revert H. unfold utf8.DecodeRuneInString.
  assert (Hn : (len t <? 1) = false) by (apply Z.ltb_ge; lia).
  assert (Hn' : (len t' <? 1) = false) by (apply Z.ltb_ge; lia).
  rewrite Hn, Hn'; clear Hn Hn'.
  rewrite (Hsame 0%nat) by lia. rewrite (Hsame 1%nat) by lia.
  pose proof (byteAt_range t 0) as R0.
  remember (byteAt t 0) as s0. remember (byteAt t 1) as s1.
  cbv zeta.
  rewrite !Z.shiftl_mul_pow2 by lia.
  destruct (first_cases s0 R0) as [[B E]|[[B E]|[[B E]|[[B E]|[[B E]|[[B E]|[[B E]|[[B E]|[B E]]]]]]]]];
    rewrite E; fold_numerals.
  all: repeat head_if; try (intros [= <- <-]; lia).
  all: intros [= <- <-].
  all: rewrite ?(Hsame 2%nat), ?(Hsame 3%nat) by lia.
  all: repeat match goal with
         | |- context [Z.ltb ?a ?b] => destruct (Z.ltb_spec a b); try lia
         end.
  all: reflexivity.
Qed.

(** *** Rune boundaries *)

Lemma decode_at (s : gostring) (p : Z) :
  utf8.DecodeRuneInString (skipn (Z.to_nat p) s) = (runeAt s p, widthAt s p).
Proof. unfold runeAt, widthAt. apply surjective_pairing. Qed.

Lemma skipn_nonempty (s : gostring) (p : Z) :
  0 <= p < len s -> skipn (Z.to_nat p) s <> [].
Proof.
  intros Hp E. apply (f_equal len) in E. rewrite len_skipn in E.
  unfold len in E at 2. simpl in E. lia.
Qed.

Lemma widthAt_bounds (s : gostring) (p : Z) :
  0 <= p < len s -> 1 <= widthAt s p <= 4 /\ p + widthAt s p <= len s.
Proof.
  intros Hp. pose proof (decode_inv _ _ _ (decode_at s p)) as H.
  pose proof (skipn_nonempty s p Hp) as Hne.
  assert (L : len (skipn (Z.to_nat p) s) = len s - p) by (rewrite len_skipn; lia).
  destruct H as [[? _]|[(_ & ? & _)|[(_ & ? & _)|(? & ? & _)]]];
    solve [contradiction | lia].
Qed.

Lemma boundary_range (s : gostring) (p : Z) :
  boundary s p -> 0 <= p <= len s.
Proof.
  induction 1 as [|p Hb IH Hlt].
  - pose proof (len_nonneg s). lia.
  - pose proof (widthAt_bounds s p). lia.
Qed.

(** Inside a rune of several bytes every byte but the first is a
    continuation byte. *)
Lemma inside_rune (s : gostring) (p a : Z) :
  0 <= p < len s -> p < a < p + widthAt s p ->
  utf8.RuneStart (byteAt s (Z.to_nat a)) = false.
Proof.
  intros Hp Ha. pose proof (decode_inv _ _ _ (decode_at s p)) as H.
  destruct H as [[_ ?]|[(_ & ? & _)|[(_ & ? & _)|(Hw & _ & _ & _ & Hc)]]]; try lia.
  specialize (Hc (Z.to_nat (a - p))). rewrite byteAt_skipn in Hc.
  replace (Z.to_nat p + Z.to_nat (a - p))%nat with (Z.to_nat a) in Hc by lia.
  unfold byteAt in *. rewrite RuneStart_u8.
  destruct Hc as [H1 H2]; lia.
Qed.

(** A byte that starts a rune and lies before a boundary is a boundary. *)
Lemma runestart_boundary (s : gostring) (p : Z) :
  boundary s p ->
  forall a, 0 <= a < p -> utf8.RuneStart (byteAt s (Z.to_nat a)) = true ->
  boundary s a.
Proof.
  induction 1 as [|p Hb IH Hlt]; intros a Ha Hs; [lia|].
  pose proof (boundary_range s p Hb) as Hr.
  destruct (Z.lt_trichotomy a p) as [Hlt'|[->|Hgt]].
  - apply IH; [lia | assumption].
  - assumption.
  - rewrite (inside_rune s p a) in Hs by lia. discriminate.
Qed.

(** Two boundaries are never inside the same rune. *)
Lemma boundary_no_overlap (s : gostring) (p : Z) :
  0 <= p ->
  forall q, boundary s p -> boundary s q -> q < p -> q + widthAt s q <= p.
Proof.
  intros Hp. pattern p. apply Z_lt_induction; [|assumption].
  clear p Hp. intros p IH q Hbp Hbq Hlt.
  pose proof (boundary_range s q Hbq) as Hq.
  inversion Hbp as [E|p0 Hb0 Hlt0 E]; [lia|].
  pose proof (boundary_range s p0 Hb0) as Hr0.
  pose proof (widthAt_bounds s p0) as Hw0.
  destruct (Z.lt_trichotomy q p0) as [H1|[->|H1]].
  - assert (q + widthAt s q <= p0) by (apply IH; auto; lia). lia.
  - lia.
  - assert (p0 + widthAt s p0 <= q) by (apply (IH q); auto; lia). lia.
Qed.

(** *** [DecodeLastRuneInString] undoes [DecodeRuneInString] *)

Lemma scanBack_le (fuel : nat) (s : gostring) (lim st : Z) :
  utf8.scanBack fuel s lim st <= st.
Proof.
  revert st; induction fuel as [|fuel IH]; intros st; simpl; [lia|].
  destruct (st <? lim); [lia|].
  destruct (utf8.RuneStart _); [lia|].
  specialize (IH (st - 1)). lia.
Qed.

Lemma scanBack_found (fuel : nat) (s : gostring) (lim st q : Z) :
  lim <= q <= st ->
  utf8.RuneStart (byteAt s (Z.to_nat q)) = true ->
  (forall j, q < j <= st -> utf8.RuneStart (byteAt s (Z.to_nat j)) = false) ->
  st - q < Z.of_nat fuel ->
  utf8.scanBack fuel s lim st = q.
Proof.
  revert st; induction fuel as [|fuel IH]; intros st Hq Hs Hc Hf; [lia|].
  simpl. destruct (Z.ltb_spec st lim); [lia|].
  destruct (Z.eq_dec st q) as [->|Hne].
  - rewrite Hs. reflexivity.
  - rewrite Hc by lia. apply IH; auto; try lia.
    intros j Hj. apply Hc. lia.
Qed.

Theorem decode_last_after_decode (s : gostring) (p : Z) :
  boundary s p -> p < len s ->
  utf8.DecodeLastRuneInString (firstn (Z.to_nat (p + widthAt s p)) s)
  = (runeAt s p, widthAt s p).
Proof.
  intros Hb Hlt.
  pose proof (boundary_range s p Hb) as Hr.
  pose proof (widthAt_bounds s p (conj (proj1 Hr) Hlt)) as Hw.
  remember (p + widthAt s p) as e eqn:He.
  set (u := firstn (Z.to_nat e) s).
  assert (Lu : len u = e) by (unfold u; rewrite len_firstn; lia).
  assert (Bu : forall i, Z.of_nat i < e -> byteAt u i = byteAt s i).
  { intros i Hi. unfold u. apply byteAt_firstn. lia. }
  unfold utf8.DecodeLastRuneInString. rewrite Lu.
  destruct (Z.eqb_spec e 0); [lia|].
  rewrite Bu by lia.
  pose proof (decode_inv _ _ _ (decode_at s p)) as H.
  rewrite byteAt_skipn, Nat.add_0_r in H.
  destruct H as [[_ ?]|[(_ & E1 & Hlo & Hr1)|[(_ & E1 & Hhi & Hr1)|(Hw2 & _ & H0 & _ & Hc)]]];
    [lia| | |].
  - (* ASCII *)
    replace (e - 1) with p by lia. unfold utf8.RuneSelf.
    destruct (Z.ltb_spec (byteAt s (Z.to_nat p)) 128); [|lia].
    rewrite Hr1, E1. reflexivity.
  - (* an invalid byte *)
    replace (e - 1) with p by lia. unfold utf8.RuneSelf.
    destruct (Z.ltb_spec (byteAt s (Z.to_nat p)) 128); [lia|].
    cbv zeta.
    match goal with |- context [utf8.scanBack ?f ?a ?b ?c] =>
      pose proof (scanBack_le f a b c) as Hle; set (st := utf8.scanBack f a b c) in * end.
    set (st1 := if st <? 0 then 0 else st).
    assert (Hst1 : 0 <= st1 < e).
    { unfold st1. destruct (Z.ltb_spec st 0); lia. }
    destruct (utf8.DecodeRuneInString (skipn (Z.to_nat st1) u)) as [r' size'] eqn:D.
    rewrite Hr1, E1.
    destruct (Z.eqb_spec (st1 + size') e) as [Hend|]; [|reflexivity]. simpl.
    pose proof (decode_inv _ _ _ D) as Hd.
    rewrite byteAt_skipn, Nat.add_0_r in Hd.
    destruct Hd as [[_ ?]|[(_ & E2 & Hlo2 & _)|[(_ & E2 & _ & Hr2)|(Hw2 & Hl2 & H02 & _ & _)]]].
    + lia.
    + assert (Hp1 : st1 = p) by lia. rewrite Hp1 in *. rewrite Bu in Hlo2 by lia. lia.
    + rewrite Hr2, E2. reflexivity.
    + exfalso.
      assert (D' : utf8.DecodeRuneInString (skipn (Z.to_nat st1) s) = (r', size')).
      { apply (decode_prefix _ _ _ _ D); [lia| rewrite len_skipn; lia|].
        intros i Hi. rewrite !byteAt_skipn. symmetry. apply Bu. lia. }
      rewrite Bu in H02 by lia.
      assert (Hb1 : boundary s st1).
      { apply (runestart_boundary s p Hb); [lia|].
        unfold byteAt in *. rewrite RuneStart_u8.
        destruct (Z.leb_spec (u8 (nth (Z.to_nat st1) s x00)) 191); [lia|].
        rewrite andb_false_r. reflexivity. }
      pose proof (boundary_no_overlap s p (proj1 Hr) st1 Hb Hb1) as Hno.
      unfold widthAt in Hno. rewrite D' in Hno. simpl in Hno. lia.
  - (* a rune of several bytes *)
    unfold utf8.RuneSelf.
    assert (Hlast : 128 <= byteAt s (Z.to_nat (e - 1)) <= 191).
    { specialize (Hc (Z.to_nat (e - 1 - p))). rewrite byteAt_skipn in Hc.
      replace (Z.to_nat p + Z.to_nat (e - 1 - p))%nat with (Z.to_nat (e - 1)) in Hc by lia.
      apply Hc; lia. }
    destruct (Z.ltb_spec (byteAt s (Z.to_nat (e - 1))) 128); [lia|].
    cbv zeta.
    assert (Hsb : utf8.scanBack (Z.to_nat utf8.UTFMax) u
                    (if e - utf8.UTFMax <? 0 then 0 else e - utf8.UTFMax) (e - 1 - 1) = p).
    { unfold utf8.UTFMax. apply scanBack_found.
      - destruct (Z.ltb_spec (e - 4) 0); lia.
      - rewrite Bu by lia. unfold byteAt in *. rewrite RuneStart_u8.
        destruct (Z.leb_spec (u8 (nth (Z.to_nat p) s x00)) 191); [lia|].
        rewrite andb_false_r. reflexivity.
      - intros j Hj. rewrite Bu by lia. apply (inside_rune s p j); lia.
      - lia. }
    rewrite Hsb.
    destruct (Z.ltb_spec p 0); [lia|].
    assert (D : utf8.DecodeRuneInString (skipn (Z.to_nat p) u) = (runeAt s p, widthAt s p)).
    { apply (decode_prefix _ _ _ _ (decode_at s p)); [lia| rewrite len_skipn; lia|].
      intros i Hi. rewrite !byteAt_skipn. apply Bu. lia. }
    rewrite D.
    destruct (Z.eqb_spec (p + widthAt s p) e); [reflexivity | lia].
Qed.

(** *** The decoders at work *)

Example decode_two_bytes :
  utf8.DecodeRuneInString [xc3; xa9; x41] = (0xE9, 2).
Proof. reflexivity. Qed.

Example decode_four_bytes :
  utf8.DecodeRuneInString [xf0; x9d; x90; x80] = (0x1D400, 4).
Proof. reflexivity. Qed.

Example decode_truncated :
  utf8.DecodeRuneInString [xe2; x82] = (utf8.RuneError, 1).
Proof. reflexivity. Qed.

Example decode_surrogate :
  utf8.DecodeRuneInString [xed; xa0; x80] = (utf8.RuneError, 1).
Proof. reflexivity. Qed.

Example decode_last_two_bytes :
  utf8.DecodeLastRuneInString [x41; xc3; xa9] = (0xE9, 2).
Proof. reflexivity. Qed.

Example decode_last_truncated :
  utf8.DecodeLastRuneInString [xe2; x82] = (utf8.RuneError, 1).
Proof. reflexivity. Qed.

Example range_over_string :
  rangeString [x41; xc3; xa9; xff; x42] = [(0, 65); (1, 0xE9); (3, utf8.RuneError); (4, 66)].
Proof. reflexivity. Qed.

(** Off a rune boundary [DecodeLastRuneInString] does not undo
    [DecodeRuneInString]: from offset 1 of a rune of two bytes the decoder
    reads one invalid byte, and the last rune of the first two bytes is the
    whole rune. *)
Example off_boundary :
  widthAt [xc3; xa9] 1 = 1 /\
  utf8.DecodeLastRuneInString (firstn 2 [xc3; xa9]) = (0xE9, 2).
Proof. split; reflexivity. Qed.

(* ================================================================= *)
(** * The methods of the scanner *)

(** ** Relations between the scanner before and after *)

Ltac splits := repeat match goal with |- _ /\ _ => split end.

Lemma steady_refl (l : lexer) : steady l l.
Proof. unfold steady. auto. Qed.

Lemma steady_trans (a b c : lexer) : steady a b -> steady b c -> steady a c.
Proof.
  unfold steady. intros (H1 & H2 & H3 & H4 & H5) (K1 & K2 & K3 & K4 & K5).
  splits; try congruence. auto.
Qed.

Lemma silent_refl (l : lexer) : silent l l.
Proof. unfold silent. auto. Qed.

Lemma silent_trans (a b c : lexer) : silent a b -> silent b c -> silent a c.
Proof.
  unfold silent. intros (H1 & H2 & H5) (K1 & K2 & K5).
  splits; try congruence. auto.
Qed.

Lemma quiet_refl (l : lexer) : quiet l l.
Proof.
  unfold quiet. splits; auto.
  exists []. rewrite app_nil_r. auto.
Qed.

Lemma quiet_trans (a b c : lexer) : quiet a b -> quiet b c -> quiet a c.
Proof.
  unfold quiet.
  intros (H1 & (n1 & H2 & H3) & H5) (K1 & (n2 & K2 & K3) & K5).
  splits; try congruence; auto.
  exists (n1 ++ n2). rewrite K2, H2, app_assoc. split; [reflexivity|].
  apply Forall_app. split; [assumption|]. rewrite <- H1. assumption.
Qed.

Lemma steady_silent (l l' : lexer) : steady l l' -> silent l l'.
Proof. unfold steady, silent. tauto. Qed.

Lemma silent_quiet (l l' : lexer) : silent l l' -> quiet l l'.
Proof.
  unfold silent, quiet. intros (H1 & H2 & H3). splits; auto.
  exists []. rewrite app_nil_r. auto.
Qed.

Lemma quiet_failed (a b c : lexer) : quiet a b -> failed b c -> failed a c.
Proof.
  unfold quiet, failed.
  intros (H1 & (n1 & H2 & H3) & H5) (K1 & (n2 & e & K2 & K3 & K4) & K5).
  splits; try congruence; auto.
  exists (n1 ++ n2), e. rewrite K2, H2, !app_assoc. split; [reflexivity|].
  split; [|assumption].
  apply Forall_app. split; [assumption|]. rewrite <- H1. assumption.
Qed.

(** ** Composition *)

Section Keeps.

Variable R : lexer -> lexer -> Prop.
Hypothesis R_refl : forall l, R l l.
Hypothesis R_trans : forall a b c, R a b -> R b c -> R a c.

Lemma keeps_ret {A} (a : A) : keeps R (ret a).
Proof. intros l. apply R_refl. Qed.

Lemma keeps_get {A} (f : lexer -> A) : keeps R (get f).
Proof. intros l. apply R_refl. Qed.

Lemma keeps_lift {A} (r : result A) : keeps R (lift r).
Proof. intros l. unfold lift. destruct r; apply R_refl. Qed.

Lemma keeps_diverge {A} : keeps R (@diverge A).
Proof. intros l. apply R_refl. Qed.

Lemma keeps_bind {A B} (m : M A) (k : A -> M B) :
  keeps R m -> (forall a, keeps R (k a)) -> keeps R (bind m k).
Proof.
  intros Hm Hk l. unfold bind. specialize (Hm l).
  destruct (m l) as [a l'|e l'|l']; simpl in *; try assumption.
  apply (R_trans _ l'); [assumption | apply Hk].
Qed.

End Keeps.

Lemma keeps_weaken (R R' : lexer -> lexer -> Prop) {A} (m : M A) :
  (forall l l', R l l' -> R' l l') -> keeps R m -> keeps R' m.
Proof. intros H Hm l. apply H, Hm. Qed.

(** ** Running a method step by step *)

Lemma bind_get {A B} (f : lexer -> A) (k : A -> M B) (l : lexer) :
  bind (get f) k l = k (f l) l.
Proof. reflexivity. Qed.

Lemma bind_ret {A B} (a : A) (k : A -> M B) (l : lexer) :
  bind (ret a) k l = k a l.
Proof. reflexivity. Qed.

Lemma bind_modify {B} (f : lexer -> lexer) (k : unit -> M B) (l : lexer) :
  bind (modify f) k l = k tt (f l).
Proof. reflexivity. Qed.

Lemma bind_lift_ok {A B} (a : A) (k : A -> M B) (l : lexer) :
  bind (lift (Ok a)) k l = k a l.
Proof. reflexivity. Qed.

Lemma bind_lift_panic {A B} (e : runtimeError) (k : A -> M B) (l : lexer) :
  bind (lift (@Panic A e)) k l = Panicked e l.
Proof. reflexivity. Qed.

Lemma bind_return {A B} (m : M A) (k : A -> M B) (l l' : lexer) (a : A) :
  m l = Return a l' -> bind m k l = k a l'.
Proof. intros H. unfold bind. rewrite H. reflexivity. Qed.

Lemma bind_assoc {A B C} (m : M A) (k : A -> M B) (h : B -> M C) (l : lexer) :
  bind (bind m k) h l = bind m (fun a => bind (k a) h) l.
Proof. unfold bind. destruct (m l); reflexivity. Qed.

Ltac mstep :=
  repeat first
    [ rewrite bind_assoc
    | rewrite bind_get
    | rewrite bind_ret
    | rewrite bind_modify
    | rewrite bind_lift_ok
    | rewrite bind_lift_panic ];
  cbv beta.

(** ** [next] and [backup] *)

Lemma next_at_end (l : lexer) :
  len (input l) <= pos l -> next l = Return eof (set_atEOF true l).
Proof.
  intros H. unfold next. mstep.
  destruct (Z.leb_spec (len (input l)) (pos l)); [reflexivity | lia].
Qed.

Lemma next_inside (l : lexer) :
  0 <= pos l < len (input l) ->
  next l = Return (runeAt (input l) (pos l)) (advance l).
Proof.
  intros H. unfold next. mstep.
  destruct (Z.leb_spec (len (input l)) (pos l)); [lia|].
  rewrite slice_to_end by lia. mstep. rewrite decode_at. mstep.
  unfold advance.
  destruct (runeAt (input l) (pos l) =? 10); reflexivity.
Qed.

Lemma next_before (l : lexer) :
  pos l < 0 -> next l = Panicked SliceBoundsOutOfRange l.
Proof.
  intros H. unfold next. mstep. pose proof (len_nonneg (input l)).
  destruct (Z.leb_spec (len (input l)) (pos l)); [lia|].
  unfold slice. destruct (Z.leb_spec 0 (pos l)); [lia|]. reflexivity.
Qed.

Lemma wellFormed_range (l : lexer) :
  wellFormed l -> 0 <= pos l <= len (input l).
Proof. intros [H _]. apply boundary_range. assumption. Qed.

Lemma wellFormed_advance (l : lexer) :
  wellFormed l -> pos l < len (input l) -> wellFormed (advance l).
Proof.
  intros [Hb He] Hlt. unfold advance, wellFormed.
  destruct (runeAt (input l) (pos l) =? 10); simpl;
    (split; [apply boundary_next; assumption | intros E; apply He in E; lia]).
Qed.

Lemma backup_idle (l : lexer) :
  atEOF l = true \/ pos l <= 0 -> backup l = Return tt l.
Proof.
  intros H. unfold backup. mstep.
  destruct (atEOF l); simpl; [reflexivity|].
  destruct (Z.ltb_spec 0 (pos l)); [|reflexivity].
  destruct H; [discriminate | lia].
Qed.

Lemma backup_advance (l : lexer) :
  wellFormed l -> pos l < len (input l) -> backup (advance l) = Return tt l.
Proof.
  intros Hwf Hlt. pose proof (wellFormed_range l Hwf) as Hr.
  destruct Hwf as [Hb He].
  pose proof (widthAt_bounds (input l) (pos l) (conj (proj1 Hr) Hlt)) as Hw.
  assert (Ha : atEOF l = false).
  { destruct (atEOF l); [|reflexivity]. specialize (He eq_refl). lia. }
  assert (Hin : input (advance l) = input l)
    by (unfold advance; destruct (_ =? 10); reflexivity).
  assert (Hat : atEOF (advance l) = false)
    by (unfold advance; destruct (_ =? 10); assumption).
  assert (Hpos : pos (advance l) = pos l + widthAt (input l) (pos l))
    by (unfold advance; destruct (_ =? 10); reflexivity).
  unfold backup. mstep. rewrite Hat, Hpos.
  destruct (Z.ltb_spec 0 (pos l + widthAt (input l) (pos l))); [|lia].
  cbn [negb andb]. mstep. rewrite Hin.
  rewrite slice_from_start by lia. mstep.
  rewrite (decode_last_after_decode (input l) (pos l) Hb Hlt). mstep.
  unfold advance.
  destruct l as [nm inp its ln sl pd bd ad p st ae]; simpl in *.
  destruct (runeAt inp p =? 10); simpl; unfold modify, ret, set_line, set_pos; simpl;
    f_equal; f_equal; lia.
Qed.

Lemma next_steady : keeps steady next.
Proof.
  intros l. destruct (Z.lt_ge_cases (pos l) 0) as [Hneg|Hnn].
  { rewrite next_before by assumption. apply steady_refl. }
  destruct (Z.le_gt_cases (len (input l)) (pos l)) as [Hend|Hin].
  - rewrite next_at_end by assumption. simpl. unfold steady, wellFormed. simpl.
    splits; auto. intros [Hb _]. auto.
  - rewrite next_inside by lia. simpl.
    assert (E : input (advance l) = input l /\ items (advance l) = items l /\
                start (advance l) = start l /\ startLine (advance l) = startLine l)
      by (unfold advance; destruct (_ =? 10); auto).
    destruct E as (E1 & E2 & E3 & E4). unfold steady. splits; auto.
    intros Hwf. apply wellFormed_advance; assumption.
Qed.

(** Under [wellFormed], [backup] undoes the last [next] that read a rune. *)
Lemma backup_wellFormed (l : lexer) :
  wellFormed l ->
  exists l', backup l = Return tt l' /\ wellFormed l' /\ pos l' <= pos l.
Proof.
  intros Hwf. pose proof (wellFormed_range l Hwf) as Hr.
  destruct (atEOF l) eqn:Ha.
  { exists l. rewrite backup_idle by auto. splits; auto; lia. }
  destruct (Z.eq_dec (pos l) 0) as [H0|H0].
  { exists l. rewrite backup_idle by (right; lia). splits; auto; lia. }
  destruct Hwf as [Hb He].
  inversion Hb as [E|p0 Hb0 Hlt0 E]; [congruence|].
  set (l0 := set_line (line l - (if runeAt (input l) p0 =? 10 then 1 else 0))
                      (set_pos p0 l)).
  assert (Hwf0 : wellFormed l0).
  { unfold l0, wellFormed. simpl. split; [assumption|]. rewrite Ha. discriminate. }
  assert (Hadv : advance l0 = l).
  { unfold advance, l0. simpl.
    destruct l as [nm inp its ln sl pd bd ad p st ae]; simpl in *.
    unfold set_line, set_pos; simpl.
    destruct (runeAt inp p0 =? 10); simpl; f_equal; lia. }
  exists l0. rewrite <- Hadv at 1.
  rewrite backup_advance by (auto; unfold l0; simpl; assumption).
  pose proof (boundary_range _ _ Hb0).
  pose proof (widthAt_bounds (input l) p0).
  splits; auto. unfold l0; simpl. lia.
Qed.

Lemma backup_shape (l : lexer) :
  exists p n, final (backup l) = set_line n (set_pos p l).
Proof.
  assert (Hid : l = set_line (line l) (set_pos (pos l) l)) by (destruct l; reflexivity).
  unfold backup. mstep.
  destruct (negb (atEOF l) && (0 <? pos l)); [|exists (pos l), (line l); exact Hid].
  mstep. destruct (slice (input l) 0 (pos l)) as [before|e].
  - mstep. destruct (utf8.DecodeLastRuneInString before) as [r w]. mstep.
    destruct (r =? 10).
    + exists (pos l - w), (line l - 1). reflexivity.
    + exists (pos l - w), (line l). destruct l; reflexivity.
  - exists (pos l), (line l). exact Hid.
Qed.

Lemma backup_steady : keeps steady backup.
Proof.
  intros l. destruct (backup_shape l) as (p & n & E).
  unfold steady. rewrite E. simpl. splits; auto.
  intros Hwf. destruct (backup_wellFormed l Hwf) as (l' & E' & Hwf' & _).
  rewrite <- E, E'. assumption.
Qed.

Lemma steady_bind {A B} (m : M A) (k : A -> M B) :
  keeps steady m -> (forall a, keeps steady (k a)) -> keeps steady (bind m k).
Proof. apply keeps_bind, steady_trans. Qed.

Lemma steady_ret {A} (a : A) : keeps steady (ret a).
Proof. apply keeps_ret, steady_refl. Qed.

Lemma steady_get {A} (f : lexer -> A) : keeps steady (get f).
Proof. apply keeps_get, steady_refl. Qed.

Lemma steady_lift {A} (r : result A) : keeps steady (lift r).
Proof. apply keeps_lift, steady_refl. Qed.

Lemma steady_diverge {A} : keeps steady (@diverge A).
Proof. apply keeps_diverge, steady_refl. Qed.

Create HintDb steady.
#[export] Hint Resolve next_steady backup_steady : steady.

Ltac keeps_steady :=
  repeat (intros;
          first
            [ apply steady_ret
            | apply steady_get
            | apply steady_lift
            | apply steady_diverge
            | solve [auto with steady]
            | apply steady_bind
            | match goal with
              | |- keeps _ (if ?c then _ else _) => destruct c
              | |- keeps _ (let '(_, _) := ?p in _) => destruct p
              end ]).

Lemma peek_steady : keeps steady peek.
Proof. unfold peek. keeps_steady. Qed.

Lemma backupTimes_steady (n : nat) : keeps steady (backupTimes n).
Proof. induction n; simpl; keeps_steady. Qed.
#[export] Hint Resolve backupTimes_steady : steady.

Lemma backupMultiple_steady (count : Z) : keeps steady (backupMultiple count).
Proof. unfold backupMultiple. keeps_steady. Qed.
#[export] Hint Resolve backupMultiple_steady : steady.

Lemma accept_steady (valid : gostring) : keeps steady (accept valid).
Proof. unfold accept. keeps_steady. Qed.
#[export] Hint Resolve accept_steady : steady.

Lemma acceptRunLoop_steady (fuel : nat) (valid : gostring) :
  keeps steady (acceptRunLoop fuel valid).
Proof. induction fuel; simpl; keeps_steady. Qed.
#[export] Hint Resolve acceptRunLoop_steady : steady.

Lemma acceptRun_steady (valid : gostring) : keeps steady (acceptRun valid).
Proof. unfold acceptRun. keeps_steady. Qed.
#[export] Hint Resolve acceptRun_steady : steady.

Lemma acceptSpace_steady : keeps steady acceptSpace.
Proof. unfold acceptSpace. keeps_steady. Qed.
#[export] Hint Resolve acceptSpace_steady : steady.

Lemma acceptRune_steady (expected : rune) : keeps steady (acceptRune expected).
Proof. unfold acceptRune. keeps_steady. Qed.
#[export] Hint Resolve acceptRune_steady : steady.

Lemma acceptStringLoop_steady (steps : list (Z * rune)) :
  keeps steady (acceptStringLoop steps).
Proof. induction steps as [|[i c] steps IH]; simpl; keeps_steady. Qed.
#[export] Hint Resolve acceptStringLoop_steady : steady.

Lemma acceptString_steady (s : gostring) : keeps steady (acceptString s).
Proof. unfold acceptString. keeps_steady. Qed.
#[export] Hint Resolve acceptString_steady : steady.

Lemma lexer_eof_steady : keeps steady lexer_eof.
Proof. unfold lexer_eof. keeps_steady. Qed.
#[export] Hint Resolve lexer_eof_steady : steady.

Section MethodsOverTables.

Variable IsLetter IsDigit : rune -> bool.

Lemma acceptAlphaNumeric_steady : keeps steady (acceptAlphaNumeric IsLetter IsDigit).
Proof. unfold acceptAlphaNumeric. keeps_steady. Qed.

Lemma acceptIdentifierLoop_steady (fuel : nat) :
  keeps steady (acceptIdentifierLoop IsLetter IsDigit fuel).
Proof. induction fuel; simpl; keeps_steady. Qed.

Lemma acceptIdentifier_steady : keeps steady (acceptIdentifier IsLetter IsDigit).
Proof.
  unfold acceptIdentifier. pose proof acceptIdentifierLoop_steady. keeps_steady.
Qed.

Lemma acceptKeyword_steady (k : gostring) :
  keeps steady (acceptKeyword IsLetter IsDigit k).
Proof.
  unfold acceptKeyword. pose proof acceptAlphaNumeric_steady. keeps_steady.
Qed.

End MethodsOverTables.
#[export] Hint Resolve acceptAlphaNumeric_steady acceptIdentifier_steady
  acceptKeyword_steady : steady.

(** ** Methods that send items *)

Lemma emit_run (t : itemType) (l : lexer) :
  emit t l =
  match slice (input l) (start l) (pos l) with
  | Ok v =>
      Return tt
        (set_startLine (line l)
           (set_start (pos l)
              (set_items (items l ++ [mkItem t (start l) v (startLine l)]) l)))
  | Panic e => Panicked e l
  end.
Proof.
  unfold emit, send. mstep.
  destruct (slice (input l) (start l) (pos l)); reflexivity.
Qed.

Lemma emit_verbatim (t : itemType) (l l' : lexer) :
  emit t l = Return tt l' ->
  exists it, items l' = items l ++ [it] /\ typ it = t /\
             verbatim (input l') it /\ input l' = input l.
Proof.
  rewrite emit_run. destruct (slice (input l) (start l) (pos l)) as [v|e] eqn:Hs;
    [|discriminate].
  intros [= <-]. eexists. simpl. splits; try reflexivity.
  unfold verbatim. simpl. rewrite (slice_len _ _ _ _ Hs).
  replace (start l + (pos l - start l)) with (pos l) by lia. exact Hs.
Qed.

Lemma emit_quiet (t : itemType) :
  t <> itemError -> t <> itemEOF -> keeps quiet (emit t).
Proof.
  intros H1 H2 l.
  destruct (emit t l) as [[] l'|e l'|l'] eqn:E.
  - destruct (emit_verbatim t l l' E) as (it & Hi & Ht & Hv & Hin).
    simpl. unfold quiet. splits; auto.
    + exists [it]. split; [assumption|]. constructor; [|constructor].
      unfold token. rewrite Ht, <- Hin. auto.
    + rewrite emit_run in E. destruct (slice _ _ _); [|discriminate].
      injection E as <-. unfold wellFormed. simpl. auto.
  - rewrite emit_run in E. destruct (slice _ _ _); [discriminate|].
    injection E as <- <-. apply quiet_refl.
  - rewrite emit_run in E. destruct (slice _ _ _); discriminate.
Qed.

Lemma ignore_silent : keeps silent ignore.
Proof.
  intros l. unfold ignore. mstep.
  destruct (slice (input l) (start l) (pos l)) as [v|e]; mstep.
  - simpl. unfold silent, wellFormed. simpl. auto.
  - apply silent_refl.
Qed.

Lemma errorf_run (format : gostring) (l : lexer) :
  errorf format l =
  Return Nil (set_items (items l ++ [mkItem itemError (start l) format (startLine l)]) l).
Proof. reflexivity. Qed.

Lemma errorf_failed (format : gostring) (l : lexer) :
  failed l (set_items (items l ++ [mkItem itemError (start l) format (startLine l)]) l).
Proof.
  unfold failed. simpl. splits; auto.
  exists [], (mkItem itemError (start l) format (startLine l)). simpl. auto.
Qed.

(** ** How state functions end *)

Section Ends.

Variable R : lexer -> lexer -> Prop.
Variable E : lexer -> reply nextState -> Prop.
Hypothesis after : forall a b r, R a b -> E b r -> E a r.
Hypothesis panicked : forall l e l', R l l' -> E l (Panicked e l').
Hypothesis outOfFuel : forall l l', R l l' -> E l (OutOfFuel l').

Lemma ends_bind {A} (m : M A) (k : A -> M nextState) :
  keeps R m -> (forall a, ends E (k a)) -> ends E (bind m k).
Proof.
  intros Hm Hk l. unfold bind. specialize (Hm l).
  destruct (m l) as [a l'|e l'|l']; simpl in Hm; auto.
  apply (after _ l'); [assumption | apply Hk].
Qed.

End Ends.

Lemma endsInBlock_after (a b : lexer) (r : reply nextState) :
  quiet a b -> endsInBlock b r -> endsInBlock a r.
Proof.
  intros H. destruct r as [[|s|f] l'|e l'|l']; simpl; auto;
    try apply (quiet_trans _ _ _ H). apply (quiet_failed _ _ _ H).
Qed.

Lemma endsWell_after (a b : lexer) (r : reply nextState) :
  quiet a b -> endsWell b r -> endsWell a r.
Proof.
  intros H. destruct r as [[|s|f] l'|e l'|l']; simpl; auto;
    try apply (quiet_trans _ _ _ H).
  intros [K|K]; [left; apply (quiet_trans _ _ _ H K)
                |right; apply (quiet_failed _ _ _ H K)].
Qed.

Lemma endsScanning_after (a b : lexer) (r : reply nextState) :
  silent a b -> endsScanning b r -> endsScanning a r.
Proof.
  intros H. pose proof (silent_quiet _ _ H) as Hq.
  destruct r as [[|s|f] l'|e l'|l']; simpl; auto;
    try apply (quiet_trans _ _ _ Hq).
  - intros [K|K]; [left; apply (silent_trans _ _ _ H K)
                  |right; apply (quiet_failed _ _ _ Hq K)].
  - intros [K1 K2]. split; [apply (silent_trans _ _ _ H K1) | assumption].
Qed.

Lemma endsInBlock_endsScanning (l : lexer) (r : reply nextState) :
  endsInBlock l r -> endsScanning l r.
Proof. destruct r as [[|s|f] l'|e l'|l']; simpl; tauto. Qed.

Lemma endsScanning_endsWell (l : lexer) (r : reply nextState) :
  endsScanning l r -> endsWell l r.
Proof.
  destruct r as [[|s|f] l'|e l'|l']; simpl; auto.
  - intros [K|K]; [left; apply silent_quiet; assumption | right; assumption].
  - intros [K _]. apply silent_quiet; assumption.
Qed.

Lemma inBlock_bind {A} (m : M A) (k : A -> M nextState) :
  keeps quiet m -> (forall a, ends endsInBlock (k a)) -> ends endsInBlock (bind m k).
Proof.
  apply (ends_bind quiet endsInBlock endsInBlock_after); intros; assumption.
Qed.

Lemma well_bind {A} (m : M A) (k : A -> M nextState) :
  keeps quiet m -> (forall a, ends endsWell (k a)) -> ends endsWell (bind m k).
Proof.
  apply (ends_bind quiet endsWell endsWell_after); intros; assumption.
Qed.

Lemma scanning_bind {A} (m : M A) (k : A -> M nextState) :
  keeps silent m -> (forall a, ends endsScanning (k a)) ->
  ends endsScanning (bind m k).
Proof.
  apply (ends_bind silent endsScanning endsScanning_after);
    intros; apply silent_quiet; assumption.
Qed.

Lemma errorf_inBlock (format : gostring) : ends endsInBlock (errorf format).
Proof. intros l. rewrite errorf_run. simpl. apply errorf_failed. Qed.

Lemma errorf_scanning (format : gostring) : ends endsScanning (errorf format).
Proof. intros l. rewrite errorf_run. simpl. right. apply errorf_failed. Qed.

Lemma errorf_well (format : gostring) : ends endsWell (errorf format).
Proof. intros l. rewrite errorf_run. simpl. right. apply errorf_failed. Qed.

Lemma steady_quiet_keeps {A} (m : M A) : keeps steady m -> keeps quiet m.
Proof.
  apply keeps_weaken. intros l l' H. apply silent_quiet, steady_silent, H.
Qed.

Lemma steady_silent_keeps {A} (m : M A) : keeps steady m -> keeps silent m.
Proof. apply keeps_weaken. intros l l' H. apply steady_silent, H. Qed.

Section StateFunctions.

Variable IsLetter IsDigit : rune -> bool.

Ltac quiet_method :=
  first [ solve [apply emit_quiet; discriminate]
        | solve [apply steady_quiet_keeps; auto with steady]
        | solve [apply (keeps_ret quiet quiet_refl)]
        | match goal with
          | |- keeps _ (if ?c then _ else _) => destruct c; quiet_method
          end ].

Ltac in_block :=
  repeat (intros;
          first
            [ apply errorf_inBlock
            | assumption
            | apply inBlock_bind; [quiet_method|]
            | match goal with
              | |- ends _ (if ?c then _ else _) => destruct c
              | |- ends _ (ret (Tail _)) => intros ?; apply quiet_refl
              end ]).

Lemma lexNamespaceFn_over_inBlock (lexBlockFn : M nextState) :
  ends endsInBlock lexBlockFn ->
  ends endsInBlock (lexNamespaceFn_over IsLetter IsDigit lexBlockFn).
Proof. intros H. unfold lexNamespaceFn_over. cbv zeta. in_block. Qed.

Lemma lexBlockFn_over_inBlock (lexNamespaceFn : M nextState) :
  ends endsInBlock lexNamespaceFn ->
  ends endsInBlock (lexBlockFn_over IsLetter IsDigit lexNamespaceFn).
Proof. intros H. unfold lexBlockFn_over. in_block. Qed.

Lemma lexBlockFn_fuel_inBlock (fuel : nat) :
  ends endsInBlock (lexBlockFn_fuel IsLetter IsDigit fuel).
Proof.
  induction fuel as [|fuel IH]; simpl.
  - intros l. apply quiet_refl.
  - apply lexBlockFn_over_inBlock, lexNamespaceFn_over_inBlock, IH.
Qed.

Lemma lexBlockFn_inBlock : ends endsInBlock (lexBlockFn IsLetter IsDigit).
Proof.
  unfold lexBlockFn. intros l. mstep. apply lexBlockFn_fuel_inBlock.
Qed.

Lemma lexNamespaceFn_inBlock : ends endsInBlock (lexNamespaceFn IsLetter IsDigit).
Proof. apply lexNamespaceFn_over_inBlock, lexBlockFn_inBlock. Qed.

Ltac silent_method :=
  first [ solve [apply steady_silent_keeps; auto with steady]
        | solve [apply (keeps_ret silent silent_refl)] ].

Ltac scanning_on :=
  repeat (intros;
          first
            [ apply errorf_scanning
            | assumption
            | apply scanning_bind; [silent_method|]
            | match goal with
              | |- ends _ (if ?c then _ else _) => destruct c
              | |- ends _ (ret Nil) => intros ?; left; apply silent_refl
              | |- ends _ (ret (Next _)) =>
                  intros ?; split; [apply silent_refl | exact I]
              end ]).

Lemma lexLineCommentFn_scanning : ends endsScanning lexLineCommentFn.
Proof. unfold lexLineCommentFn. scanning_on. Qed.

Lemma lexEatLineFn_scanning : ends endsScanning lexEatLineFn.
Proof. unfold lexEatLineFn. scanning_on. Qed.

Lemma lexBlockCommentFn_scanning : ends endsScanning lexBlockCommentFn.
Proof. unfold lexBlockCommentFn. scanning_on. Qed.

Lemma lexRootFn_scanning : ends endsScanning (lexRootFn IsLetter IsDigit).
Proof.
  pose proof lexLineCommentFn_scanning. pose proof lexEatLineFn_scanning.
  pose proof lexBlockCommentFn_scanning.
  unfold lexRootFn. scanning_on.
  intros l. apply endsInBlock_endsScanning. revert l.
  apply inBlock_bind; [quiet_method|]. intros _. apply lexNamespaceFn_inBlock.
Qed.

End StateFunctions.

(** ** [lexSymbolFn] and [lexSpaceFn] *)

Lemma index_inv (s : gostring) (i : Z) (c : byte) :
  index s i = Ok c -> 0 <= i < len s /\ byteAt s (Z.to_nat i) = u8 c.
Proof.
  unfold index. destruct (Z.leb_spec 0 i); [|discriminate].
  destruct (Z.ltb_spec i (len s)); [|discriminate].
  simpl. intros [= <-]. split; [lia | reflexivity].
Qed.

Lemma index_panic (s : gostring) (i : Z) (e : runtimeError) :
  index s i = Panic e -> e = IndexOutOfRange /\ (i < 0 \/ len s <= i).
Proof.
  unfold index. destruct (Z.leb_spec 0 i); [|intros [= <-]; auto].
  destruct (Z.ltb_spec i (len s)); [discriminate|].
  simpl. intros [= <-]. auto.
Qed.

Lemma boundary_single (s : gostring) (p : Z) :
  boundary s p -> p < len s -> byteAt s (Z.to_nat p) < 0xC2 ->
  boundary s (p + 1).
Proof.
  intros Hb Hlt Hlo. pose proof (boundary_range s p Hb) as Hr.
  assert (E : widthAt s p = 1).
  { pose proof (decode_inv _ _ _ (decode_at s p)) as H.
    pose proof (skipn_nonempty s p (conj (proj1 Hr) Hlt)).
    rewrite byteAt_skipn, Nat.add_0_r in H.
    destruct H as [[? _]|[(_ & ? & _)|[(_ & ? & _)|(_ & _ & ? & _)]]];
      solve [contradiction | lia]. }
  rewrite <- E. apply boundary_next; assumption.
Qed.

Lemma step_byte_silent (l : lexer) (c : byte) :
  index (input l) (pos l) = Ok c -> u8 c < 0xC2 ->
  silent l (set_pos (pos l + 1) l).
Proof.
  intros Hi Hc. apply index_inv in Hi. destruct Hi as [Hr Hb].
  unfold silent. simpl. splits; auto.
  intros [Hbd He]. unfold wellFormed. simpl. split.
  - apply boundary_single; [assumption | lia | lia].
  - intros E. apply He in E. lia.
Qed.

Lemma lexSymbolFn_well : ends endsWell lexSymbolFn.
Proof.
  intros l. unfold lexSymbolFn. mstep.
  destruct (index (input l) (pos l)) as [c|e] eqn:Hi; mstep;
    [|apply quiet_refl].
  assert (Hsym : forall t, t <> itemError -> t <> itemEOF -> u8 c < 0xC2 ->
            endsWell l ((modify (set_pos (pos l + 1));; emit t;; ret (Next LexRootFn)) l)).
  { intros t H1 H2 Hc. mstep.
    pose proof (step_byte_silent l c Hi Hc) as Hs. apply silent_quiet in Hs.
    apply (endsWell_after _ _ _ Hs).
    revert Hs. generalize (set_pos (pos l + 1) l). intros l1 _. revert l1.
    apply well_bind; [apply emit_quiet; assumption|].
    intros _ l1. apply quiet_refl. }
  repeat match goal with
         | |- context [u8 c =? ?n] => destruct (Z.eqb_spec (u8 c) n)
         end;
    try (apply Hsym; [discriminate | discriminate | lia]).
  apply errorf_well.
Qed.

Lemma IsSpace_byte (b : Z) :
  0 <= b < 256 -> unicode.IsSpace b = true -> b < 0xC2.
Proof.
  intros Hb. unfold unicode.IsSpace.
  destruct (Z.leb_spec 0 b); [|lia]. destruct (Z.leb_spec b 255); [|lia].
  simpl. lia.
Qed.

Lemma bind_lexer_eof {B} (k : bool -> M B) (l : lexer) :
  bind lexer_eof k l = k (len (input l) <=? pos l) l.
Proof. reflexivity. Qed.

Lemma lexSpaceLoop_silent (fuel : nat) : keeps silent (lexSpaceLoop fuel).
Proof.
  induction fuel as [|fuel IH]; intros l; simpl; [apply silent_refl|].
  mstep. destruct (index (input l) (pos l)) as [c|e] eqn:Hi; mstep;
    [|apply silent_refl].
  rewrite bind_lexer_eof.
  destruct (unicode.IsSpace (u8 c)) eqn:Hsp; simpl; [|apply silent_refl].
  destruct (negb (len (input l) <=? pos l)); [|apply silent_refl].
  mstep. apply (silent_trans _ (set_pos (pos l + 1) l)); [|apply IH].
  apply (step_byte_silent l c Hi). apply IsSpace_byte; [apply u8_range|assumption].
Qed.

Lemma lexSpaceFn_well : ends endsWell lexSpaceFn.
Proof.
  intros l. apply endsScanning_endsWell. revert l. unfold lexSpaceFn.
  apply scanning_bind; [apply (keeps_get silent silent_refl)|]. intros s.
  apply scanning_bind; [apply lexSpaceLoop_silent|]. intros _.
  apply scanning_bind; [apply ignore_silent|]. intros _.
  intros l. split; [apply silent_refl | exact I].
Qed.

(** ** The loop of [run] *)

Section Run.

Variable IsLetter IsDigit : rune -> bool.

Lemma call_scanning (s : stateFn) :
  scanning s -> ends endsScanning (call IsLetter IsDigit s).
Proof.
  destruct s; simpl; intros H; try contradiction.
  - apply lexRootFn_scanning.
  - apply lexLineCommentFn_scanning.
  - apply lexEatLineFn_scanning.
  - apply lexBlockCommentFn_scanning.
Qed.

Lemma call_well (s : stateFn) : ends endsWell (call IsLetter IsDigit s).
Proof.
  destruct s; simpl;
    try apply lexSymbolFn_well; try apply lexSpaceFn_well;
    intros l; apply endsScanning_endsWell; revert l.
  - apply lexRootFn_scanning.
  - apply lexLineCommentFn_scanning.
  - apply lexEatLineFn_scanning.
  - apply lexBlockCommentFn_scanning.
Qed.

Lemma runFrom_well (fuel : nat) (s : stateFn) (l : lexer) :
  runsWell l (runFrom IsLetter IsDigit fuel s l).
Proof.
  revert s l; induction fuel as [|fuel IH]; intros s l; simpl.
  - apply quiet_refl.
  - pose proof (call_well s l) as H.
    destruct (call IsLetter IsDigit s l) as [[|s'|f] l'|e l'|l']; simpl in *; auto.
    specialize (IH s' l').
    destruct (runFrom IsLetter IsDigit fuel s' l'); simpl in *;
      try (apply (quiet_trans _ _ _ H IH)).
    destruct IH as [K|K]; [left; apply (quiet_trans _ _ _ H K)
                          |right; apply (quiet_failed _ _ _ H K)].
Qed.

Lemma runFrom_scanning (fuel : nat) (s : stateFn) (l : lexer) :
  scanning s -> runsScanning l (runFrom IsLetter IsDigit fuel s l).
Proof.
  revert s l; induction fuel as [|fuel IH]; intros s l Hs; simpl.
  - apply quiet_refl.
  - pose proof (call_scanning s Hs l) as H.
    destruct (call IsLetter IsDigit s l) as [[|s'|f] l'|e l'|l']; simpl in *; auto.
    destruct H as [H Hs']. specialize (IH s' l' Hs').
    pose proof (silent_quiet _ _ H) as Hq.
    destruct (runFrom IsLetter IsDigit fuel s' l'); simpl in *;
      try (apply (quiet_trans _ _ _ Hq IH)).
    destruct IH as [K|K]; [left; apply (silent_trans _ _ _ H K)
                          |right; apply (quiet_failed _ _ _ Hq K)].
Qed.

End Run.

(** ** [acceptString] and [acceptKeyword] on the keywords of the source *)

Lemma u8_inj (a b : byte) : u8 a = u8 b -> a = b.
Proof.
  unfold u8. intros H. apply N2Z.inj in H.
  pose proof (Byte.of_to_N a) as Ha. rewrite H, Byte.of_to_N in Ha.
  congruence.
Qed.

Lemma skipn_cons_nth (s : gostring) (p : Z) :
  0 <= p < len s ->
  skipn (Z.to_nat p) s = nth (Z.to_nat p) s x00 :: skipn (Z.to_nat (p + 1)) s.
Proof.
  intros Hp. replace (Z.to_nat (p + 1)) with (S (Z.to_nat p)) by lia.
  assert (Hn : (Z.to_nat p < length s)%nat) by (unfold len in Hp; lia).
  revert Hn. generalize (Z.to_nat p). clear Hp p.
  induction s as [|b s IH]; intros n Hn; simpl in Hn; [lia|].
  destruct n as [|n]; [reflexivity|]. simpl. apply IH. lia.
Qed.

Lemma decode_ascii (t : gostring) :
  t <> [] -> byteAt t 0 < utf8.RuneSelf ->
  utf8.DecodeRuneInString t = (byteAt t 0, 1).
Proof.
  intros Hne Hlo. unfold utf8.RuneSelf in Hlo.
  destruct (utf8.DecodeRuneInString t) as [r w] eqn:D.
  destruct (decode_inv _ _ _ D) as [[? _]|[(_ & -> & _ & ->)|[(_ & _ & ? & _)|(_ & _ & ? & _)]]];
    solve [contradiction | reflexivity | lia].
Qed.

(** A rune below [utf8.RuneSelf] is read from the byte of that value. *)
Lemma rune_ascii_inv (s : gostring) (p : Z) :
  0 <= p < len s -> 0 <= runeAt s p < utf8.RuneSelf ->
  byteAt s (Z.to_nat p) = runeAt s p /\ widthAt s p = 1.
Proof.
  intros Hp Hr. unfold utf8.RuneSelf in Hr.
  pose proof (decode_inv _ _ _ (decode_at s p)) as H.
  pose proof (skipn_nonempty s p Hp).
  rewrite byteAt_skipn, Nat.add_0_r in H. unfold utf8.RuneError in H.
  destruct H as [[? _]|[(_ & ? & _ & ?)|[(_ & _ & _ & ?)|(_ & _ & _ & ? & _)]]];
    solve [contradiction | auto | lia].
Qed.

Lemma rune_of_ascii_byte (s : gostring) (p : Z) :
  0 <= p < len s -> byteAt s (Z.to_nat p) < utf8.RuneSelf ->
  runeAt s p = byteAt s (Z.to_nat p) /\ widthAt s p = 1.
Proof.
  intros Hp Hb. unfold runeAt, widthAt.
  rewrite decode_ascii; rewrite ?byteAt_skipn, ?Nat.add_0_r; auto.
  apply skipn_nonempty; assumption.
Qed.

Lemma rangeFrom_ascii (k : gostring) :
  asciiString k ->
  forall fuel i, (length k <= fuel)%nat -> rangeFrom fuel i k = asciiSteps i k.
Proof.
  induction 1 as [|b k Hb Hk IH]; intros fuel i Hf.
  - destruct fuel; reflexivity.
  - destruct fuel as [|fuel]; simpl in Hf; [lia|].
    simpl. rewrite decode_ascii by (auto; discriminate).
    change (Z.to_nat 1) with 1%nat. simpl skipn.
    rewrite IH by lia. reflexivity.
Qed.

Lemma rangeString_ascii (k : gostring) :
  asciiString k -> rangeString k = asciiSteps 0 k.
Proof. intros H. unfold rangeString. apply rangeFrom_ascii; auto. Qed.

Lemma backupTimes_wellFormed (n : nat) (l : lexer) :
  wellFormed l ->
  exists l', backupTimes n l = Return tt l' /\ wellFormed l' /\
             input l' = input l.
Proof.
  revert l; induction n as [|n IH]; intros l Hwf; simpl.
  - exists l. auto.
  - destruct (backup_wellFormed l Hwf) as (l1 & E1 & Hwf1 & _).
    pose proof (backup_steady l) as Hs. rewrite E1 in Hs. simpl in Hs.
    destruct Hs as (Hin & _).
    destruct (IH l1 Hwf1) as (l' & E' & Hwf' & Hin').
    exists l'. rewrite (bind_return _ _ _ _ _ E1). splits; auto. congruence.
Qed.

(** [acceptString] tells whether the input at [pos] begins with the keyword;
    when it does, [pos] ends just behind the keyword. *)
Lemma acceptStringLoop_ascii (k : gostring) :
  asciiString k ->
  forall i l, wellFormed l ->
  exists l',
    acceptStringLoop (asciiSteps i k) l
    = Return (strings.HasPrefix (skipn (Z.to_nat (pos l)) (input l)) k) l' /\
    wellFormed l' /\ input l' = input l /\
    (strings.HasPrefix (skipn (Z.to_nat (pos l)) (input l)) k = true ->
     pos l' = pos l + len k).
Proof.
  induction 1 as [|c k Hc Hk IH]; intros i l Hwf.
  - exists l. simpl. splits; auto. intros _. change (len []) with 0. lia.
  - pose proof (wellFormed_range l Hwf) as Hr. pose proof (u8_range c) as Hc8.
    cbn [asciiSteps acceptStringLoop].
    destruct (Z.le_gt_cases (len (input l)) (pos l)) as [Hend|Hin].
    + (* at the end of the input *)
      rewrite (bind_return _ _ _ _ _ (next_at_end l Hend)).
      destruct (Z.eqb_spec eof (u8 c)) as [E|_]; [unfold eof in E; lia|].
      cbn [negb].
      assert (Hwf1 : wellFormed (set_atEOF true l)).
      { destruct Hwf as [Hb _]. split; simpl; auto. }
      destruct (backupTimes_wellFormed (Z.to_nat i) _ Hwf1) as (l' & E' & Hwf' & Hin').
      unfold backupMultiple. rewrite (bind_return _ _ _ _ _ E'). mstep.
      assert (Hs : skipn (Z.to_nat (pos l)) (input l) = []).
      { apply skipn_all2. unfold len in Hend. lia. }
      rewrite Hs. simpl. exists l'. splits; auto. discriminate.
    + rewrite (bind_return _ _ _ _ _ (next_inside l (conj (proj1 Hr) Hin))).
      rewrite (skipn_cons_nth (input l) (pos l)) by lia.
      cbn [strings.HasPrefix].
      destruct (Z.eqb_spec (runeAt (input l) (pos l)) (u8 c)) as [E|E]; cbn [negb].
      * (* the rune is the next one of the keyword *)
        destruct (rune_ascii_inv (input l) (pos l)) as [Hb Hw]; [lia| |].
        { rewrite E. unfold utf8.RuneSelf in *. lia. }
        unfold byteAt in Hb. rewrite E in Hb. apply u8_inj in Hb.
        rewrite Hb, (Byte.byte_dec_lb eq_refl). cbn [andb].
        assert (Hadv : input (advance l) = input l /\ pos (advance l) = pos l + 1).
        { unfold advance. rewrite Hw. destruct (_ =? 10); auto. }
        destruct Hadv as [Hain Hapos].
        destruct (IH (i + 1) (advance l) (wellFormed_advance l Hwf Hin))
          as (l' & E' & Hwf' & Hin' & Hpos').
        rewrite Hain, Hapos in E', Hpos'.
        exists l'. splits; auto; try congruence.
        intros Hp. rewrite (Hpos' Hp). unfold len. simpl length. lia.
      * (* a different rune *)
        destruct (backupTimes_wellFormed (Z.to_nat i) _ (wellFormed_advance l Hwf Hin))
          as (l' & E' & Hwf' & Hin').
        unfold backupMultiple. rewrite (bind_return _ _ _ _ _ E'). mstep.
        assert (Hne : Byte.eqb (nth (Z.to_nat (pos l)) (input l) x00) c = false).
        { destruct (Byte.eqb _ c) eqn:Eb; [|reflexivity].
          apply Byte.byte_dec_bl in Eb. exfalso. apply E.
          destruct (rune_of_ascii_byte (input l) (pos l)) as [Hrn _]; [lia| |].
          - unfold byteAt. rewrite Eb. assumption.
          - rewrite Hrn. unfold byteAt. rewrite Eb. reflexivity. }
        rewrite Hne. cbn [andb]. exists l'. splits; auto.
        { rewrite Hin'. unfold advance. destruct (_ =? 10); reflexivity. }
        discriminate.
Qed.

Lemma acceptString_ascii (k : gostring) (l : lexer) :
  asciiString k -> wellFormed l ->
  exists l',
    acceptString k l
    = Return (strings.HasPrefix (skipn (Z.to_nat (pos l)) (input l)) k) l' /\
    wellFormed l' /\ input l' = input l /\
    (strings.HasPrefix (skipn (Z.to_nat (pos l)) (input l)) k = true ->
     pos l' = pos l + len k).
Proof.
  intros Hk Hwf. unfold acceptString. rewrite rangeString_ascii by assumption.
  apply acceptStringLoop_ascii; assumption.
Qed.

Section Keyword.

Variable IsLetter IsDigit : rune -> bool.

Lemma acceptAlphaNumeric_inside (l : lexer) :
  wellFormed l -> pos l < len (input l) ->
  acceptAlphaNumeric IsLetter IsDigit l =
  if isAlphaNumeric IsLetter IsDigit (runeAt (input l) (pos l))
  then Return true (advance l)
  else Return false l.
Proof.
  intros Hwf Hlt. pose proof (wellFormed_range l Hwf) as Hr.
  unfold acceptAlphaNumeric.
  rewrite (bind_return _ _ _ _ _ (next_inside l (conj (proj1 Hr) Hlt))).
  destruct (isAlphaNumeric _ _ _); [reflexivity|].
  rewrite (bind_return _ _ _ _ _ (backup_advance l Hwf Hlt)). reflexivity.
Qed.

End Keyword.

(** ** Reading within the bounds of the input *)

Lemma checked_ret {A} (a : A) : boundsChecked (ret a).
Proof. intros l l'. discriminate. Qed.

Lemma checked_get {A} (f : lexer -> A) : boundsChecked (get f).
Proof. intros l l'. discriminate. Qed.

Lemma checked_modify (f : lexer -> lexer) : boundsChecked (modify f).
Proof. intros l l'. discriminate. Qed.

Lemma checked_diverge {A} : boundsChecked (@diverge A).
Proof. intros l l'. discriminate. Qed.

Lemma checked_slice (s : gostring) (lo hi : Z) : boundsChecked (lift (slice s lo hi)).
Proof.
  intros l l'. unfold lift, slice.
  destruct (_ && _); discriminate.
Qed.

Lemma checked_bind {A B} (m : M A) (k : A -> M B) :
  boundsChecked m -> (forall a, boundsChecked (k a)) -> boundsChecked (bind m k).
Proof.
  intros Hm Hk l l'. unfold bind. specialize (Hm l).
  destruct (m l) as [a l1|e l1|l1]; [apply Hk| |discriminate].
  intros [= -> ->]. apply (Hm l'). reflexivity.
Qed.

Create HintDb checked.
#[export] Hint Resolve checked_slice checked_modify : checked.

Ltac bounds_checked :=
  repeat (intros;
          first
            [ apply checked_ret
            | apply checked_get
            | apply checked_diverge
            | solve [auto with checked]
            | apply checked_bind
            | match goal with
              | |- boundsChecked (if ?c then _ else _) => destruct c
              | |- boundsChecked (let '(_, _) := ?p in _) => destruct p
              end ]).

Lemma next_checked : boundsChecked next.
Proof. unfold next. bounds_checked. Qed.
#[export] Hint Resolve next_checked : checked.

Lemma backup_checked : boundsChecked backup.
Proof. unfold backup. bounds_checked. Qed.
#[export] Hint Resolve backup_checked : checked.

Lemma backupTimes_checked (n : nat) : boundsChecked (backupTimes n).
Proof. induction n; simpl; bounds_checked. Qed.
#[export] Hint Resolve backupTimes_checked : checked.

Lemma backupMultiple_checked (count : Z) : boundsChecked (backupMultiple count).
Proof. unfold backupMultiple. bounds_checked. Qed.
#[export] Hint Resolve backupMultiple_checked : checked.

Lemma emit_checked (t : itemType) : boundsChecked (emit t).
Proof. unfold emit, send. bounds_checked. Qed.
#[export] Hint Resolve emit_checked : checked.

Lemma errorf_checked (format : gostring) : boundsChecked (errorf format).
Proof. unfold errorf, send. bounds_checked. Qed.
#[export] Hint Resolve errorf_checked : checked.

Lemma accept_checked (valid : gostring) : boundsChecked (accept valid).
Proof. unfold accept. bounds_checked. Qed.
#[export] Hint Resolve accept_checked : checked.

Lemma acceptRunLoop_checked (fuel : nat) (valid : gostring) :
  boundsChecked (acceptRunLoop fuel valid).
Proof. induction fuel; simpl; bounds_checked. Qed.
#[export] Hint Resolve acceptRunLoop_checked : checked.

Lemma acceptRun_checked (valid : gostring) : boundsChecked (acceptRun valid).
Proof. unfold acceptRun. bounds_checked. Qed.
#[export] Hint Resolve acceptRun_checked : checked.

Lemma acceptSpace_checked : boundsChecked acceptSpace.
Proof. unfold acceptSpace. bounds_checked. Qed.
#[export] Hint Resolve acceptSpace_checked : checked.

Lemma acceptRune_checked (expected : rune) : boundsChecked (acceptRune expected).
Proof. unfold acceptRune. bounds_checked. Qed.
#[export] Hint Resolve acceptRune_checked : checked.

Lemma acceptStringLoop_checked (steps : list (Z * rune)) :
  boundsChecked (acceptStringLoop steps).
Proof. induction steps as [|[i c] steps IH]; simpl; bounds_checked. Qed.
#[export] Hint Resolve acceptStringLoop_checked : checked.

Lemma acceptString_checked (s : gostring) : boundsChecked (acceptString s).
Proof. unfold acceptString. bounds_checked. Qed.
#[export] Hint Resolve acceptString_checked : checked.

Lemma lexer_eof_checked : boundsChecked lexer_eof.
Proof. unfold lexer_eof. bounds_checked. Qed.
#[export] Hint Resolve lexer_eof_checked : checked.

Lemma lexLineCommentFn_checked : boundsChecked lexLineCommentFn.
Proof. unfold lexLineCommentFn. bounds_checked. Qed.

Lemma lexEatLineFn_checked : boundsChecked lexEatLineFn.
Proof. unfold lexEatLineFn. bounds_checked. Qed.

Lemma lexBlockCommentFn_checked : boundsChecked lexBlockCommentFn.
Proof. unfold lexBlockCommentFn. bounds_checked. Qed.
#[export] Hint Resolve lexLineCommentFn_checked lexEatLineFn_checked
  lexBlockCommentFn_checked : checked.

Section CheckedOverTables.

Variable IsLetter IsDigit : rune -> bool.

Lemma acceptAlphaNumeric_checked : boundsChecked (acceptAlphaNumeric IsLetter IsDigit).
Proof. unfold acceptAlphaNumeric. bounds_checked. Qed.

Lemma acceptIdentifierLoop_checked (fuel : nat) :
  boundsChecked (acceptIdentifierLoop IsLetter IsDigit fuel).
Proof. induction fuel; simpl; bounds_checked. Qed.

Lemma acceptIdentifier_checked : boundsChecked (acceptIdentifier IsLetter IsDigit).
Proof.
  unfold acceptIdentifier. pose proof acceptIdentifierLoop_checked. bounds_checked.
Qed.

Lemma acceptKeyword_checked (k : gostring) :
  boundsChecked (acceptKeyword IsLetter IsDigit k).
Proof.
  unfold acceptKeyword. pose proof acceptAlphaNumeric_checked. bounds_checked.
Qed.

Lemma lexNamespaceFn_over_checked (lexBlockFn : M nextState) :
  boundsChecked lexBlockFn ->
  boundsChecked (lexNamespaceFn_over IsLetter IsDigit lexBlockFn).
Proof.
  intros H. pose proof acceptIdentifier_checked.
  unfold lexNamespaceFn_over. cbv zeta. bounds_checked.
Qed.

Lemma lexBlockFn_over_checked (lexNamespaceFn : M nextState) :
  boundsChecked lexNamespaceFn ->
  boundsChecked (lexBlockFn_over IsLetter IsDigit lexNamespaceFn).
Proof.
  intros H. pose proof acceptIdentifier_checked. pose proof acceptKeyword_checked.
  unfold lexBlockFn_over. bounds_checked.
Qed.

Lemma lexBlockFn_fuel_checked (fuel : nat) :
  boundsChecked (lexBlockFn_fuel IsLetter IsDigit fuel).
Proof.
  induction fuel as [|fuel IH]; simpl.
  - apply checked_diverge.
  - apply lexBlockFn_over_checked, lexNamespaceFn_over_checked, IH.
Qed.

Lemma lexNamespaceFn_checked : boundsChecked (lexNamespaceFn IsLetter IsDigit).
Proof.
  apply lexNamespaceFn_over_checked. unfold lexBlockFn.
  pose proof lexBlockFn_fuel_checked. bounds_checked.
Qed.

Lemma lexRootFn_checked : boundsChecked (lexRootFn IsLetter IsDigit).
Proof.
  pose proof lexNamespaceFn_checked. pose proof acceptKeyword_checked.
  unfold lexRootFn. bounds_checked.
Qed.

End CheckedOverTables.

(** ** [lexSymbolFn] and [lexSpaceFn] at the end of the input *)

Lemma index_past_end (s : gostring) (p : Z) :
  len s <= p -> index s p = Panic IndexOutOfRange.
Proof.
  intros H. unfold index. destruct (Z.leb_spec 0 p); [|reflexivity].
  destruct (Z.ltb_spec p (len s)); [lia | reflexivity].
Qed.

Lemma index_inside (s : gostring) (p : Z) :
  0 <= p < len s -> index s p = Ok (nth (Z.to_nat p) s x00).
Proof.
  intros H. unfold index. destruct (Z.leb_spec 0 p); [|lia].
  destruct (Z.ltb_spec p (len s)); [reflexivity | lia].
Qed.

Lemma lexSymbolFn_past_end (l : lexer) :
  len (input l) <= pos l -> lexSymbolFn l = Panicked IndexOutOfRange l.
Proof.
  intros H. unfold lexSymbolFn. mstep. rewrite index_past_end by assumption.
  reflexivity.
Qed.

Lemma lexSymbolFn_inside (l : lexer) :
  0 <= start l <= pos l -> pos l < len (input l) ->
  exists s l', lexSymbolFn l = Return s l'.
Proof.
  intros Hs Hp. unfold lexSymbolFn. mstep. rewrite index_inside by lia. mstep.
  assert (Hsym : forall t, exists s l',
            (modify (set_pos (pos l + 1));; emit t;; ret (Next LexRootFn)) l
            = Return s l').
  { intros t. mstep.
    assert (E : exists l1, emit t (set_pos (pos l + 1) l) = Return tt l1).
    { rewrite emit_run. simpl. rewrite slice_ok by lia. eauto. }
    destruct E as [l1 E]. rewrite (bind_return _ _ _ _ _ E). eauto. }
  repeat match goal with
         | |- context [u8 ?c =? ?n] => destruct (Z.eqb_spec (u8 c) n)
         end; try apply Hsym.
  rewrite errorf_run. eauto.
Qed.

Lemma onlySpaceAhead_dec (l : lexer) : {onlySpaceAhead l} + {~ onlySpaceAhead l}.
Proof.
  unfold onlySpaceAhead. apply Forall_dec. intros b. apply bool_dec.
Qed.

Lemma lexSpaceLoop_run (fuel : nat) :
  forall l, 0 <= pos l -> (Z.to_nat (len (input l) - pos l) < fuel)%nat ->
  (onlySpaceAhead l -> exists l', lexSpaceLoop fuel l = Panicked IndexOutOfRange l') /\
  (~ onlySpaceAhead l ->
   exists l', lexSpaceLoop fuel l = Return tt l' /\
              pos l <= pos l' <= len (input l) /\
              start l' = start l /\ input l' = input l).
Proof.
  induction fuel as [|fuel IH]; intros l Hp Hf; [lia|].
  simpl. mstep.
  destruct (Z.le_gt_cases (len (input l)) (pos l)) as [Hend|Hin].
  - rewrite index_past_end by assumption. mstep. split; [eauto|].
    intros Hn. exfalso. apply Hn. unfold onlySpaceAhead.
    rewrite skipn_all2 by (unfold len in Hend; lia). constructor.
  - rewrite index_inside by lia. mstep. rewrite bind_lexer_eof.
    destruct (Z.leb_spec (len (input l)) (pos l)); [lia|].
    unfold onlySpaceAhead. rewrite (skipn_cons_nth (input l) (pos l)) by lia.
    destruct (unicode.IsSpace (u8 (nth (Z.to_nat (pos l)) (input l) x00))) eqn:Hsp;
      cbn [negb andb].
    + mstep. destruct (IH (set_pos (pos l + 1) l)) as [IH1 IH2]; simpl; try lia.
      unfold onlySpaceAhead in IH1, IH2. simpl in IH1, IH2. split.
      * intros Hall. apply IH1. inversion Hall; assumption.
      * intros Hn. destruct IH2 as (l' & E & Hr & Hs & Hi).
        { intros Hall. apply Hn. constructor; assumption. }
        exists l'. splits; auto; lia.
    + split.
      * intros Hall. inversion Hall; congruence.
      * intros _. exists l. splits; auto; lia.
Qed.

Lemma lexSpaceFn_run (l : lexer) :
  0 <= start l <= pos l ->
  (onlySpaceAhead l -> exists l', lexSpaceFn l = Panicked IndexOutOfRange l') /\
  (~ onlySpaceAhead l -> exists l', lexSpaceFn l = Return (Next LexRootFn) l').
Proof.
  intros Hs. unfold lexSpaceFn. mstep.
  destruct (lexSpaceLoop_run (S (length (input l))) l) as [H1 H2];
    [lia | unfold len; lia |].
  split.
  - intros Hall. destruct (H1 Hall) as (l' & E). exists l'.
    unfold bind. rewrite E. reflexivity.
  - intros Hn. destruct (H2 Hn) as (l' & E & Hr & Hst & Hin).
    rewrite (bind_return _ _ _ _ _ E).
    unfold ignore. mstep.
    rewrite Hin, Hst, slice_ok by lia. mstep. eauto.
Qed.

(** ** The states the scanner reaches *)

Lemma wellFormed_lex (name input : gostring) : wellFormed (lex name input).
Proof. split; simpl; [constructor | discriminate]. Qed.

Lemma quiet_wellFormed (l l' : lexer) : quiet l l' -> wellFormed l -> wellFormed l'.
Proof. intros (_ & _ & H). exact H. Qed.

Lemma failed_wellFormed (l l' : lexer) : failed l l' -> wellFormed l -> wellFormed l'.
Proof. intros (_ & _ & H). exact H. Qed.


(** ** The loops inside the methods have fuel enough *)

(** When the first rune differs, [acceptString] steps back over no rune and
    leaves the scanner one rune further. *)
Lemma acceptString_eats_a_rune (k : gostring) (l : lexer) :
  k <> [] -> 0 <= pos l < len (input l) ->
  runeAt (input l) (pos l) <> fst (utf8.DecodeRuneInString k) ->
  acceptString k l = Return false (advance l).
Proof.
  intros Hk Hp Hne. destruct k as [|b k]; [contradiction|].
  unfold acceptString, rangeString. cbn [length rangeFrom].
  destruct (utf8.DecodeRuneInString (b :: k)) as [c w]. simpl in Hne.
  cbn [acceptStringLoop].
  rewrite (bind_return _ _ _ _ _ (next_inside l Hp)).
  destruct (Z.eqb_spec (runeAt (input l) (pos l)) c); [contradiction|].
  reflexivity.
Qed.

Lemma ContainsRune_eof (valid : gostring) : strings.ContainsRune valid eof = false.
Proof. reflexivity. Qed.

Lemma wellFormed_atEOF (l : lexer) :
  wellFormed l -> len (input l) <= pos l -> wellFormed (set_atEOF true l).
Proof. intros [Hb _] He. split; simpl; auto. Qed.

(** What [next] does in a state the scanner reaches. *)
Lemma next_wellFormed (l : lexer) :
  wellFormed l ->
  (len (input l) <= pos l /\ next l = Return eof (set_atEOF true l)) \/
  (pos l < len (input l) /\
   next l = Return (runeAt (input l) (pos l)) (advance l) /\
   wellFormed (advance l) /\ input (advance l) = input l /\
   pos l < pos (advance l)).
Proof.
  intros Hwf. pose proof (wellFormed_range l Hwf) as Hr.
  destruct (Z.le_gt_cases (len (input l)) (pos l)) as [Hend|Hin].
  - left. split; [assumption | apply next_at_end; assumption].
  - right. pose proof (widthAt_bounds (input l) (pos l) (conj (proj1 Hr) Hin)).
    split; [assumption|]. split; [apply next_inside; lia|].
    split; [apply wellFormed_advance; assumption|].
    unfold advance. destruct (_ =? 10); simpl; split; auto; lia.
Qed.

(** The amount of input left. *)
Lemma rest_advance (l : lexer) :
  wellFormed l -> pos l < len (input l) ->
  (Z.to_nat (len (input (advance l)) - pos (advance l))
   < Z.to_nat (len (input l) - pos l))%nat.
Proof.
  intros Hwf Hlt. destruct (next_wellFormed l Hwf) as [[? _]|(_ & _ & Hw & Hi & Hp)]; [lia|].
  pose proof (wellFormed_range _ Hw). rewrite Hi in *. lia.
Qed.

(** A loop that reads runes while they pass a test, followed by [backup],
    returns and leaves [pos] at or behind where it was. *)
Lemma acceptRunLoop_backup (valid : gostring) (fuel : nat) :
  forall l, wellFormed l ->
  (Z.to_nat (len (input l) - pos l) < fuel)%nat ->
  exists l', (acceptRunLoop fuel valid;; backup) l = Return tt l' /\
             wellFormed l' /\ input l' = input l /\ pos l <= pos l'.
Proof.
  induction fuel as [|fuel IH]; intros l Hwf Hf; [lia|].
  cbn [acceptRunLoop]. rewrite bind_assoc.
  destruct (next_wellFormed l Hwf) as [[Hend E]|(Hin & E & Hw & Hi & Hp)];
    rewrite (bind_return _ _ _ _ _ E).
  - rewrite ContainsRune_eof. mstep. rewrite backup_idle by (left; reflexivity).
    exists (set_atEOF true l). split; [reflexivity|].
    split; [apply wellFormed_atEOF; assumption|]. simpl. split; [reflexivity|lia].
  - destruct (strings.ContainsRune valid _).
    + destruct (IH (advance l) Hw) as (l' & E' & Hw' & Hi' & Hp').
      { pose proof (rest_advance l Hwf Hin). lia. }
      exists l'. split; [exact E'|]. split; [assumption|].
      split; [congruence | lia].
    + mstep. rewrite backup_advance by assumption.
      exists l. split; [reflexivity|]. split; [assumption|]. split; [reflexivity|lia].
Qed.

Lemma acceptRun_returns (valid : gostring) (l : lexer) :
  wellFormed l ->
  exists l', acceptRun valid l = Return tt l' /\
             wellFormed l' /\ input l' = input l /\ pos l <= pos l'.
Proof.
  intros Hwf. unfold acceptRun. mstep.
  apply acceptRunLoop_backup; [assumption|].
  pose proof (wellFormed_range l Hwf). unfold len in *. lia.
Qed.

Lemma acceptRune_returns (expected : rune) (l : lexer) :
  wellFormed l ->
  exists b l', acceptRune expected l = Return b l' /\
               wellFormed l' /\ input l' = input l /\
               pos l <= pos l' /\ (b = true -> expected <> eof -> pos l < pos l').
Proof.
  intros Hwf. unfold acceptRune.
  destruct (next_wellFormed l Hwf) as [[Hend E]|(Hin & E & Hw & Hi & Hp)];
    rewrite (bind_return _ _ _ _ _ E).
  - destruct (Z.eqb_spec eof expected) as [Ee|Ee].
    + exists true, (set_atEOF true l). split; [reflexivity|].
      split; [apply wellFormed_atEOF; assumption|]. simpl.
      split; [reflexivity|]. split; [lia|]. intros _ Hn. congruence.
    + rewrite (bind_return _ _ _ _ _ (backup_idle (set_atEOF true l) (or_introl eq_refl))).
      exists false, (set_atEOF true l). split; [reflexivity|].
      split; [apply wellFormed_atEOF; assumption|]. simpl.
      split; [reflexivity|]. split; [lia|discriminate].
  - destruct (_ =? expected).
    + exists true, (advance l). split; [reflexivity|].
      split; [assumption|]. split; [assumption|]. split; lia.
    + rewrite (bind_return _ _ _ _ _ (backup_advance l Hwf Hin)).
      exists false, l. split; [reflexivity|]. split; [assumption|].
      split; [reflexivity|]. split; [lia|discriminate].
Qed.

Section Fuel.

Variable IsLetter IsDigit : rune -> bool.
Hypothesis tables : unicodeTables IsLetter IsDigit.

Lemma isAlphaNumeric_eof : isAlphaNumeric IsLetter IsDigit eof = false.
Proof.
  destruct tables as [HL HD]. unfold isAlphaNumeric.
  rewrite HL, HD by (unfold eof, utf8.RuneSelf; lia). reflexivity.
Qed.

Lemma IsLetter_eof : IsLetter eof = false.
Proof.
  destruct tables as [HL _]. rewrite HL by (unfold eof, utf8.RuneSelf; lia).
  reflexivity.
Qed.

Lemma acceptIdentifierLoop_backup (fuel : nat) :
  forall l, wellFormed l ->
  (Z.to_nat (len (input l) - pos l) < fuel)%nat ->
  exists l', (acceptIdentifierLoop IsLetter IsDigit fuel;; backup) l = Return tt l' /\
             wellFormed l' /\ input l' = input l /\ pos l <= pos l'.
Proof.
  induction fuel as [|fuel IH]; intros l Hwf Hf; [lia|].
  cbn [acceptIdentifierLoop]. rewrite bind_assoc.
  destruct (next_wellFormed l Hwf) as [[Hend E]|(Hin & E & Hw & Hi & Hp)];
    rewrite (bind_return _ _ _ _ _ E).
  - rewrite isAlphaNumeric_eof. mstep. rewrite backup_idle by (left; reflexivity).
    exists (set_atEOF true l). split; [reflexivity|].
    split; [apply wellFormed_atEOF; assumption|]. simpl. split; [reflexivity|lia].
  - destruct (isAlphaNumeric IsLetter IsDigit _).
    + destruct (IH (advance l) Hw) as (l' & E' & Hw' & Hi' & Hp').
      { pose proof (rest_advance l Hwf Hin). lia. }
      exists l'. split; [exact E'|]. split; [assumption|].
      split; [congruence | lia].
    + mstep. rewrite backup_advance by assumption.
      exists l. split; [reflexivity|]. split; [assumption|]. split; [reflexivity|lia].
Qed.

Lemma acceptIdentifier_returns (l : lexer) :
  wellFormed l ->
  exists b l', acceptIdentifier IsLetter IsDigit l = Return b l' /\
               wellFormed l' /\ input l' = input l /\ pos l <= pos l'.
Proof.
  intros Hwf. unfold acceptIdentifier.
  destruct (next_wellFormed l Hwf) as [[Hend E]|(Hin & E & Hw & Hi & Hp)];
    rewrite (bind_return _ _ _ _ _ E).
  - rewrite IsLetter_eof. change (eof =? 95) with false. cbn [negb andb].
    rewrite (bind_return _ _ _ _ _ (backup_idle (set_atEOF true l) (or_introl eq_refl))).
    exists false, (set_atEOF true l). split; [reflexivity|].
    split; [apply wellFormed_atEOF; assumption|]. simpl. split; [reflexivity|lia].
  - destruct (negb (_ =? 95) && negb (IsLetter _)).
    + rewrite (bind_return _ _ _ _ _ (backup_advance l Hwf Hin)).
      exists false, l. split; [reflexivity|]. split; [assumption|].
      split; [reflexivity|lia].
    + mstep.
      destruct (acceptIdentifierLoop_backup (S (length (input (advance l)))) (advance l) Hw)
        as (l' & E' & Hw' & Hi' & Hp').
      { pose proof (wellFormed_range _ Hw). unfold len in *. lia. }
      rewrite <- bind_assoc. rewrite (bind_return _ _ _ _ _ E').
      exists true, l'. split; [reflexivity|]. split; [assumption|].
      split; [congruence | lia].
Qed.

End Fuel.

(** [acceptKeyword] on a keyword of the source, in a state the scanner
    reaches. *)
Lemma acceptKeyword_ascii (IsLetter IsDigit : rune -> bool) (k : gostring) (l : lexer) :
  asciiString k -> wellFormed l ->
  exists b l',
    acceptKeyword IsLetter IsDigit k l = Return b l' /\
    wellFormed l' /\ input l' = input l /\
    (b = true <->
       strings.HasPrefix (skipn (Z.to_nat (pos l)) (input l)) k = true /\
       (pos l + len k < len (input l) ->
        isAlphaNumeric IsLetter IsDigit (runeAt (input l) (pos l + len k)) = false)) /\
    (b = true -> pos l' = pos l + len k).
Proof.
  intros Hk Hwf. unfold acceptKeyword. mstep.
  destruct (acceptString_ascii k l Hk Hwf) as (l1 & E1 & Hwf1 & Hin1 & Hpos1).
  rewrite (bind_return _ _ _ _ _ E1).
  destruct (strings.HasPrefix _ k) eqn:Hp; cbn [negb].
  2: { exists false, l1. split; [reflexivity|]. split; [assumption|].
       split; [assumption|]. split; [|discriminate].
       split; [discriminate | intros [? _]; discriminate]. }
  specialize (Hpos1 eq_refl). rewrite bind_lexer_eof, Hin1, Hpos1.
  destruct (Z.leb_spec (len (input l)) (pos l + len k)) as [Hend|Hmore].
  { exists true, l1. split; [reflexivity|]. split; [assumption|].
    split; [assumption|]. split; [|auto].
    split; auto. intros _. split; [reflexivity | lia]. }
  assert (Hlt1 : pos l1 < len (input l1)) by (rewrite Hin1, Hpos1; assumption).
  pose proof (acceptAlphaNumeric_inside IsLetter IsDigit l1 Hwf1 Hlt1) as Ean.
  rewrite Hin1, Hpos1 in Ean.
  destruct (isAlphaNumeric IsLetter IsDigit (runeAt (input l) (pos l + len k))) eqn:Han.
  - (* an alphanumeric rune follows *)
    rewrite (bind_return _ _ _ _ _ Ean). mstep.
    destruct (backupTimes_wellFormed (Z.to_nat (pos (advance l1) - pos l)) _
                (wellFormed_advance l1 Hwf1 Hlt1)) as (l2 & E2 & Hwf2 & Hin2).
    unfold backupMultiple. rewrite (bind_return _ _ _ _ _ E2). mstep.
    exists false, l2. split; [reflexivity|]. split; [assumption|].
    split.
    { rewrite Hin2, <- Hin1. unfold advance. destruct (_ =? 10); reflexivity. }
    split; [|discriminate].
    split; [discriminate|]. intros [_ H]. specialize (H Hmore). discriminate.
  - rewrite (bind_return _ _ _ _ _ Ean).
    exists true, l1. split; [reflexivity|]. split; [assumption|].
    split; [assumption|]. split; [|auto]. split; auto.
Qed.

Lemma namespace_is_ascii : asciiString (go "namespace").
Proof. repeat constructor. Qed.

(** ** No loop inside a state function runs out of fuel *)

Lemma fuelled_ret {A} (a : A) : fuelled (ret a).
Proof. intros l l' _. discriminate. Qed.

Lemma fuelled_get {A} (f : lexer -> A) : fuelled (get f).
Proof. intros l l' _. discriminate. Qed.

Lemma fuelled_lift {A} (r : result A) : fuelled (lift r).
Proof. intros l l' _. unfold lift. destruct r; discriminate. Qed.

Lemma fuelled_bind {A B} (m : M A) (k : A -> M B) :
  fuelled m -> keeps quiet m -> (forall a, fuelled (k a)) -> fuelled (bind m k).
Proof.
  intros Hm Hq Hk l l' Hwf. unfold bind.
  specialize (Hm l). specialize (Hq l).
  destruct (m l) as [a l1|e l1|l1]; simpl in Hq.
  - apply Hk. apply (quiet_wellFormed _ _ Hq Hwf).
  - discriminate.
  - exfalso. apply (Hm l1 Hwf). reflexivity.
Qed.

Lemma next_fuelled : fuelled next.
Proof.
  intros l l' Hwf. destruct (next_wellFormed l Hwf) as [[_ E]|(_ & E & _)];
    rewrite E; discriminate.
Qed.

Lemma backup_fuelled : fuelled backup.
Proof.
  intros l l' Hwf. destruct (backup_wellFormed l Hwf) as (l1 & E & _).
  rewrite E. discriminate.
Qed.

Lemma emit_fuelled (t : itemType) : fuelled (emit t).
Proof.
  intros l l' _. rewrite emit_run. destruct (slice _ _ _); discriminate.
Qed.

Lemma errorf_fuelled (format : gostring) : fuelled (errorf format).
Proof. intros l l' _. rewrite errorf_run. discriminate. Qed.

Lemma acceptRun_fuelled (valid : gostring) : fuelled (acceptRun valid).
Proof.
  intros l l' Hwf. destruct (acceptRun_returns valid l Hwf) as (l1 & E & _).
  rewrite E. discriminate.
Qed.

Lemma acceptRune_fuelled (expected : rune) : fuelled (acceptRune expected).
Proof.
  intros l l' Hwf. destruct (acceptRune_returns expected l Hwf) as (b & l1 & E & _).
  rewrite E. discriminate.
Qed.

Lemma backupTimes_fuelled (n : nat) : fuelled (backupTimes n).
Proof.
  intros l l' Hwf. destruct (backupTimes_wellFormed n l Hwf) as (l1 & E & _).
  rewrite E. discriminate.
Qed.

Create HintDb fuelled.
#[export] Hint Resolve next_fuelled backup_fuelled emit_fuelled errorf_fuelled
  acceptRun_fuelled acceptRune_fuelled backupTimes_fuelled : fuelled.

Ltac sends_tokens :=
  first [ solve [apply emit_quiet; discriminate]
        | solve [apply steady_quiet_keeps; auto with steady]
        | solve [apply (keeps_ret quiet quiet_refl)]
        | solve [apply (keeps_get quiet quiet_refl)]
        | match goal with
          | |- keeps _ (if ?c then _ else _) => destruct c; sends_tokens
          end ].

Ltac has_fuel :=
  repeat (intros;
          first
            [ apply fuelled_ret
            | apply fuelled_get
            | apply fuelled_lift
            | solve [auto with fuelled]
            | apply fuelled_bind; [ | sends_tokens | ]
            | match goal with
              | |- fuelled (if ?c then _ else _) => destruct c
              end ]).

Lemma accept_fuelled (valid : gostring) : fuelled (accept valid).
Proof. unfold accept. has_fuel. Qed.

Lemma acceptStringLoop_fuelled (steps : list (Z * rune)) :
  fuelled (acceptStringLoop steps).
Proof.
  induction steps as [|[i c] steps IH]; simpl; has_fuel.
  unfold backupMultiple. has_fuel.
Qed.

Lemma acceptString_fuelled (s : gostring) : fuelled (acceptString s).
Proof. unfold acceptString. apply acceptStringLoop_fuelled. Qed.

Lemma lexer_eof_fuelled : fuelled lexer_eof.
Proof. unfold lexer_eof. has_fuel. Qed.
#[export] Hint Resolve accept_fuelled acceptString_fuelled lexer_eof_fuelled : fuelled.

Lemma lexLineCommentFn_fuelled : fuelled lexLineCommentFn.
Proof. unfold lexLineCommentFn. has_fuel. Qed.

Lemma lexEatLineFn_fuelled : fuelled lexEatLineFn.
Proof. unfold lexEatLineFn. has_fuel. Qed.

Lemma lexBlockCommentFn_fuelled : fuelled lexBlockCommentFn.
Proof. unfold lexBlockCommentFn. has_fuel. Qed.
#[export] Hint Resolve lexLineCommentFn_fuelled lexEatLineFn_fuelled
  lexBlockCommentFn_fuelled : fuelled.

Lemma lexSymbolFn_fuelled : fuelled lexSymbolFn.
Proof.
  intros l l' _. unfold lexSymbolFn. mstep.
  destruct (index (input l) (pos l)) as [c|e]; mstep; [|discriminate].
  assert (Hsym : forall t,
            (modify (set_pos (pos l + 1));; emit t;; ret (Next LexRootFn)) l
            <> OutOfFuel l').
  { intros t. mstep. unfold bind. rewrite emit_run.
    destruct (slice _ _ _); discriminate. }
  repeat match goal with
         | |- context [u8 c =? ?n] => destruct (Z.eqb_spec (u8 c) n)
         end; try apply Hsym.
  rewrite errorf_run. discriminate.
Qed.

Lemma lexSpaceFn_fuelled : fuelled lexSpaceFn.
Proof.
  intros l l' Hwf. pose proof (wellFormed_range l Hwf) as Hr.
  unfold lexSpaceFn. mstep.
  destruct (lexSpaceLoop_run (S (length (input l))) l) as [H1 H2];
    [lia | unfold len; lia |].
  destruct (onlySpaceAhead_dec l) as [Hall|Hn].
  - destruct (H1 Hall) as (l1 & E). unfold bind. rewrite E. discriminate.
  - destruct (H2 Hn) as (l1 & E & _). rewrite (bind_return _ _ _ _ _ E).
    unfold ignore. mstep. destruct (slice _ _ _); mstep; discriminate.
Qed.

Lemma emit_cases (t : itemType) (l : lexer) :
  wellFormed l ->
  (exists e, emit t l = Panicked e l) \/
  (exists l', emit t l = Return tt l' /\ wellFormed l' /\
              input l' = input l /\ pos l' = pos l).
Proof.
  intros [Hb He]. rewrite emit_run. destruct (slice _ _ _) as [v|e].
  - right. eexists. split; [reflexivity|]. simpl. split; [|auto].
    split; simpl; assumption.
  - left. eauto.
Qed.

Section FuelOfStateFunctions.

Variable IsLetter IsDigit : rune -> bool.
Hypothesis tables : unicodeTables IsLetter IsDigit.

Lemma acceptIdentifier_fuelled : fuelled (acceptIdentifier IsLetter IsDigit).
Proof.
  intros l l' Hwf.
  destruct (acceptIdentifier_returns IsLetter IsDigit tables l Hwf) as (b & l1 & E & _).
  rewrite E. discriminate.
Qed.

Lemma acceptAlphaNumeric_fuelled : fuelled (acceptAlphaNumeric IsLetter IsDigit).
Proof. unfold acceptAlphaNumeric. has_fuel. Qed.

Lemma acceptKeyword_fuelled (k : gostring) :
  fuelled (acceptKeyword IsLetter IsDigit k).
Proof.
  pose proof acceptAlphaNumeric_fuelled.
  unfold acceptKeyword, backupMultiple. has_fuel.
Qed.

(** [lexNamespaceFn] calls [lexBlockFn] only after it has read a brace. *)
Lemma lexNamespaceFn_over_fuelled (lexBlockFn : M nextState) (l : lexer) :
  wellFormed l ->
  (forall l1, wellFormed l1 -> input l1 = input l -> pos l < pos l1 ->
              forall l', lexBlockFn l1 <> OutOfFuel l') ->
  forall l', lexNamespaceFn_over IsLetter IsDigit lexBlockFn l <> OutOfFuel l'.
Proof.
  intros Hwf Hrec l'. unfold lexNamespaceFn_over. cbv zeta.
  assert (Hbrace : forall l0, wellFormed l0 -> input l0 = input l -> pos l <= pos l0 ->
            (b <- acceptRune 123;;
             if b then emit itemOpenBrace;; lexBlockFn
             else errorf (go "Badly formed namespace")) l0 <> OutOfFuel l').
  { intros l0 Hw0 Hi0 Hp0.
    destruct (acceptRune_returns 123 l0 Hw0) as (b & l1 & E & Hw1 & Hi1 & Hp1 & Hs1).
    rewrite (bind_return _ _ _ _ _ E). destruct b; [|rewrite errorf_run; discriminate].
    specialize (Hs1 eq_refl). unfold eof in Hs1.
    destruct (emit_cases itemOpenBrace l1 Hw1) as [[e Ee]|(l2 & Ee & Hw2 & Hi2 & Hp2)].
    - unfold bind. rewrite Ee. discriminate.
    - rewrite (bind_return _ _ _ _ _ Ee). apply Hrec; [assumption|congruence|lia]. }
  destruct (acceptRune_returns 123 l Hwf) as (b & l1 & E & Hw1 & Hi1 & Hp1 & Hs1).
  rewrite (bind_return _ _ _ _ _ E). destruct b.
  { specialize (Hs1 eq_refl). unfold eof in Hs1.
    destruct (emit_cases itemOpenBrace l1 Hw1) as [[e Ee]|(l2 & Ee & Hw2 & Hi2 & Hp2)].
    - unfold bind. rewrite Ee. discriminate.
    - rewrite (bind_return _ _ _ _ _ Ee). apply Hrec; [assumption|congruence|lia]. }
  destruct (acceptIdentifier_returns IsLetter IsDigit tables l1 Hw1)
    as (id & l2 & E2 & Hw2 & Hi2 & Hp2).
  rewrite (bind_return _ _ _ _ _ E2). destruct id; [|rewrite errorf_run; discriminate].
  destruct (emit_cases itemIdentifier l2 Hw2) as [[e Ee]|(l3 & Ee & Hw3 & Hi3 & Hp3)].
  - unfold bind at 1. rewrite Ee. discriminate.
  - rewrite (bind_return _ _ _ _ _ Ee). apply Hbrace; [assumption|congruence|lia].
Qed.

(** [lexBlockFn] calls [lexNamespaceFn] only after it has read the keyword. *)
Lemma lexBlockFn_over_fuelled (lexNamespaceFn : M nextState) (l : lexer) :
  wellFormed l ->
  (forall l1, wellFormed l1 -> input l1 = input l -> pos l < pos l1 ->
              forall l', lexNamespaceFn l1 <> OutOfFuel l') ->
  forall l', lexBlockFn_over IsLetter IsDigit lexNamespaceFn l <> OutOfFuel l'.
Proof.
  intros Hwf Hrec l'. unfold lexBlockFn_over.
  destruct (acceptKeyword_ascii IsLetter IsDigit (go "namespace") l
              namespace_is_ascii Hwf) as (b & l1 & E & Hw1 & Hi1 & _ & Hp1).
  rewrite (bind_return _ _ _ _ _ E). destruct b.
  { specialize (Hp1 eq_refl). change (len (go "namespace")) with 9 in Hp1.
    destruct (emit_cases itemNamespace l1 Hw1) as [[e Ee]|(l2 & Ee & Hw2 & Hi2 & Hp2)].
    - unfold bind. rewrite Ee. discriminate.
    - rewrite (bind_return _ _ _ _ _ Ee). apply Hrec; [assumption|congruence|lia]. }
  match goal with
  | |- ?m l1 <> OutOfFuel l' => cut (fuelled m); [intros F; apply (F l1 l' Hw1)|]
  end.
  pose proof acceptIdentifier_fuelled. pose proof acceptKeyword_fuelled.
  clear - tables H H0. has_fuel.
Qed.

Lemma lexBlockFn_fuel_fuelled (fuel : nat) :
  forall l, wellFormed l ->
  (Z.to_nat (len (input l) - pos l) < fuel)%nat ->
  forall l', lexBlockFn_fuel IsLetter IsDigit fuel l <> OutOfFuel l'.
Proof.
  induction fuel as [|fuel IH]; intros l Hwf Hf; [lia|].
  cbn [lexBlockFn_fuel].
  apply lexBlockFn_over_fuelled; [assumption|]. intros l1 Hw1 Hi1 Hp1.
  apply lexNamespaceFn_over_fuelled; [assumption|]. intros l2 Hw2 Hi2 Hp2.
  apply IH; [assumption|].
  pose proof (wellFormed_range _ Hw2). rewrite Hi2, Hi1 in *. lia.
Qed.

Lemma lexBlockFn_fuelled : fuelled (lexBlockFn IsLetter IsDigit).
Proof.
  intros l l' Hwf. unfold lexBlockFn. mstep.
  apply lexBlockFn_fuel_fuelled; [assumption|].
  pose proof (wellFormed_range _ Hwf). unfold len in *. lia.
Qed.

Lemma lexNamespaceFn_fuelled : fuelled (lexNamespaceFn IsLetter IsDigit).
Proof.
  intros l l' Hwf. unfold lexNamespaceFn.
  apply lexNamespaceFn_over_fuelled; [assumption|].
  intros l1 Hw1 _ _ l1'. apply lexBlockFn_fuelled; assumption.
Qed.

Lemma lexRootFn_fuelled : fuelled (lexRootFn IsLetter IsDigit).
Proof.
  pose proof lexNamespaceFn_fuelled. pose proof acceptKeyword_fuelled.
  unfold lexRootFn, acceptSpace. has_fuel.
Qed.

Lemma call_fuelled (state : stateFn) : fuelled (call IsLetter IsDigit state).
Proof.
  destruct state; simpl; auto with fuelled.
  - apply lexRootFn_fuelled.
  - apply lexSymbolFn_fuelled.
  - apply lexSpaceFn_fuelled.
Qed.

(** In the states the scanner reaches, every loop inside a state function
    ends within its fuel: [run] never ends as [Starved]. *)
Lemma run_never_starved (fuel : nat) (state state' : stateFn) (l l' : lexer) :
  wellFormed l -> runFrom IsLetter IsDigit fuel state l <> Starved state' l'.
Proof.
  revert state l; induction fuel as [|fuel IH]; intros state l Hwf; simpl;
    [discriminate|].
  pose proof (call_fuelled state l) as Hf.
  pose proof (call_well IsLetter IsDigit state l) as Hq.
  destruct (call IsLetter IsDigit state l) as [[|s|f] l1|e l1|l1];
    try discriminate.
  - apply IH. simpl in Hq. apply (quiet_wellFormed _ _ Hq Hwf).
  - exfalso. apply (Hf l1 Hwf). reflexivity.
Qed.

End FuelOfStateFunctions.

(* ================================================================= *)
(** * The states the scanner reaches *)

(** Every state function of the source keeps [wellFormed], and so does the
    loop of [run], from any of them. *)
Lemma wellFormed_kept (IsLetter IsDigit : rune -> bool) (fuel : nat)
      (state : stateFn) (l : lexer) :
  wellFormed l -> wellFormed (scanner (runFrom IsLetter IsDigit fuel state l)).
Proof.
  intros Hwf. pose proof (runFrom_well IsLetter IsDigit fuel state l) as H.
  destruct (runFrom IsLetter IsDigit fuel state l); simpl in *;
    try (apply (quiet_wellFormed _ _ H Hwf)).
  destruct H as [H|H];
    [apply (quiet_wellFormed _ _ H Hwf) | apply (failed_wellFormed _ _ H Hwf)].
Qed.

(** A state function that returns itself and leaves the scanner as it was is
    called for ever. *)
Lemma runFrom_stuck (IsLetter IsDigit : rune -> bool) (state : stateFn) (l : lexer) :
  call IsLetter IsDigit state l = Return (Next state) l ->
  forall fuel, runFrom IsLetter IsDigit fuel state l = Running state l.
Proof.
  intros H fuel. induction fuel as [|fuel IH]; simpl; [reflexivity|].
  rewrite H. exact IH.
Qed.

(** Tables that meet [unicodeTables] are tables that answer below
    [utf8.RuneSelf] as [asciiLetter] and [asciiDigit] do; in this form a scan
    of ASCII text can be evaluated. *)
Lemma unicodeTables_clip (IsLetter IsDigit : rune -> bool) :
  unicodeTables IsLetter IsDigit ->
  IsLetter = (fun r => if r <? utf8.RuneSelf then asciiLetter r else IsLetter r) /\
  IsDigit = (fun r => if r <? utf8.RuneSelf then asciiDigit r else IsDigit r).
Proof.
  intros [HL HD]. split; apply functional_extensionality; intros r;
    destruct (Z.ltb_spec r utf8.RuneSelf); auto.
Qed.

Lemma Latin1_tables : unicodeTables Latin1.IsLetter Latin1.IsDigit.
Proof.
  split; intros r Hr; unfold utf8.RuneSelf in Hr; [|reflexivity].
  unfold Latin1.IsLetter.
  repeat match goal with
         | |- context [?a =? ?b] => destruct (Z.eqb_spec a b); [lia|]
         | |- context [?a <=? ?b] => destruct (Z.leb_spec a b); [lia|]
         end.
  simpl. rewrite !orb_false_r. reflexivity.
Qed.

Lemma token_not_error (input : gostring) (new : list item) (it : item) :
  Forall (token input) new -> In it new -> typ it <> itemError.
Proof.
  intros Hall Hin. rewrite Forall_forall in Hall. apply (Hall it Hin).
Qed.

(** ** What the claims need besides *)

(** The last item of a list is one of its items. *)
Lemma lastType_In (its : list item) (t : itemType) :
  lastType its = Some t -> exists it, In it its /\ typ it = t.
Proof.
  unfold lastType. intros H. destruct (rev its) as [|it r] eqn:E; [discriminate|].
  injection H as <-. exists it. split; [|reflexivity].
  apply (proj2 (in_rev its it)). rewrite E. left. reflexivity.
Qed.

(** The items that the loop of [run] adds, from whatever state function and
    in whatever state of the scanner it starts, are not [itemEOF] items. *)
Lemma runFrom_adds_no_EOF (IsLetter IsDigit : rune -> bool) (fuel : nat)
      (state : stateFn) (l : lexer) :
  exists new,
    items (scanner (runFrom IsLetter IsDigit fuel state l)) = items l ++ new /\
    Forall (fun it => typ it <> itemEOF) new.
Proof.
  pose proof (runFrom_well IsLetter IsDigit fuel state l) as H.
  assert (Htok : forall new, Forall (token (input l)) new ->
                             Forall (fun it => typ it <> itemEOF) new).
  { intros new Hall. apply (Forall_impl _ (fun it Ht => proj1 (proj2 Ht)) Hall). }
  assert (Hq : forall l', quiet l l' ->
                 exists new, items l' = items l ++ new /\
                             Forall (fun it => typ it <> itemEOF) new).
  { intros l' (_ & (new & E & Hall) & _). exists new. split; [exact E | auto]. }
  destruct (runFrom IsLetter IsDigit fuel state l); simpl in *; try (apply Hq, H).
  destruct H as [H|H]; [apply Hq, H|].
  destruct H as (_ & (new & e & E & Hall & He) & _).
  exists (new ++ [e]). split; [exact E|].
  apply Forall_app. split; [auto|].
  constructor; [rewrite He; discriminate | constructor].
Qed.

(** The source's test [isAlphaNumeric] in the specification's words. *)
Lemma isAlphaNumeric_words (IsLetter IsDigit : rune -> bool) (r : rune) :
  isAlphaNumeric IsLetter IsDigit r = false
  <-> ~ letterDigitOrUnderscore IsLetter IsDigit r.
Proof.
  unfold isAlphaNumeric, letterDigitOrUnderscore.
  destruct (Z.eqb_spec r 95) as [E|E], (IsLetter r), (IsDigit r); simpl;
    split; intros H; try discriminate; try reflexivity;
    try (exfalso; apply H; auto; fail);
    intros [K|[K|K]]; try discriminate; contradiction.
Qed.

(** On a byte below [utf8.RuneSelf] the test is for [A-Z], [a-z], [0-9] and
    the underscore, whatever the tables say beyond. *)
Lemma isAlphaNumeric_byte (IsLetter IsDigit : rune -> bool) (c : byte) :
  unicodeTables IsLetter IsDigit -> u8 c < utf8.RuneSelf ->
  isAlphaNumeric IsLetter IsDigit (u8 c) = identifierByte c.
Proof.
  intros [HL HD] Hc. unfold isAlphaNumeric, identifierByte.
  rewrite (HL _ Hc), (HD _ Hc).
  destruct (u8 c =? 95), (asciiLetter (u8 c)), (asciiDigit (u8 c)); reflexivity.
Qed.

Lemma HasPrefix_app (k t : gostring) : strings.HasPrefix (k ++ t) k = true.
Proof.
  induction k as [|c k IH]; simpl; [reflexivity|].
  rewrite IH, andb_true_r. apply Byte.byte_dec_lb. reflexivity.
Qed.

(** The rune that follows a keyword found at [p], when it is one byte. *)
Lemma rune_after_keyword (s k rest : gostring) (c : byte) (p : Z) :
  0 <= p <= len s -> skipn (Z.to_nat p) s = k ++ c :: rest ->
  u8 c < utf8.RuneSelf ->
  strings.HasPrefix (skipn (Z.to_nat p) s) k = true /\
  p + len k < len s /\
  runeAt s (p + len k) = u8 c.
Proof.
  intros Hp E Hc.
  assert (Hl : len s - p = len k + 1 + len rest).
  { pose proof (f_equal (@length byte) E) as H.
    rewrite length_skipn, length_app in H. simpl in H. unfold len in *. lia. }
  pose proof (len_nonneg rest). pose proof (len_nonneg k).
  assert (Hb : byteAt s (Z.to_nat (p + len k)) = u8 c).
  { replace (Z.to_nat (p + len k)) with (Z.to_nat p + length k)%nat
      by (unfold len; lia).
    rewrite <- byteAt_skipn, E. unfold byteAt. rewrite nth_middle. reflexivity. }
  split; [rewrite E; apply HasPrefix_app|]. split; [lia|].
  destruct (rune_of_ascii_byte s (p + len k)) as [Hr _]; [lia| |].
  - rewrite Hb. exact Hc.
  - rewrite Hr. exact Hb.
Qed.

(* ================================================================= *)
(** * More of the scanner: its methods one by one *)

(** ** Reading and putting back *)

Lemma runeAt_nonneg (s : gostring) (p : Z) :
  0 <= p < len s -> 0 <= runeAt s p.
Proof.
  intros Hp. pose proof (decode_inv _ _ _ (decode_at s p)) as H.
  pose proof (skipn_nonempty s p Hp) as Hne.
  pose proof (byteAt_range (skipn (Z.to_nat p) s) 0).
  unfold utf8.RuneError in H.
  destruct H as [[? _]|[(_ & _ & _ & ->)|[(_ & _ & _ & ->)|(_ & _ & _ & ? & _)]]];
    solve [contradiction | lia].
Qed.

Lemma ahead_inside (l : lexer) :
  pos l < len (input l) -> ahead l = runeAt (input l) (pos l).
Proof.
  intros H. unfold ahead. destruct (Z.leb_spec (len (input l)) (pos l)); [lia|reflexivity].
Qed.

Lemma ahead_at_end (l : lexer) : len (input l) <= pos l -> ahead l = eof.
Proof.
  intros H. unfold ahead. destruct (Z.leb_spec (len (input l)) (pos l)); [reflexivity|lia].
Qed.

Lemma taken_inside (l : lexer) : pos l < len (input l) -> taken l = advance l.
Proof.
  intros H. unfold taken. destruct (Z.leb_spec (len (input l)) (pos l)); [lia|reflexivity].
Qed.

Lemma taken_at_end (l : lexer) : len (input l) <= pos l -> taken l = set_atEOF true l.
Proof.
  intros H. unfold taken. destruct (Z.leb_spec (len (input l)) (pos l)); [reflexivity|lia].
Qed.

Lemma looked_inside (l : lexer) : pos l < len (input l) -> looked l = l.
Proof.
  intros H. unfold looked. destruct (Z.leb_spec (len (input l)) (pos l)); [lia|reflexivity].
Qed.

Lemma looked_at_end (l : lexer) : len (input l) <= pos l -> looked l = set_atEOF true l.
Proof.
  intros H. unfold looked. destruct (Z.leb_spec (len (input l)) (pos l)); [reflexivity|lia].
Qed.

Lemma ahead_eof (l : lexer) :
  0 <= pos l -> (ahead l = eof <-> len (input l) <= pos l).
Proof.
  intros Hp. split; [|apply ahead_at_end].
  intros E. destruct (Z.le_gt_cases (len (input l)) (pos l)) as [H|H]; [assumption|].
  rewrite ahead_inside in E by assumption.
  pose proof (runeAt_nonneg (input l) (pos l)). unfold eof in E. lia.
Qed.

Lemma next_run (l : lexer) :
  wellFormed l -> next l = Return (ahead l) (taken l).
Proof.
  intros Hwf. pose proof (wellFormed_range l Hwf) as Hr.
  destruct (Z.le_gt_cases (len (input l)) (pos l)) as [H|H].
  - rewrite ahead_at_end, taken_at_end by assumption. apply next_at_end; assumption.
  - rewrite ahead_inside, taken_inside by assumption. apply next_inside; lia.
Qed.

Lemma taken_wellFormed (l : lexer) : wellFormed l -> wellFormed (taken l).
Proof.
  intros Hwf. destruct (Z.le_gt_cases (len (input l)) (pos l)) as [H|H].
  - rewrite taken_at_end by assumption. apply wellFormed_atEOF; assumption.
  - rewrite taken_inside by assumption. apply wellFormed_advance; assumption.
Qed.

Lemma looked_wellFormed (l : lexer) : wellFormed l -> wellFormed (looked l).
Proof.
  intros Hwf. destruct (Z.le_gt_cases (len (input l)) (pos l)) as [H|H].
  - rewrite looked_at_end by assumption. apply wellFormed_atEOF; assumption.
  - rewrite looked_inside by assumption. assumption.
Qed.

Lemma backup_taken (l : lexer) :
  wellFormed l -> backup (taken l) = Return tt (looked l).
Proof.
  intros Hwf. destruct (Z.le_gt_cases (len (input l)) (pos l)) as [H|H].
  - rewrite taken_at_end, looked_at_end by assumption.
    apply backup_idle. left. reflexivity.
  - rewrite taken_inside, looked_inside by assumption.
    apply backup_advance; assumption.
Qed.

(** A method that reads a rune, tests it and puts it back when the test
    fails. *)
Lemma test_next_run (test : rune -> bool) (l : lexer) :
  wellFormed l ->
  (r <- next;; if test r then ret true else backup;; ret false) l
  = if test (ahead l) then Return true (taken l) else Return false (looked l).
Proof.
  intros Hwf. rewrite (bind_return _ _ _ _ _ (next_run l Hwf)).
  destruct (test (ahead l)); [reflexivity|].
  rewrite (bind_return _ _ _ _ _ (backup_taken l Hwf)). reflexivity.
Qed.

Lemma advance_fields (l : lexer) :
  input (advance l) = input l /\ items (advance l) = items l /\
  start (advance l) = start l /\ startLine (advance l) = startLine l /\
  atEOF (advance l) = atEOF l /\ name (advance l) = name l /\
  pos (advance l) = pos l + widthAt (input l) (pos l) /\
  line (advance l) = line l + (if runeAt (input l) (pos l) =? 10 then 1 else 0).
Proof.
  unfold advance. destruct (runeAt (input l) (pos l) =? 10); simpl; splits; auto; lia.
Qed.

(** *** [backupMultiple] after as many [next] *)

Lemma backupTimes_add (n m : nat) (l : lexer) :
  backupTimes (n + m) l = (backupTimes n;; backupTimes m) l.
Proof.
  revert l; induction n as [|n IH]; intros l; simpl; [reflexivity|].
  rewrite bind_assoc. destruct (backup l) as [[] l'|e l'|l'] eqn:E.
  - rewrite !(bind_return _ _ _ _ _ E). apply IH.
  - unfold bind. rewrite E. reflexivity.
  - unfold bind. rewrite E. reflexivity.
Qed.

Lemma nextTimes_cons (n : nat) (l l1 l2 : lexer) (r : rune) (rs : list rune) :
  next l = Return r l1 -> nextTimes n l1 = Return rs l2 ->
  nextTimes (S n) l = Return (r :: rs) l2.
Proof.
  intros E1 E2. simpl. rewrite (bind_return _ _ _ _ _ E1).
  rewrite (bind_return _ _ _ _ _ E2). reflexivity.
Qed.

Lemma nextTimes_inv (n : nat) (l l2 : lexer) (rs : list rune) :
  wellFormed l -> nextTimes (S n) l = Return rs l2 ->
  exists rs', rs = ahead l :: rs' /\ nextTimes n (taken l) = Return rs' l2.
Proof.
  intros Hwf E. simpl in E. rewrite (bind_return _ _ _ _ _ (next_run l Hwf)) in E.
  unfold bind in E. destruct (nextTimes n (taken l)) as [rs' l'|e l'|l']; try discriminate.
  injection E as <- <-. eauto.
Qed.

Lemma nextTimes_snoc (n : nat) :
  forall (l l1 : lexer) (rs : list rune),
  wellFormed l -> nextTimes n l = Return rs l1 ->
  wellFormed l1 /\ nextTimes (S n) l = Return (rs ++ [ahead l1]) (taken l1).
Proof.
  induction n as [|n IH]; intros l l1 rs Hwf E.
  - injection E as <- <-. split; [assumption|].
    apply (nextTimes_cons 0 l (taken l) (taken l) (ahead l) []);
      [apply next_run; assumption | reflexivity].
  - destruct (nextTimes_inv n l l1 rs Hwf E) as (rs' & -> & E').
    destruct (IH (taken l) l1 rs' (taken_wellFormed l Hwf) E') as [Hwf1 E1].
    split; [assumption|].
    apply (nextTimes_cons (S n) l (taken l)); [apply next_run; assumption | exact E1].
Qed.

(** [n] runes read and [n] steps back: the scanner is as it was. *)
Lemma backupTimes_nextTimes (n : nat) :
  forall (l l1 : lexer) (rs : list rune),
  wellFormed l -> nextTimes n l = Return rs l1 -> ~ In eof rs ->
  backupTimes n l1 = Return tt l.
Proof.
  induction n as [|n IH]; intros l l1 rs Hwf E Hne.
  - injection E as <- <-. reflexivity.
  - destruct (nextTimes_inv n l l1 rs Hwf E) as (rs' & -> & E').
    assert (Hin : pos l < len (input l)).
    { destruct (Z.le_gt_cases (len (input l)) (pos l)) as [H|H]; [|assumption].
      exfalso. apply Hne. left. apply ahead_at_end. assumption. }
    rewrite taken_inside in E' by assumption.
    replace (S n) with (n + 1)%nat by lia. rewrite backupTimes_add.
    rewrite (bind_return _ _ _ _ _
               (IH (advance l) l1 rs' (wellFormed_advance l Hwf Hin) E'
                   (fun H => Hne (or_intror H)))).
    simpl. rewrite (bind_return _ _ _ _ _ (backup_advance l Hwf Hin)). reflexivity.
Qed.

(** ** Newlines and runes *)

Lemma firstn_plus {A} (n m : nat) (l : list A) :
  firstn (n + m) l = firstn n l ++ firstn m (skipn n l).
Proof.
  revert l; induction n as [|n IH]; intros l; [reflexivity|].
  destruct l as [|a l]; simpl.
  - rewrite firstn_nil. reflexivity.
  - rewrite IH. reflexivity.
Qed.

Lemma segment_split (s : gostring) (a b c : Z) :
  0 <= a <= b -> b <= c ->
  segment s a c = segment s a b ++ segment s b c.
Proof.
  intros H1 H2. unfold segment.
  replace (Z.to_nat (c - a)) with (Z.to_nat (b - a) + Z.to_nat (c - b))%nat by lia.
  rewrite firstn_plus, skipn_skipn.
  replace (Z.to_nat (b - a) + Z.to_nat a)%nat with (Z.to_nat b) by lia.
  reflexivity.
Qed.

Lemma segment_empty (s : gostring) (a : Z) : segment s a a = [].
Proof. unfold segment. rewrite Z.sub_diag. reflexivity. Qed.

Lemma slice_segment (s : gostring) (lo hi : Z) :
  0 <= lo <= hi -> hi <= len s -> slice s lo hi = Ok (segment s lo hi).
Proof. intros H1 H2. apply slice_ok; lia. Qed.

Lemma CountNewlines_app (s t : gostring) :
  strings.CountNewlines (s ++ t) = strings.CountNewlines s + strings.CountNewlines t.
Proof.
  unfold strings.CountNewlines. rewrite filter_app, length_app. lia.
Qed.

Lemma CountNewlines_none (n : nat) :
  forall t : gostring,
  (forall i, (i < n)%nat -> (i < length t)%nat -> byteAt t i <> 10) ->
  strings.CountNewlines (firstn n t) = 0.
Proof.
  induction n as [|n IH]; intros t H; [reflexivity|].
  destruct t as [|c t]; [reflexivity|].
  simpl firstn. unfold strings.CountNewlines. simpl filter.
  destruct (Z.eqb_spec (u8 c) 10) as [E|_].
  - exfalso. apply (H 0%nat); simpl; try lia. exact E.
  - apply IH. intros i Hi Hl. apply (H (S i)); simpl; lia.
Qed.

(** A newline byte is never part of a longer rune: the newlines of the bytes
    of a rune are the rune itself. *)
Lemma newlines_of_rune (s : gostring) (p : Z) :
  0 <= p < len s ->
  strings.CountNewlines (segment s p (p + widthAt s p))
  = if runeAt s p =? 10 then 1 else 0.
Proof.
  intros Hp. unfold segment.
  replace (p + widthAt s p - p) with (widthAt s p) by lia.
  pose proof (decode_inv _ _ _ (decode_at s p)) as H.
  pose proof (skipn_nonempty s p Hp) as Hne.
  set (t := skipn (Z.to_nat p) s) in *.
  destruct H as [[? _]|[(_ & Hw & Hlo & Hr)|[(_ & Hw & Hhi & Hr)|(Hw & Hl & H0 & Hr & Hc)]]];
    [contradiction| | |].
  - rewrite Hw, Hr. destruct t as [|c t']; [contradiction|].
    unfold byteAt. simpl. unfold strings.CountNewlines. simpl.
    destruct (u8 c =? 10); reflexivity.
  - rewrite Hw, Hr. destruct t as [|c t']; [contradiction|].
    unfold byteAt in Hhi. simpl in Hhi. unfold strings.CountNewlines. simpl.
    destruct (Z.eqb_spec (u8 c) 10); [lia | reflexivity].
  - destruct (Z.eqb_spec (runeAt s p) 10); [lia|].
    apply CountNewlines_none. intros i Hi _.
    destruct i as [|i]; [lia|].
    specialize (Hc (S i)). lia.
Qed.

(** ** The methods that test one rune *)

Lemma accept_run (valid : gostring) (l : lexer) :
  wellFormed l ->
  accept valid l
  = if strings.ContainsRune valid (ahead l)
    then Return true (taken l) else Return false (looked l).
Proof. apply (test_next_run (strings.ContainsRune valid)). Qed.

Lemma acceptRune_run (expected : rune) (l : lexer) :
  wellFormed l ->
  acceptRune expected l
  = if ahead l =? expected
    then Return true (taken l) else Return false (looked l).
Proof. apply (test_next_run (fun r => r =? expected)). Qed.

Lemma acceptAlphaNumeric_run (IsLetter IsDigit : rune -> bool) (l : lexer) :
  wellFormed l ->
  acceptAlphaNumeric IsLetter IsDigit l
  = if isAlphaNumeric IsLetter IsDigit (ahead l)
    then Return true (taken l) else Return false (looked l).
Proof. apply (test_next_run (isAlphaNumeric IsLetter IsDigit)). Qed.

Lemma lexer_eof_run (l : lexer) :
  lexer_eof l = Return (len (input l) <=? pos l) l.
Proof. reflexivity. Qed.

(** ** The methods that read a run of runes *)

Lemma runOf_le (test : rune -> bool) (s : gostring) (p q : Z) :
  runOf test s p q -> p <= q.
Proof.
  induction 1 as [p|p q Hp Ht Hr IH]; [lia|].
  pose proof (widthAt_bounds s p Hp). lia.
Qed.

Lemma readOn_here (test : rune -> bool) (l l' : lexer) :
  wellFormed l' -> test (ahead l') = false ->
  input l' = input l -> items l' = items l -> start l' = start l ->
  startLine l' = startLine l -> pos l' = pos l -> line l' = line l ->
  readOn test l l'.
Proof.
  intros Hwf Ht Hi Hit Hs Hsl Hp Hl. unfold readOn. rewrite Hp, segment_empty.
  splits; auto; [constructor | change (strings.CountNewlines []) with 0; lia].
Qed.

Lemma readOn_step (test : rune -> bool) (l l' : lexer) :
  wellFormed l -> pos l < len (input l) ->
  test (runeAt (input l) (pos l)) = true ->
  readOn test (advance l) l' -> readOn test l l'.
Proof.
  intros Hwf Hin Ht (Hr & Ha & Hl & Hi & Hit & Hs & Hsl & Hwf').
  pose proof (wellFormed_range l Hwf) as Hp.
  destruct (advance_fields l) as (Ai & Ait & As & Asl & _ & _ & Ap & Al).
  rewrite Ai, Ap in Hr. rewrite Ai, Ap, Al in Hl.
  pose proof (runOf_le _ _ _ _ Hr) as Hle.
  pose proof (widthAt_bounds (input l) (pos l) (conj (proj1 Hp) Hin)) as Hw.
  unfold readOn. splits; try congruence.
  - apply runOf_cons; [lia | assumption | assumption].
  - rewrite (segment_split (input l) (pos l) (pos l + widthAt (input l) (pos l)) (pos l'))
      by lia.
    rewrite CountNewlines_app, newlines_of_rune by lia. lia.
Qed.

Section ReadWhile.

Variable test : rune -> bool.
Variable loop : nat -> M unit.
Hypothesis loop_S :
  forall fuel, loop (S fuel) = (r <- next;; if test r then loop fuel else ret tt).
Hypothesis test_eof : test eof = false.

Lemma loop_backup_run (fuel : nat) :
  forall l, wellFormed l ->
  (Z.to_nat (len (input l) - pos l) < fuel)%nat ->
  exists l', (loop fuel;; backup) l = Return tt l' /\ readOn test l l'.
Proof.
  induction fuel as [|fuel IH]; intros l Hwf Hf; [lia|].
  rewrite loop_S, bind_assoc.
  rewrite (bind_return _ _ _ _ _ (next_run l Hwf)).
  destruct (Z.le_gt_cases (len (input l)) (pos l)) as [Hend|Hin].
  - rewrite ahead_at_end, taken_at_end, test_eof by assumption. mstep.
    rewrite backup_idle by (left; reflexivity).
    exists (set_atEOF true l). split; [reflexivity|].
    apply readOn_here; try reflexivity.
    + apply wellFormed_atEOF; assumption.
    + rewrite ahead_at_end by (simpl; assumption). assumption.
  - rewrite ahead_inside, taken_inside by assumption.
    destruct (test (runeAt (input l) (pos l))) eqn:Ht.
    + destruct (IH (advance l) (wellFormed_advance l Hwf Hin)) as (l' & E' & Hr).
      { pose proof (rest_advance l Hwf Hin). lia. }
      exists l'. split; [exact E'|]. apply readOn_step; assumption.
    + mstep. rewrite backup_advance by assumption.
      exists l. split; [reflexivity|].
      apply readOn_here; try reflexivity; [assumption|].
      rewrite ahead_inside by assumption. assumption.
Qed.

End ReadWhile.

Lemma acceptRun_run (valid : gostring) (l : lexer) :
  wellFormed l ->
  exists l', acceptRun valid l = Return tt l' /\
             readOn (strings.ContainsRune valid) l l'.
Proof.
  intros Hwf. unfold acceptRun. mstep.
  apply (loop_backup_run (strings.ContainsRune valid)
                         (fun fuel => acceptRunLoop fuel valid));
    [reflexivity | reflexivity | assumption |].
  pose proof (wellFormed_range l Hwf). unfold len in *. lia.
Qed.

Section Identifier.

Variable IsLetter IsDigit : rune -> bool.
Hypothesis tables : unicodeTables IsLetter IsDigit.

Lemma acceptIdentifier_run (l : lexer) :
  wellFormed l ->
  if (ahead l =? 95) || IsLetter (ahead l)
  then exists l', acceptIdentifier IsLetter IsDigit l = Return true l' /\
                  readOn (isAlphaNumeric IsLetter IsDigit) l l' /\
                  pos l < pos l'
  else acceptIdentifier IsLetter IsDigit l = Return false (looked l).
Proof.
  intros Hwf. unfold acceptIdentifier.
  rewrite (bind_return _ _ _ _ _ (next_run l Hwf)).
  destruct ((ahead l =? 95) || IsLetter (ahead l)) eqn:Hid.
  - replace (negb (ahead l =? 95) && negb (IsLetter (ahead l))) with false
      by (destruct (ahead l =? 95), (IsLetter (ahead l)); simpl in *; congruence).
    assert (Hin : pos l < len (input l)).
    { destruct (Z.le_gt_cases (len (input l)) (pos l)) as [H|H]; [|assumption].
      rewrite ahead_at_end, (IsLetter_eof _ _ tables) in Hid by assumption.
      discriminate. }
    rewrite ahead_inside in Hid by assumption.
    rewrite taken_inside by assumption. mstep.
    destruct (loop_backup_run (isAlphaNumeric IsLetter IsDigit)
                (acceptIdentifierLoop IsLetter IsDigit)
                (fun _ => eq_refl) (isAlphaNumeric_eof _ _ tables)
                (S (length (input (advance l)))) (advance l)
                (wellFormed_advance l Hwf Hin)) as (l' & E' & Hr).
    { pose proof (wellFormed_range _ (wellFormed_advance l Hwf Hin)).
      unfold len in *. lia. }
    rewrite <- bind_assoc. rewrite (bind_return _ _ _ _ _ E').
    exists l'. split; [reflexivity|].
    assert (Hal : isAlphaNumeric IsLetter IsDigit (runeAt (input l) (pos l)) = true).
    { unfold isAlphaNumeric.
      destruct (runeAt (input l) (pos l) =? 95), (IsLetter (runeAt (input l) (pos l)));
        simpl in *; congruence. }
    split; [apply readOn_step; assumption|].
    destruct Hr as (Hr & _). apply runOf_le in Hr.
    destruct (advance_fields l) as (_ & _ & _ & _ & _ & _ & Ap & _).
    pose proof (wellFormed_range l Hwf).
    pose proof (widthAt_bounds (input l) (pos l)). lia.
  - replace (negb (ahead l =? 95) && negb (IsLetter (ahead l))) with true
      by (destruct (ahead l =? 95), (IsLetter (ahead l)); simpl in *; congruence).
    rewrite (bind_return _ _ _ _ _ (backup_taken l Hwf)). reflexivity.
Qed.

End Identifier.

(** ** [acceptString] and [acceptKeyword] to the rune *)

Lemma backupTimes_idle (n : nat) (l : lexer) :
  atEOF l = true -> backupTimes n l = Return tt l.
Proof.
  intros H. induction n as [|n IH]; simpl; [reflexivity|].
  rewrite (bind_return _ _ _ _ _ (backup_idle l (or_introl H))). exact IH.
Qed.

(** [acceptString] on a keyword, after [n] of its runes have been read from
    [l0]: when a rune differs, the [n] steps back undo all the runes read
    but the first. *)
Lemma acceptStringLoop_run (k : gostring) :
  asciiString k ->
  forall (n : nat) (l0 l : lexer) (rs : list rune),
  wellFormed l0 -> nextTimes n l0 = Return rs l -> ~ In eof rs ->
  exists l',
    acceptStringLoop (asciiSteps (Z.of_nat n) k) l
    = Return (strings.HasPrefix (skipn (Z.to_nat (pos l)) (input l)) k) l' /\
    (strings.HasPrefix (skipn (Z.to_nat (pos l)) (input l)) k = true ->
     exists rs', nextTimes (n + length k) l0 = Return rs' l' /\ ~ In eof rs' /\
                 pos l' = pos l + len k) /\
    (strings.HasPrefix (skipn (Z.to_nat (pos l)) (input l)) k = false ->
     (pos l0 < len (input l0) /\ l' = advance l0) \/
     (atEOF l' = true /\ wellFormed l' /\ input l' = input l0)).
Proof.
  induction 1 as [|c k Hc Hk IH]; intros n l0 l rs Hwf0 En Hne.
  - exists l. simpl. split; [reflexivity|]. split; [|discriminate].
    intros _. exists rs. rewrite Nat.add_0_r. change (len []) with 0.
    split; [assumption|]. split; [assumption|lia].
  - destruct (nextTimes_snoc n l0 l rs Hwf0 En) as [Hwf ES].
    pose proof (wellFormed_range l Hwf) as Hr. pose proof (u8_range c) as Hc8.
    assert (Hi0 : input l = input l0).
    { clear - En Hwf0. revert l0 l rs Hwf0 En.
      induction n as [|n IHn]; intros l0 l rs Hwf0 En.
      - injection En as _ <-. reflexivity.
      - destruct (nextTimes_inv n l0 l rs Hwf0 En) as (rs' & _ & E').
        rewrite (IHn _ _ _ (taken_wellFormed l0 Hwf0) E').
        unfold taken. destruct (_ <=? _); [reflexivity|].
        apply (advance_fields l0). }
    cbn [asciiSteps acceptStringLoop].
    rewrite (bind_return _ _ _ _ _ (next_run l Hwf)).
    destruct (Z.le_gt_cases (len (input l)) (pos l)) as [Hend|Hin].
    + (* the input ends inside the keyword *)
      rewrite ahead_at_end, taken_at_end by assumption.
      destruct (Z.eqb_spec eof (u8 c)) as [E|_]; [unfold eof in E; lia|].
      cbn [negb]. unfold backupMultiple.
      rewrite (bind_return _ _ _ _ _ (backupTimes_idle _ (set_atEOF true l) eq_refl)).
      mstep.
      assert (Hs : skipn (Z.to_nat (pos l)) (input l) = []).
      { apply skipn_all2. unfold len in Hend. lia. }
      rewrite Hs. simpl. exists (set_atEOF true l).
      split; [reflexivity|]. split; [discriminate|]. intros _. right.
      split; [reflexivity|]. split; [apply wellFormed_atEOF; assumption | exact Hi0].
    + rewrite ahead_inside, taken_inside in * by assumption.
      assert (Hne' : ~ In eof (rs ++ [runeAt (input l) (pos l)])).
      { intros Hi. apply in_app_or in Hi. destruct Hi as [Hi|[Hi|[]]]; [auto|].
        pose proof (runeAt_nonneg (input l) (pos l)). unfold eof in Hi. lia. }
      rewrite (skipn_cons_nth (input l) (pos l)) by lia.
      cbn [strings.HasPrefix].
      destruct (Z.eqb_spec (runeAt (input l) (pos l)) (u8 c)) as [E|E]; cbn [negb].
      * (* the rune is the next one of the keyword *)
        destruct (rune_ascii_inv (input l) (pos l)) as [Hb Hw]; [lia| |].
        { rewrite E. unfold utf8.RuneSelf in *. lia. }
        unfold byteAt in Hb. rewrite E in Hb. apply u8_inj in Hb.
        rewrite Hb, (Byte.byte_dec_lb eq_refl). cbn [andb].
        destruct (advance_fields l) as (Ain & _ & _ & _ & _ & _ & Apos & _).
        rewrite Hw in Apos.
        replace (Z.of_nat n + 1) with (Z.of_nat (S n)) by lia.
        destruct (IH (S n) l0 (advance l) _ Hwf0 ES Hne') as (l' & E' & Ht & Hf).
        rewrite Ain, Apos in E', Ht, Hf.
        exists l'. split; [exact E'|]. split; [|exact Hf].
        intros Hp. destruct (Ht Hp) as (rs' & En' & Hne'' & Hpos').
        exists rs'.
        replace (n + length (c :: k))%nat with (S n + length k)%nat by (simpl; lia).
        split; [exact En'|].
        split; [exact Hne''|]. unfold len in *. simpl length. lia.
      * (* a different rune *)
        assert (Hne0 : Byte.eqb (nth (Z.to_nat (pos l)) (input l) x00) c = false).
        { destruct (Byte.eqb _ c) eqn:Eb; [|reflexivity].
          apply Byte.byte_dec_bl in Eb. exfalso. apply E.
          destruct (rune_of_ascii_byte (input l) (pos l)) as [Hrn _]; [lia| |].
          - unfold byteAt. rewrite Eb. assumption.
          - rewrite Hrn. unfold byteAt. rewrite Eb. reflexivity. }
        rewrite Hne0. cbn [andb].
        destruct (nextTimes_inv n l0 (advance l) _ Hwf0 ES) as (rs' & Ers & En').
        assert (Hin0 : pos l0 < len (input l0)).
        { destruct (Z.le_gt_cases (len (input l0)) (pos l0)) as [H|H]; [|assumption].
          exfalso. apply Hne'. rewrite Ers. left. apply ahead_at_end. assumption. }
        rewrite taken_inside in En' by assumption.
        assert (Hb : backupTimes n (advance l) = Return tt (advance l0)).
        { apply (backupTimes_nextTimes n (advance l0) (advance l) rs');
            [apply wellFormed_advance; assumption | exact En' |].
          intros Hi. apply Hne'. rewrite Ers. right. assumption. }
        unfold backupMultiple. rewrite Nat2Z.id.
        rewrite (bind_return _ _ _ _ _ Hb). mstep.
        exists (advance l0). split; [reflexivity|]. split; [discriminate|].
        intros _. left. split; [assumption | reflexivity].
Qed.

Lemma acceptString_run (k : gostring) (l : lexer) :
  asciiString k -> wellFormed l ->
  exists l',
    acceptString k l
    = Return (strings.HasPrefix (skipn (Z.to_nat (pos l)) (input l)) k) l' /\
    (strings.HasPrefix (skipn (Z.to_nat (pos l)) (input l)) k = true ->
     exists rs', nextTimes (length k) l = Return rs' l' /\ ~ In eof rs' /\
                 pos l' = pos l + len k) /\
    (strings.HasPrefix (skipn (Z.to_nat (pos l)) (input l)) k = false ->
     (pos l < len (input l) /\ l' = advance l) \/
     (atEOF l' = true /\ wellFormed l' /\ input l' = input l)).
Proof.
  intros Hk Hwf. unfold acceptString. rewrite rangeString_ascii by assumption.
  apply (acceptStringLoop_run k Hk 0 l l [] Hwf eq_refl).
  intros [].
Qed.

Lemma acceptKeyword_run (IsLetter IsDigit : rune -> bool) (k : gostring) (l : lexer) :
  asciiString k -> wellFormed l ->
  let found := strings.HasPrefix (skipn (Z.to_nat (pos l)) (input l)) k in
  let q := pos l + len k in
  (found = false ->
   exists l', acceptKeyword IsLetter IsDigit k l = Return false l' /\
              ((pos l < len (input l) /\ l' = advance l) \/
               (atEOF l' = true /\ wellFormed l' /\ input l' = input l))) /\
  (found = true ->
   len (input l) <= q \/ isAlphaNumeric IsLetter IsDigit (runeAt (input l) q) = false ->
   exists l' rs, acceptKeyword IsLetter IsDigit k l = Return true l' /\
                 nextTimes (length k) l = Return rs l' /\ ~ In eof rs /\
                 pos l' = q /\ input l' = input l /\ wellFormed l') /\
  (found = true ->
   q < len (input l) -> isAlphaNumeric IsLetter IsDigit (runeAt (input l) q) = true ->
   acceptKeyword IsLetter IsDigit k l
   = (backupTimes (Z.to_nat (widthAt (input l) q - 1));; ret false) l).
Proof.
  intros Hk Hwf found q. unfold acceptKeyword. mstep.
  destruct (acceptString_run k l Hk Hwf) as (l1 & E1 & Ht & Hf).
  fold found in E1, Ht, Hf.
  rewrite (bind_return _ _ _ _ _ E1).
  pose proof (acceptString_steady k l) as Hs. rewrite E1 in Hs. simpl in Hs.
  destruct Hs as (Hin1 & _).
  destruct found eqn:Hfound; cbn [negb].
  2: { split; [|split; discriminate]. intros _. exists l1. split; [reflexivity|].
       apply Hf. reflexivity. }
  split; [discriminate|].
  destruct (Ht eq_refl) as (rs & En & Hne & Hpos1). fold q in Hpos1.
  destruct (nextTimes_snoc _ l l1 rs Hwf En) as [Hwf1 ES].
  rewrite bind_lexer_eof, Hin1, Hpos1.
  split.
  - intros _ Hor. exists l1, rs.
    destruct (Z.leb_spec (len (input l)) q) as [Hend|Hmore].
    { splits; auto. }
    destruct Hor as [Hor|Hor]; [lia|].
    assert (Ean : acceptAlphaNumeric IsLetter IsDigit l1 = Return false l1).
    { rewrite (acceptAlphaNumeric_run IsLetter IsDigit l1 Hwf1).
      rewrite ahead_inside, looked_inside by (rewrite Hin1, Hpos1; assumption).
      rewrite Hin1, Hpos1, Hor. reflexivity. }
    rewrite (bind_return _ _ _ _ _ Ean). splits; auto.
  - intros _ Hmore Han.
    destruct (Z.leb_spec (len (input l)) q) as [Hend|_]; [lia|].
    assert (Hlt1 : pos l1 < len (input l1)) by (rewrite Hin1, Hpos1; assumption).
    assert (Ean : acceptAlphaNumeric IsLetter IsDigit l1 = Return true (advance l1)).
    { rewrite (acceptAlphaNumeric_run IsLetter IsDigit l1 Hwf1).
      rewrite ahead_inside, taken_inside by assumption.
      rewrite Hin1, Hpos1, Han. reflexivity. }
    rewrite ahead_inside, taken_inside in ES by assumption.
    rewrite (bind_return _ _ _ _ _ Ean). mstep.
    destruct (advance_fields l1) as (_ & _ & _ & _ & _ & _ & Apos & _).
    rewrite Hin1, Hpos1 in Apos. rewrite Apos.
    pose proof (wellFormed_range l Hwf) as Hr.
    pose proof (len_nonneg k) as Hk0.
    pose proof (widthAt_bounds (input l) q) as Hw.
    unfold backupMultiple.
    replace (Z.to_nat (q + widthAt (input l) q - pos l))
      with (S (length k) + Z.to_nat (widthAt (input l) q - 1))%nat
      by (unfold q, len in *; lia).
    assert (Hb : backupTimes (S (length k)) (advance l1) = Return tt l).
    { apply (backupTimes_nextTimes _ l (advance l1) _ Hwf ES).
      intros Hi. apply in_app_or in Hi. destruct Hi as [Hi|[Hi|[]]]; [auto|].
      pose proof (runeAt_nonneg (input l1) (pos l1)).
      pose proof (wellFormed_range l1 Hwf1). unfold eof in Hi. lia. }
    unfold bind at 1. rewrite backupTimes_add.
    rewrite (bind_return _ _ _ _ _ Hb). reflexivity.
Qed.

(* ================================================================= *)
(** * More of the scanner: whole scans *)

(** ** Methods that return *)

Lemma safe_bind {A B} (m : M A) (k : A -> M B) :
  safe m -> keeps steady m -> (forall a, safe (k a)) -> safe (bind m k).
Proof.
  intros Hm Hs Hk l Hwf. destruct (Hm l Hwf) as (a & l1 & E).
  rewrite (bind_return _ _ _ _ _ E). apply Hk.
  specialize (Hs l). rewrite E in Hs. apply Hs. assumption.
Qed.

Lemma safe_ret {A} (a : A) : safe (ret a).
Proof. intros l _. eexists _, _. reflexivity. Qed.

Lemma safe_get {A} (f : lexer -> A) : safe (get f).
Proof. intros l _. eexists _, _. reflexivity. Qed.

Lemma next_safe : safe next.
Proof. intros l Hwf. rewrite next_run by assumption. eauto. Qed.

Lemma backup_safe : safe backup.
Proof.
  intros l Hwf. destruct (backup_wellFormed l Hwf) as (l' & E & _).
  exists tt, l'. exact E.
Qed.

Lemma backupTimes_safe (n : nat) : safe (backupTimes n).
Proof.
  intros l Hwf. destruct (backupTimes_wellFormed n l Hwf) as (l' & E & _).
  exists tt, l'. exact E.
Qed.

Lemma backupMultiple_safe (count : Z) : safe (backupMultiple count).
Proof. apply backupTimes_safe. Qed.

Lemma lexer_eof_safe : safe lexer_eof.
Proof. intros l _. eexists _, _. reflexivity. Qed.

Lemma accept_safe (valid : gostring) : safe (accept valid).
Proof.
  intros l Hwf. rewrite accept_run by assumption.
  destruct (strings.ContainsRune valid (ahead l)); eauto.
Qed.

Lemma acceptRune_safe (expected : rune) : safe (acceptRune expected).
Proof.
  intros l Hwf. rewrite acceptRune_run by assumption.
  destruct (ahead l =? expected); eauto.
Qed.

Lemma acceptRun_safe (valid : gostring) : safe (acceptRun valid).
Proof.
  intros l Hwf. destruct (acceptRun_run valid l Hwf) as (l' & E & _). eauto.
Qed.

Lemma acceptStringLoop_safe (steps : list (Z * rune)) : safe (acceptStringLoop steps).
Proof.
  induction steps as [|[i c] steps IH]; simpl; [apply safe_ret|].
  apply safe_bind; [apply next_safe | apply next_steady |].
  intros r. destruct (negb (r =? c)); [|exact IH].
  apply safe_bind; [apply backupMultiple_safe | apply backupMultiple_steady |].
  intros _. apply safe_ret.
Qed.

Lemma acceptString_safe (s : gostring) : safe (acceptString s).
Proof. apply acceptStringLoop_safe. Qed.

Lemma acceptSpace_safe : safe acceptSpace.
Proof. apply accept_safe. Qed.

Create HintDb safe.
#[export] Hint Resolve next_safe backup_safe backupTimes_safe backupMultiple_safe
  lexer_eof_safe accept_safe acceptSpace_safe acceptRune_safe acceptRun_safe
  acceptString_safe : safe.

(** ** What [emit] does within bounds *)

Lemma emit_ok (t : itemType) (l : lexer) :
  wellFormed l -> 0 <= start l <= pos l -> emit t l = Return tt (emitted t l).
Proof.
  intros Hwf Hs. pose proof (wellFormed_range l Hwf).
  rewrite emit_run, slice_segment by lia. reflexivity.
Qed.

Lemma emitted_wellFormed (t : itemType) (l : lexer) :
  wellFormed l -> wellFormed (emitted t l).
Proof. intros [Hb He]. split; simpl; assumption. Qed.

Lemma ahead_emitted (t : itemType) (l : lexer) : ahead (emitted t l) = ahead l.
Proof. reflexivity. Qed.

Lemma ahead_looked (l : lexer) : ahead (looked l) = ahead l.
Proof. unfold looked. destruct (_ <=? _); reflexivity. Qed.

Lemma looked_looked (l : lexer) : looked (looked l) = looked l.
Proof.
  destruct (Z.le_gt_cases (len (input l)) (pos l)) as [H|H].
  - rewrite (looked_at_end l H). rewrite looked_at_end by (simpl; assumption).
    reflexivity.
  - rewrite !(looked_inside l H). reflexivity.
Qed.

Lemma looked_fields (l : lexer) :
  input (looked l) = input l /\ items (looked l) = items l /\
  start (looked l) = start l /\ startLine (looked l) = startLine l /\
  pos (looked l) = pos l /\ line (looked l) = line l.
Proof. unfold looked. destruct (_ <=? _); simpl; auto 10. Qed.

(** ** Relations between the scanner before and after *)

Lemma moved_refl (l : lexer) : wellFormed l -> moved l l.
Proof. intros H. unfold moved. splits; auto. Qed.

Lemma moved_trans (a b c : lexer) : moved a b -> moved b c -> moved a c.
Proof.
  intros (A1 & A2 & A3 & A4 & _) (B1 & B2 & B3 & B4 & B5).
  unfold moved. splits; congruence.
Qed.

Lemma steady_moved (l l' : lexer) : wellFormed l -> steady l l' -> moved l l'.
Proof. intros Hwf (H1 & H2 & H3 & H4 & H5). unfold moved. splits; auto. Qed.

Lemma moved_plain (l l' : lexer) : moved l l' -> plain l l'.
Proof.
  intros (H1 & H2 & _ & _ & H5). unfold plain. splits; auto.
  exists []. rewrite app_nil_r. auto.
Qed.

Lemma plain_trans (a b c : lexer) : plain a b -> plain b c -> plain a c.
Proof.
  intros (A1 & (n1 & A2 & A3) & _) (B1 & (n2 & B2 & B3) & B4).
  unfold plain. splits; [congruence| |assumption].
  exists (n1 ++ n2). rewrite B2, A2, app_assoc. split; [reflexivity|].
  apply Forall_app; auto.
Qed.

Lemma plain_failed (a b c : lexer) : plain a b -> plainFailed b c -> plainFailed a c.
Proof.
  intros (A1 & (n1 & A2 & A3) & _) (B1 & (n2 & e & B2 & B3 & B4) & B5).
  unfold plainFailed. splits; [congruence| |assumption].
  exists (n1 ++ n2), e. rewrite B2, A2, !app_assoc. split; [reflexivity|].
  split; [apply Forall_app; auto | assumption].
Qed.

Lemma endsPlain_after (a b : lexer) (r : reply nextState) :
  plain a b -> endsPlain b r -> endsPlain a r.
Proof.
  intros Hp. destruct r as [[|s|f] l'|e l'|l']; simpl; auto.
  - apply plain_failed; assumption.
  - intros [-> H]. split; [reflexivity|]. apply (plain_trans _ b); assumption.
Qed.

Lemma endsRoot_after (a b : lexer) (r : reply nextState) :
  moved a b -> endsRoot b r -> endsRoot a r.
Proof.
  intros Hm. destruct r as [[|s|f] l'|e l'|l']; simpl; auto.
  - intros [H|H]; [left; apply (moved_trans _ b); assumption|].
    right. apply (plain_failed _ b); [apply moved_plain|]; assumption.
  - intros [H Hs]. split; [apply (moved_trans _ b)|]; assumption.
  - intros [-> H]. split; [reflexivity|].
    apply (plain_trans _ b); [apply moved_plain|]; assumption.
Qed.

Lemma endsPlain_endsRoot (l : lexer) (r : reply nextState) :
  endsPlain l r -> endsRoot l r.
Proof. destruct r as [[|s|f] l'|e l'|l']; simpl; tauto. Qed.

Lemma errorf_plain (format : gostring) (l : lexer) :
  wellFormed l -> endsPlain l (errorf format l).
Proof.
  intros Hwf. rewrite errorf_run. simpl. unfold plainFailed. simpl.
  splits; auto.
  exists [], (mkItem itemError (start l) format (startLine l)). simpl. auto.
Qed.

Lemma emitted_plain (t : itemType) (l : lexer) :
  In t blockTypes -> wellFormed l -> plain l (emitted t l).
Proof.
  intros Ht Hwf. unfold plain. simpl. splits; auto.
  eexists. split; [reflexivity|]. constructor; [exact Ht | constructor].
Qed.

(** ** The text of a block entry *)

Lemma segment_byte (s : gostring) (p : Z) :
  0 <= p < len s -> segment s p (p + 1) = [nth (Z.to_nat p) s x00].
Proof.
  intros Hp. unfold segment. replace (p + 1 - p) with 1 by lia.
  rewrite skipn_cons_nth by assumption. reflexivity.
Qed.

Lemma segment_nth (s : gostring) (lo hi : Z) (j : nat) :
  0 <= lo -> (j < Z.to_nat (hi - lo))%nat ->
  nth j (segment s lo hi) x00 = nth (Z.to_nat lo + j) s x00.
Proof.
  intros Hlo Hj. unfold segment. rewrite nth_firstn.
  destruct (Nat.ltb_spec j (Z.to_nat (hi - lo))); [|lia].
  apply nth_skipn.
Qed.

Lemma HasPrefix_firstn (k : gostring) :
  forall t, strings.HasPrefix t k = true ->
  firstn (length k) t = k /\ (length k <= length t)%nat.
Proof.
  induction k as [|c k IH]; intros t H; simpl.
  - split; [reflexivity | lia].
  - destruct t as [|b t]; simpl in H; [discriminate|].
    apply andb_prop in H. destruct H as [Hb Ht].
    apply Byte.byte_dec_bl in Hb. subst b.
    destruct (IH t Ht) as [E Hl]. simpl. rewrite E. split; [reflexivity | lia].
Qed.

Lemma HasPrefix_segment (s k : gostring) (p : Z) :
  0 <= p <= len s -> strings.HasPrefix (skipn (Z.to_nat p) s) k = true ->
  segment s p (p + len k) = k /\ p + len k <= len s.
Proof.
  intros Hp H. apply HasPrefix_firstn in H. destruct H as [E Hl].
  rewrite length_skipn in Hl. unfold segment.
  replace (Z.to_nat (p + len k - p)) with (length k) by (unfold len; lia).
  split; [exact E | unfold len in *; lia].
Qed.

Lemma asciiString_RuneStart (b : byte) :
  u8 b < utf8.RuneSelf -> utf8.RuneStart (u8 b) = true.
Proof.
  intros H. unfold utf8.RuneSelf in H. rewrite RuneStart_u8.
  destruct (Z.leb_spec 0x80 (u8 b)); [lia | reflexivity].
Qed.

Lemma blockEntry_range (l0 : lexer) :
  blockEntry l0 -> 10 <= pos l0 <= len (input l0).
Proof.
  intros (_ & _ & H). apply slice_inv in H. lia.
Qed.

Lemma body_byte (l0 : lexer) (j : Z) :
  blockEntry l0 -> 1 <= j <= 10 ->
  nth (Z.to_nat (pos l0 - j)) (input l0) x00
  = nth (Z.to_nat (10 - j)) (go "namespace{") x00.
Proof.
  intros (_ & _ & H) Hj. apply slice_inv in H. destruct H as (H1 & H2 & ->).
  fold (segment (input l0) (pos l0 - 10) (pos l0)).
  rewrite segment_nth by lia. f_equal. lia.
Qed.

Lemma body_boundary (l0 : lexer) (j : Z) :
  blockEntry l0 -> 0 <= j <= 3 -> boundary (input l0) (pos l0 - j).
Proof.
  intros Hb Hj. pose proof (blockEntry_range l0 Hb) as Hr.
  destruct (Z.eq_dec j 0) as [->|Hj0].
  { rewrite Z.sub_0_r. destruct Hb as ([H _] & _). exact H. }
  destruct Hb as (Hwf & Hs & Hsl).
  apply (runestart_boundary (input l0) (pos l0) (proj1 Hwf)); [lia|].
  unfold byteAt. rewrite (body_byte l0 j (conj Hwf (conj Hs Hsl))) by lia.
  assert (E : j = 1 \/ j = 2 \/ j = 3) by lia.
  destruct E as [->|[->| ->]]; reflexivity.
Qed.

(** No keyword of the source begins in the three bytes before the block
    body: it would run over the brace. *)
Lemma no_keyword_before_body (l0 : lexer) (k : gostring) (p : Z) :
  blockEntry l0 -> pos l0 - 3 <= p < pos l0 ->
  (3 <= length k)%nat -> ~ In x7b k ->
  strings.HasPrefix (skipn (Z.to_nat p) (input l0)) k = false.
Proof.
  intros Hb Hp Hk Hno. pose proof (blockEntry_range l0 Hb) as Hr.
  destruct (strings.HasPrefix _ k) eqn:H; [exfalso|reflexivity].
  apply HasPrefix_firstn in H. destruct H as [E Hl].
  apply Hno. set (j := Z.to_nat (pos l0 - 1 - p)).
  assert (Hj : (j < length k)%nat) by (unfold j; lia).
  replace x7b with (nth j k x00); [apply nth_In; assumption|].
  rewrite <- E at 1. rewrite nth_firstn.
  destruct (Nat.ltb_spec j (length k)); [|lia].
  rewrite nth_skipn.
  replace (Z.to_nat p + j)%nat with (Z.to_nat (pos l0 - 1)) by (unfold j; lia).
  rewrite (body_byte l0 1 Hb) by lia. reflexivity.
Qed.

(** ** Stepping back near a block entry *)

Lemma backup_floor (l l' : lexer) (F : Z) :
  wellFormed l -> boundary (input l) F -> F < pos l ->
  backup l = Return tt l' -> F <= pos l'.
Proof.
  intros Hwf HF Hlt E.
  destruct (atEOF l) eqn:Ha.
  { rewrite backup_idle in E by auto. injection E as <-. lia. }
  pose proof (boundary_range _ _ HF) as HFr.
  destruct Hwf as [Hb He].
  inversion Hb as [E0|p0 Hb0 Hlt0 E0]; [lia|].
  set (l0 := set_line (line l - (if runeAt (input l) p0 =? 10 then 1 else 0))
                      (set_pos p0 l)).
  assert (Hwf0 : wellFormed l0).
  { unfold l0, wellFormed. simpl. split; [assumption|]. rewrite Ha. discriminate. }
  assert (Hadv : advance l0 = l).
  { unfold advance, l0. simpl.
    destruct l as [nm inp its ln sl pd bd ad p st ae]; simpl in *.
    unfold set_line, set_pos; simpl.
    destruct (runeAt inp p0 =? 10); simpl; f_equal; lia. }
  rewrite <- Hadv in E at 1.
  rewrite backup_advance in E by (auto; unfold l0; simpl; assumption).
  injection E as <-. unfold l0. simpl.
  destruct (Z.le_gt_cases F p0) as [H|H]; [assumption|].
  pose proof (boundary_range _ _ Hb0).
  pose proof (boundary_no_overlap (input l) F (proj1 HFr) p0 HF Hb0 H). lia.
Qed.

Lemma backupTimes_floor (n : nat) :
  forall (l l' : lexer) (F : Z),
  wellFormed l ->
  (forall j, 0 <= j <= Z.of_nat n -> boundary (input l) (F - j)) ->
  F <= pos l -> backupTimes n l = Return tt l' ->
  F - Z.of_nat n <= pos l'.
Proof.
  induction n as [|n IH]; intros l l' F Hwf HF Hle E.
  - injection E as <-. lia.
  - simpl in E.
    destruct (backup_wellFormed l Hwf) as (l1 & E1 & Hwf1 & _).
    pose proof (backup_steady l) as Hs. rewrite E1 in Hs. destruct Hs as (Hi & _).
    simpl in Hi.
    rewrite (bind_return _ _ _ _ _ E1) in E.
    assert (H1 : F - 1 <= pos l1).
    { apply (backup_floor l l1 (F - 1) Hwf); [apply HF; lia | lia | exact E1]. }
    replace (F - Z.of_nat (S n)) with (F - 1 - Z.of_nat n) by lia.
    apply (IH l1 l' (F - 1) Hwf1); [|assumption|assumption].
    intros j Hj. rewrite Hi. replace (F - 1 - j) with (F - (j + 1)) by lia.
    apply HF. lia.
Qed.

Lemma acceptRune_true (expected : rune) (l : lexer) :
  wellFormed l -> ahead l = expected ->
  acceptRune expected l = Return true (taken l).
Proof.
  intros Hwf E. rewrite acceptRune_run by assumption.
  destruct (Z.eqb_spec (ahead l) expected); [reflexivity | contradiction].
Qed.

Lemma acceptRune_false (expected : rune) (l : lexer) :
  wellFormed l -> ahead l <> expected ->
  acceptRune expected l = Return false (looked l).
Proof.
  intros Hwf E. rewrite acceptRune_run by assumption.
  destruct (Z.eqb_spec (ahead l) expected); [contradiction | reflexivity].
Qed.

(** The brace that [acceptRune('{')] has read is one byte, and no newline. *)
Lemma brace_ahead (l : lexer) :
  wellFormed l -> ahead l = 123 ->
  pos l < len (input l) /\ taken l = advance l /\
  pos (advance l) = pos l + 1 /\ wellFormed (advance l) /\
  nth (Z.to_nat (pos l)) (input l) x00 = x7b.
Proof.
  intros Hwf E. pose proof (wellFormed_range l Hwf) as Hr.
  assert (Hin : pos l < len (input l)).
  { destruct (Z.le_gt_cases (len (input l)) (pos l)) as [H|H]; [|assumption].
    rewrite ahead_at_end in E by assumption. discriminate. }
  rewrite ahead_inside in E by assumption.
  destruct (rune_ascii_inv (input l) (pos l)) as [Hb Hw];
    [lia | rewrite E; unfold utf8.RuneSelf; lia |].
  destruct (advance_fields l) as (_ & _ & _ & _ & _ & _ & Ap & _).
  split; [assumption|]. split; [apply taken_inside; assumption|].
  split; [lia|]. split; [apply wellFormed_advance; assumption|].
  apply u8_inj. unfold byteAt in Hb. rewrite Hb, E. reflexivity.
Qed.

Section Body.

Variable IsLetter IsDigit : rune -> bool.
Hypothesis tables : unicodeTables IsLetter IsDigit.

Let alphaNumeric := isAlphaNumeric IsLetter IsDigit.

Lemma acceptIdentifier_after_keyword (l : lexer) :
  wellFormed l -> alphaNumeric (ahead l) = false ->
  acceptIdentifier IsLetter IsDigit l = Return false (looked l).
Proof.
  intros Hwf Ha. pose proof (acceptIdentifier_run IsLetter IsDigit tables l Hwf) as H.
  unfold alphaNumeric, isAlphaNumeric in Ha.
  destruct (ahead l =? 95); [discriminate|].
  destruct (IsLetter (ahead l)); [discriminate|]. exact H.
Qed.

(** One test for a keyword in [lexBlockFn]: when the keyword is found, it
    lies in the block body; when it is not, [pos] is at most three bytes
    before the body. *)
Lemma keyword_in_body (k : gostring) (l0 l : lexer) :
  blockEntry l0 -> inBody l0 l ->
  asciiString k -> (3 <= length k)%nat -> ~ In x7b k ->
  exists b l',
    acceptKeyword IsLetter IsDigit k l = Return b l' /\
    (b = true ->
     pos l0 <= pos l /\ moved l0 l' /\ pos l' = pos l + len k /\
     alphaNumeric (ahead l') = false /\
     segment (input l0) (pos l) (pos l') = k) /\
    (b = false -> inBody l0 l').
Proof.
  intros Hb0 [Hm Hp] Hk Hlen Hno.
  pose proof Hm as (Hi & Hit & Hs & Hsl & Hwf).
  pose proof (wellFormed_range l Hwf) as Hr.
  pose proof (blockEntry_range l0 Hb0) as Hr0.
  destruct (acceptKeyword_run IsLetter IsDigit k l Hk Hwf) as (Hf & Ht & Ha).
  pose proof (acceptKeyword_steady IsLetter IsDigit k l) as Hst.
  assert (Hmv : forall b l', acceptKeyword IsLetter IsDigit k l = Return b l' ->
                             moved l0 l').
  { intros b l' E. rewrite E in Hst.
    apply (moved_trans _ l); [assumption | apply steady_moved; assumption]. }
  destruct (strings.HasPrefix (skipn (Z.to_nat (pos l)) (input l)) k) eqn:Hfound.
  - (* the keyword is at [pos] *)
    assert (Hge : pos l0 <= pos l).
    { destruct (Z.le_gt_cases (pos l0) (pos l)) as [H|H]; [assumption|].
      rewrite Hi, (no_keyword_before_body l0 k (pos l)) in Hfound
        by (auto; lia).
      discriminate. }
    destruct (HasPrefix_segment (input l) k (pos l)) as [Hseg Hq]; [lia|assumption|].
    destruct (Z.le_gt_cases (len (input l)) (pos l + len k)) as [Hend|Hmore].
    + destruct (Ht eq_refl (or_introl Hend)) as (l' & rs & E & _ & _ & Hpos & Hin & Hwf').
      exists true, l'. split; [exact E|]. split; [|discriminate]. intros _.
      splits; auto.
      * apply (Hmv _ _ E).
      * rewrite ahead_at_end by (rewrite Hin, Hpos; assumption).
        apply (isAlphaNumeric_eof _ _ tables).
      * rewrite Hpos, <- Hi. exact Hseg.
    + destruct (alphaNumeric (runeAt (input l) (pos l + len k))) eqn:Han.
      * (* an alphanumeric rune follows: too many steps back *)
        specialize (Ha eq_refl Hmore Han).
        pose proof (widthAt_bounds (input l) (pos l + len k)) as Hw.
        pose proof (len_nonneg k).
        set (n := Z.to_nat (widthAt (input l) (pos l + len k) - 1)) in *.
        destruct (backupTimes_wellFormed n l Hwf) as (l' & E' & Hwf' & Hin').
        rewrite (bind_return _ _ _ _ _ E') in Ha.
        exists false, l'. split; [exact Ha|]. split; [discriminate|]. intros _.
        split; [apply (Hmv _ _ Ha)|].
        assert (Hfl : pos l0 - Z.of_nat n <= pos l').
        { apply (backupTimes_floor n l l' (pos l0) Hwf); [|assumption|exact E'].
          intros j Hj. rewrite Hi. apply body_boundary; [assumption|].
          unfold n in Hj. lia. }
        unfold n in Hfl. lia.
      * destruct (Ht eq_refl (or_intror Han)) as (l' & rs & E & _ & _ & Hpos & Hin & Hwf').
        exists true, l'. split; [exact E|]. split; [|discriminate]. intros _.
        splits; auto.
        -- apply (Hmv _ _ E).
        -- rewrite ahead_inside by (rewrite Hin, Hpos; assumption).
           rewrite Hin, Hpos. exact Han.
        -- rewrite Hpos, <- Hi. exact Hseg.
  - (* another text *)
    destruct (Hf eq_refl) as (l' & E & Hor).
    exists false, l'. split; [exact E|]. split; [discriminate|]. intros _.
    pose proof (Hmv _ _ E) as Hm'. split; [assumption|].
    destruct Hor as [[Hin ->]|(Hat & Hwf' & Hin')].
    + destruct (advance_fields l) as (_ & _ & _ & _ & _ & _ & Ap & _).
      pose proof (widthAt_bounds (input l) (pos l)). lia.
    + destruct Hwf' as [_ He]. specialize (He Hat). rewrite Hin', Hi in He. lia.
Qed.

End Body.

Lemma advance_moved (l : lexer) :
  wellFormed l -> pos l < len (input l) -> moved l (advance l).
Proof.
  intros Hwf Hin. destruct (advance_fields l) as (H1 & H2 & H3 & H4 & _).
  unfold moved. splits; auto. apply wellFormed_advance; assumption.
Qed.

Lemma looked_moved (l : lexer) : wellFormed l -> moved l (looked l).
Proof.
  intros Hwf. destruct (looked_fields l) as (H1 & H2 & H3 & H4 & _).
  unfold moved. splits; auto. apply looked_wellFormed; assumption.
Qed.

Lemma taken_moved (l : lexer) : wellFormed l -> moved l (taken l).
Proof.
  intros Hwf. destruct (Z.le_gt_cases (len (input l)) (pos l)) as [H|H].
  - rewrite taken_at_end, <- looked_at_end by assumption.
    apply looked_moved; assumption.
  - rewrite taken_inside by assumption. apply advance_moved; assumption.
Qed.

(** ** [lexNamespaceFn] and [lexBlockFn] from their entries *)

Section Block.

Variable IsLetter IsDigit : rune -> bool.
Hypothesis tables : unicodeTables IsLetter IsDigit.

Let alphaNumeric := isAlphaNumeric IsLetter IsDigit.

(** The brace after a keyword that has been sent. *)
Lemma brace_after_keyword (l : lexer) :
  wellFormed l -> start l = pos l -> ahead l = 123 ->
  acceptRune 123 l = Return true (advance l) /\
  emit itemOpenBrace (advance l) = Return tt (emitted itemOpenBrace (advance l)) /\
  plain l (emitted itemOpenBrace (advance l)) /\
  input (emitted itemOpenBrace (advance l)) = input l /\
  pos (emitted itemOpenBrace (advance l)) = pos l + 1 /\
  nth (Z.to_nat (pos l)) (input l) x00 = x7b.
Proof.
  intros Hwf Hs Hb. pose proof (wellFormed_range l Hwf) as Hr.
  destruct (brace_ahead l Hwf Hb) as (Hin & Et & Hp1 & Hwf1 & Hbyte).
  destruct (advance_fields l) as (Ai & _ & As & _).
  split; [rewrite <- Et; apply acceptRune_true; assumption|].
  split; [apply emit_ok; [assumption | rewrite As, Hp1; lia]|].
  split.
  { apply (plain_trans _ (advance l));
      [apply moved_plain, advance_moved; assumption|].
    apply emitted_plain; [simpl; auto | assumption]. }
  split; [exact Ai|]. split; [exact Hp1 | exact Hbyte].
Qed.

Lemma lexNamespaceFn_over_plain (lexBlockFn : M nextState) :
  (forall l, blockEntry l -> endsPlain l (lexBlockFn l)) ->
  forall l, afterNamespace alphaNumeric l ->
            endsPlain l (lexNamespaceFn_over IsLetter IsDigit lexBlockFn l).
Proof.
  intros HB l ((Hwf & Hs & Ha) & Hns). unfold lexNamespaceFn_over. cbv zeta.
  destruct (Z.eq_dec (ahead l) 123) as [Hb|Hb].
  - destruct (brace_after_keyword l Hwf Hs Hb) as (E1 & E2 & Hpl & Hi2 & Hp2 & Hbyte).
    rewrite (bind_return _ _ _ _ _ E1). rewrite (bind_return _ _ _ _ _ E2).
    apply (endsPlain_after l _ _ Hpl). apply HB.
    destruct Hpl as (_ & _ & Hwf2).
    split; [assumption|]. split; [reflexivity|].
    rewrite Hi2, Hp2. apply slice_inv in Hns. destruct Hns as (H1 & H2 & Ens).
    destruct (brace_ahead l Hwf Hb) as (Hin & _).
    rewrite slice_segment by lia. f_equal.
    replace (pos l + 1 - 10) with (pos l - 9) by lia.
    rewrite (segment_split (input l) (pos l - 9) (pos l) (pos l + 1)) by lia.
    rewrite segment_byte by lia. rewrite Hbyte.
    unfold segment. rewrite <- Ens. reflexivity.
  - rewrite (bind_return _ _ _ _ _ (acceptRune_false 123 l Hwf Hb)).
    assert (Ei : acceptIdentifier IsLetter IsDigit (looked l) = Return false (looked l)).
    { rewrite <- (looked_looked l) at 2.
      apply (acceptIdentifier_after_keyword IsLetter IsDigit tables);
        [apply looked_wellFormed; assumption | rewrite ahead_looked; exact Ha]. }
    rewrite (bind_return _ _ _ _ _ Ei).
    apply (endsPlain_after l (looked l));
      [apply moved_plain, looked_moved; assumption|].
    apply errorf_plain, looked_wellFormed. assumption.
Qed.

(** [emit] after a keyword found in the block body. *)
Lemma emit_after_keyword (t : itemType) (l0 l l' : lexer) (k : gostring) :
  blockEntry l0 -> In t blockTypes ->
  pos l0 <= pos l -> moved l0 l' -> pos l' = pos l + len k ->
  alphaNumeric (ahead l') = false ->
  emit t l' = Return tt (emitted t l') /\
  plain l0 (emitted t l') /\
  afterKeyword alphaNumeric (emitted t l').
Proof.
  intros Hb0 Ht Hge Hm Hpos Han.
  pose proof (blockEntry_range l0 Hb0) as Hr0. pose proof (len_nonneg k).
  destruct Hb0 as (_ & Hs0 & _).
  pose proof Hm as (Hi & Hit & Hs & Hsl & Hwf).
  split; [apply emit_ok; [assumption | lia]|].
  split.
  { apply (plain_trans _ l'); [apply moved_plain; assumption|].
    apply emitted_plain; assumption. }
  split; [apply emitted_wellFormed; assumption|]. split; [reflexivity|exact Han].
Qed.

(** After [struct] the identifier is never there; the brace is. *)
Lemma struct_tail (l : lexer) :
  afterKeyword alphaNumeric l ->
  endsPlain l
    ((id <- acceptIdentifier IsLetter IsDigit;;
      (if id then emit itemIdentifier else ret tt);;
      b <- acceptRune 123;;
      if negb b then errorf (go "Badly formed struct") else
      emit itemOpenBrace;;
      ret (Tail lexStruct)) l).
Proof.
  intros (Hwf & Hs & Ha).
  rewrite (bind_return _ _ _ _ _
             (acceptIdentifier_after_keyword IsLetter IsDigit tables l Hwf Ha)).
  mstep.
  pose proof (looked_wellFormed l Hwf) as Hwf1.
  destruct (looked_fields l) as (_ & _ & Hs1 & _ & Hp1 & _).
  apply (endsPlain_after l (looked l));
    [apply moved_plain, looked_moved; assumption|].
  destruct (Z.eq_dec (ahead (looked l)) 123) as [Hb|Hb].
  - destruct (brace_after_keyword (looked l) Hwf1) as (E1 & E2 & Hpl & _);
      [congruence | assumption |].
    rewrite (bind_return _ _ _ _ _ E1). cbn [negb].
    rewrite (bind_return _ _ _ _ _ E2). simpl. split; [reflexivity | exact Hpl].
  - rewrite (bind_return _ _ _ _ _ (acceptRune_false 123 _ Hwf1 Hb)). cbn [negb].
    apply (endsPlain_after _ (looked (looked l)));
      [apply moved_plain, looked_moved; assumption|].
    apply errorf_plain, looked_wellFormed. assumption.
Qed.

(** After [class] and [enum] the identifier is never there. *)
Lemma anonymous_tail (format : gostring) (rest : M nextState) (l : lexer) :
  afterKeyword alphaNumeric l ->
  endsPlain l
    ((id <- acceptIdentifier IsLetter IsDigit;;
      if negb id then errorf format else rest) l).
Proof.
  intros (Hwf & Hs & Ha).
  rewrite (bind_return _ _ _ _ _
             (acceptIdentifier_after_keyword IsLetter IsDigit tables l Hwf Ha)).
  cbn [negb].
  apply (endsPlain_after l (looked l));
    [apply moved_plain, looked_moved; assumption|].
  apply errorf_plain, looked_wellFormed. assumption.
Qed.

Lemma namespace_no_brace : ~ In x7b (go "namespace").
Proof. simpl. intuition discriminate. Qed.

Lemma struct_no_brace : ~ In x7b (go "struct").
Proof. simpl. intuition discriminate. Qed.

Lemma class_no_brace : ~ In x7b (go "class").
Proof. simpl. intuition discriminate. Qed.

Lemma enum_no_brace : ~ In x7b (go "enum").
Proof. simpl. intuition discriminate. Qed.

Lemma keyword_is_ascii (k : String.string) :
  forallb (fun b => u8 b <? utf8.RuneSelf) (go k) = true -> asciiString (go k).
Proof.
  intros H. unfold asciiString. rewrite forallb_forall in H.
  apply Forall_forall. intros b Hb. apply Z.ltb_lt, H, Hb.
Qed.

Lemma lexBlockFn_over_plain (lexNamespaceFn : M nextState) :
  (forall l, afterNamespace alphaNumeric l -> endsPlain l (lexNamespaceFn l)) ->
  forall l0, blockEntry l0 ->
             endsPlain l0 (lexBlockFn_over IsLetter IsDigit lexNamespaceFn l0).
Proof.
  intros HN l0 Hb0. unfold lexBlockFn_over.
  pose proof (blockEntry_range l0 Hb0) as Hr0.
  assert (H0 : inBody l0 l0).
  { split; [apply moved_refl; destruct Hb0; assumption | lia]. }
  (* namespace *)
  destruct (keyword_in_body IsLetter IsDigit tables (go "namespace") l0 l0 Hb0 H0
              (keyword_is_ascii "namespace" eq_refl)) as (b & l1 & E1 & Ht1 & Hf1);
    [simpl; lia | apply namespace_no_brace |].
  rewrite (bind_return _ _ _ _ _ E1). destruct b.
  { destruct (Ht1 eq_refl) as (Hge & Hm & Hpos & Han & Hseg).
    destruct (emit_after_keyword itemNamespace l0 l0 l1 (go "namespace") Hb0) as (Ee & Hpl & Hak);
      [simpl; tauto | lia | assumption | exact Hpos | exact Han |].
    rewrite (bind_return _ _ _ _ _ Ee).
    apply (endsPlain_after l0 _ _ Hpl). apply HN. split; [exact Hak|].
    change (input (emitted itemNamespace l1)) with (input l1).
    change (pos (emitted itemNamespace l1)) with (pos l1).
    destruct Hm as (Hi & _ & _ & _ & Hwf1).
    pose proof (wellFormed_range l1 Hwf1).
    change (len (go "namespace")) with 9 in Hpos.
    rewrite slice_segment by lia. f_equal.
    rewrite Hi. replace (pos l1 - 9) with (pos l0) by lia. exact Hseg. }
  specialize (Hf1 eq_refl).
  (* struct *)
  destruct (keyword_in_body IsLetter IsDigit tables (go "struct") l0 l1 Hb0 Hf1
              (keyword_is_ascii "struct" eq_refl)) as (b & l2 & E2 & Ht2 & Hf2);
    [simpl; lia | apply struct_no_brace |].
  rewrite (bind_return _ _ _ _ _ E2). destruct b.
  { destruct (Ht2 eq_refl) as (Hge & Hm & Hpos & Han & Hseg).
    destruct (emit_after_keyword itemStruct l0 l1 l2 (go "struct") Hb0) as (Ee & Hpl & Hak);
      [simpl; tauto | lia | assumption | exact Hpos | exact Han |].
    rewrite (bind_return _ _ _ _ _ Ee).
    apply (endsPlain_after l0 _ _ Hpl). apply struct_tail. exact Hak. }
  specialize (Hf2 eq_refl).
  (* class *)
  destruct (keyword_in_body IsLetter IsDigit tables (go "class") l0 l2 Hb0 Hf2
              (keyword_is_ascii "class" eq_refl)) as (b & l3 & E3 & Ht3 & Hf3);
    [simpl; lia | apply class_no_brace |].
  rewrite (bind_return _ _ _ _ _ E3). destruct b.
  { destruct (Ht3 eq_refl) as (Hge & Hm & Hpos & Han & Hseg).
    destruct (emit_after_keyword itemClass l0 l2 l3 (go "class") Hb0) as (Ee & Hpl & Hak);
      [simpl; tauto | lia | assumption | exact Hpos | exact Han |].
    rewrite (bind_return _ _ _ _ _ Ee).
    apply (endsPlain_after l0 _ _ Hpl). apply anonymous_tail. exact Hak. }
  specialize (Hf3 eq_refl).
  (* enum *)
  destruct (keyword_in_body IsLetter IsDigit tables (go "enum") l0 l3 Hb0 Hf3
              (keyword_is_ascii "enum" eq_refl)) as (b & l4 & E4 & Ht4 & Hf4);
    [simpl; lia | apply enum_no_brace |].
  rewrite (bind_return _ _ _ _ _ E4). destruct b.
  { destruct (Ht4 eq_refl) as (Hge & Hm & Hpos & Han & Hseg).
    destruct (emit_after_keyword itemEnum l0 l3 l4 (go "enum") Hb0) as (Ee & Hpl & Hak);
      [simpl; tauto | lia | assumption | exact Hpos | exact Han |].
    rewrite (bind_return _ _ _ _ _ Ee).
    apply (endsPlain_after l0 _ _ Hpl). apply anonymous_tail. exact Hak. }
  destruct (Hf4 eq_refl) as [Hm4 _].
  apply (endsPlain_after l0 l4); [apply moved_plain; assumption|].
  apply errorf_plain. destruct Hm4 as (_ & _ & _ & _ & H). exact H.
Qed.

Lemma lexBlockFn_fuel_plain (fuel : nat) :
  forall l, blockEntry l -> endsPlain l (lexBlockFn_fuel IsLetter IsDigit fuel l).
Proof.
  induction fuel as [|fuel IH]; [intros l _; exact I|].
  simpl. apply lexBlockFn_over_plain, lexNamespaceFn_over_plain, IH.
Qed.

Lemma lexBlockFn_plain (l : lexer) :
  blockEntry l -> endsPlain l (lexBlockFn IsLetter IsDigit l).
Proof. intros H. unfold lexBlockFn. mstep. apply lexBlockFn_fuel_plain, H. Qed.

Lemma lexNamespaceFn_plain (l : lexer) :
  afterNamespace alphaNumeric l -> endsPlain l (lexNamespaceFn IsLetter IsDigit l).
Proof. apply lexNamespaceFn_over_plain. exact lexBlockFn_plain. Qed.

End Block.

(** ** The states before the first item *)

Lemma root_bind {A} (m : M A) (k : A -> M nextState) (l : lexer) :
  wellFormed l -> safe m -> keeps steady m ->
  (forall a l', moved l l' -> m l = Return a l' -> endsRoot l' (k a l')) ->
  endsRoot l (bind m k l).
Proof.
  intros Hwf Hm Hs Hk. destruct (Hm l Hwf) as (a & l' & E).
  rewrite (bind_return _ _ _ _ _ E).
  specialize (Hs l). rewrite E in Hs.
  pose proof (steady_moved _ _ Hwf Hs) as Hmv.
  apply (endsRoot_after l l' _ Hmv). apply Hk; assumption.
Qed.

Lemma moved_wellFormed (l l' : lexer) : moved l l' -> wellFormed l'.
Proof. intros (_ & _ & _ & _ & H). exact H. Qed.

Lemma endsRoot_nil (l : lexer) : wellFormed l -> endsRoot l (ret Nil l).
Proof. intros H. left. apply moved_refl, H. Qed.

Lemma endsRoot_next (s : stateFn) (l : lexer) :
  wellFormed l -> scanning s -> endsRoot l (ret (Next s) l).
Proof. intros H Hs. split; [apply moved_refl, H | exact Hs]. Qed.

Lemma lexLineCommentFn_root (l : lexer) :
  wellFormed l -> endsRoot l (lexLineCommentFn l).
Proof.
  intros Hwf. unfold lexLineCommentFn.
  apply root_bind; auto with safe steady. intros e l1 H1 _.
  apply moved_wellFormed in H1.
  destruct e; [apply endsRoot_nil; assumption|].
  apply root_bind; auto with safe steady. intros nl l2 H2 _.
  apply moved_wellFormed in H2.
  destruct nl; apply endsRoot_next; simpl; auto.
Qed.

Lemma lexEatLineFn_root (l : lexer) :
  wellFormed l -> endsRoot l (lexEatLineFn l).
Proof.
  intros Hwf. unfold lexEatLineFn.
  apply root_bind; auto with safe steady. intros e l1 H1 _.
  apply moved_wellFormed in H1.
  destruct e; [apply endsRoot_nil; assumption|].
  apply root_bind; auto with safe steady. intros nl l2 H2 _.
  apply moved_wellFormed in H2.
  destruct nl; apply endsRoot_next; simpl; auto.
Qed.

Lemma lexBlockCommentFn_root (l : lexer) :
  wellFormed l -> endsRoot l (lexBlockCommentFn l).
Proof.
  intros Hwf. unfold lexBlockCommentFn.
  apply root_bind; auto with safe steady. intros e l1 H1 _.
  apply moved_wellFormed in H1.
  destruct e; [apply endsPlain_endsRoot, errorf_plain; assumption|].
  apply root_bind; auto with safe steady. intros nl l2 H2 _.
  apply moved_wellFormed in H2.
  destruct nl; apply endsRoot_next; simpl; auto.
Qed.

Section Root.

Variable IsLetter IsDigit : rune -> bool.
Hypothesis tables : unicodeTables IsLetter IsDigit.

Lemma lexRootFn_root (l : lexer) :
  wellFormed l -> start l = 0 -> endsRoot l (lexRootFn IsLetter IsDigit l).
Proof.
  intros Hwf Hs. unfold lexRootFn.
  apply root_bind; auto with safe steady. intros e l1 H1 _.
  assert (Hs1 : start l1 = 0) by (destruct H1 as (_ & _ & H & _); congruence).
  apply moved_wellFormed in H1.
  destruct e; [apply endsRoot_nil; assumption|].
  apply root_bind; auto with safe steady. intros sp l2 H2 _.
  assert (Hs2 : start l2 = 0) by (destruct H2 as (_ & _ & H & _); congruence).
  apply moved_wellFormed in H2.
  destruct sp.
  { apply root_bind; auto with safe steady. intros _ l3 H3 _.
    apply endsRoot_next; [apply (moved_wellFormed _ _ H3) | exact I]. }
  apply root_bind; auto with safe steady. intros b1 l3 H3 _.
  assert (Hs3 : start l3 = 0) by (destruct H3 as (_ & _ & H & _); congruence).
  apply moved_wellFormed in H3.
  destruct b1; [apply lexBlockCommentFn_root; assumption|].
  apply root_bind; auto with safe steady. intros b2 l4 H4 _.
  assert (Hs4 : start l4 = 0) by (destruct H4 as (_ & _ & H & _); congruence).
  apply moved_wellFormed in H4.
  destruct b2; [apply lexLineCommentFn_root; assumption|].
  apply root_bind; auto with safe steady. intros b3 l5 H5 _.
  assert (Hs5 : start l5 = 0) by (destruct H5 as (_ & _ & H & _); congruence).
  apply moved_wellFormed in H5.
  destruct b3; [apply lexEatLineFn_root; assumption|].
  destruct (acceptKeyword_ascii IsLetter IsDigit (go "namespace") l5
              namespace_is_ascii H5) as (b & l6 & E & Hwf6 & Hi6 & Hiff & Hpos).
  pose proof (acceptKeyword_steady IsLetter IsDigit (go "namespace") l5) as Hst.
  rewrite E in Hst. simpl in Hst. pose proof (steady_moved _ _ H5 Hst) as Hm6.
  rewrite (bind_return _ _ _ _ _ E).
  apply (endsRoot_after l5 l6 _ Hm6).
  destruct b; [|apply endsPlain_endsRoot, errorf_plain; assumption].
  specialize (Hpos eq_refl). destruct (proj1 Hiff eq_refl) as [Hfound Hfol].
  change (len (go "namespace")) with 9 in *.
  pose proof (wellFormed_range l5 H5) as Hr5.
  pose proof (wellFormed_range l6 Hwf6) as Hr6.
  assert (Hs6 : start l6 = 0) by (destruct Hm6 as (_ & _ & H & _); congruence).
  rewrite (bind_return _ _ _ _ _ (emit_ok itemNamespace l6 Hwf6 ltac:(lia))).
  apply endsPlain_endsRoot.
  apply (endsPlain_after l6 (emitted itemNamespace l6));
    [apply emitted_plain; [simpl; tauto | assumption]|].
  apply (lexNamespaceFn_plain IsLetter IsDigit tables).
  split; [split; [apply emitted_wellFormed; assumption|]; split; [reflexivity|]|].
  - rewrite ahead_emitted.
    destruct (Z.le_gt_cases (len (input l6)) (pos l6)) as [Hend|Hin].
    + rewrite ahead_at_end by assumption. apply (isAlphaNumeric_eof _ _ tables).
    + rewrite ahead_inside by assumption. rewrite Hi6, Hpos. apply Hfol.
      rewrite <- Hi6, <- Hpos. assumption.
  - change (input (emitted itemNamespace l6)) with (input l6).
    change (pos (emitted itemNamespace l6)) with (pos l6).
    destruct (HasPrefix_segment (input l5) (go "namespace") (pos l5)) as [Hseg _];
      [lia | assumption |].
    change (len (go "namespace")) with 9 in Hseg.
    rewrite slice_segment by lia. f_equal.
    rewrite Hi6, Hpos. replace (pos l5 + 9 - 9) with (pos l5) by lia. exact Hseg.
Qed.

Lemma call_root (s : stateFn) (l : lexer) :
  scanning s -> wellFormed l -> start l = 0 ->
  endsRoot l (call IsLetter IsDigit s l).
Proof.
  destruct s; simpl; intros Hsc Hwf Hs; try contradiction.
  - apply lexRootFn_root; assumption.
  - apply lexLineCommentFn_root; assumption.
  - apply lexEatLineFn_root; assumption.
  - apply lexBlockCommentFn_root; assumption.
Qed.

Lemma runsPlain_after (a b : lexer) (o : outcome) :
  moved a b -> runsPlain b o -> runsPlain a o.
Proof.
  intros Hm. destruct o as [l'|f l'|e l'|s l'|s l']; simpl; auto.
  - intros [H|H]; [left; apply (moved_trans _ b); assumption|].
    right. apply (plain_failed _ b); [apply moved_plain|]; assumption.
  - intros [-> H]. split; [reflexivity|].
    apply (plain_trans _ b); [apply moved_plain|]; assumption.
  - apply moved_trans. assumption.
Qed.

Lemma runFrom_plain (fuel : nat) :
  forall (s : stateFn) (l : lexer),
  scanning s -> wellFormed l -> start l = 0 ->
  runsPlain l (runFrom IsLetter IsDigit fuel s l).
Proof.
  induction fuel as [|fuel IH]; intros s l Hsc Hwf Hs; simpl.
  - apply moved_refl. assumption.
  - pose proof (call_root s l Hsc Hwf Hs) as H.
    destruct (call IsLetter IsDigit s l) as [[|s'|f] l'|e l'|l']; simpl in *; auto.
    destruct H as [Hm Hsc'].
    apply (runsPlain_after l l' _ Hm). apply IH; [assumption| |].
    + apply (moved_wellFormed _ _ Hm).
    + destruct Hm as (_ & _ & H & _). congruence.
Qed.

End Root.

(* ================================================================= *)
(** * Invariants of a scan *)

Lemma backup_inv (l : lexer) :
  wellFormed l ->
  backup l = Return tt l \/
  exists l0, wellFormed l0 /\ pos l0 < len (input l0) /\ advance l0 = l /\
             backup l = Return tt l0.
Proof.
  intros Hwf.
  destruct (atEOF l) eqn:Ha; [left; apply backup_idle; auto|].
  destruct (Z.eq_dec (pos l) 0) as [H0|H0];
    [left; apply backup_idle; right; lia|].
  right. destruct Hwf as [Hb He].
  inversion Hb as [E0|p0 Hb0 Hlt0 E0]; [congruence|].
  set (l0 := set_line (line l - (if runeAt (input l) p0 =? 10 then 1 else 0))
                      (set_pos p0 l)).
  assert (Hwf0 : wellFormed l0).
  { unfold l0, wellFormed. simpl. split; [assumption|]. rewrite Ha. discriminate. }
  assert (Hadv : advance l0 = l).
  { unfold advance, l0. simpl.
    destruct l as [nm inp its ln sl pd bd ad p st ae]; simpl in *.
    unfold set_line, set_pos; simpl.
    destruct (runeAt inp p0 =? 10); simpl; f_equal; lia. }
  exists l0. split; [assumption|]. split; [exact Hlt0|]. split; [exact Hadv|].
  rewrite <- Hadv at 1. apply backup_advance; assumption.
Qed.

(** An invariant that [next], [backup], [emit] and [errorf] keep is kept by
    every method made of them, and by a scan. *)
Section Invariant.

Variable Inv : lexer -> Prop.
Hypothesis Inv_next : keeps (holding Inv) next.
Hypothesis Inv_backup : keeps (holding Inv) backup.
Hypothesis Inv_emit : forall t, t <> itemError -> keeps (holding Inv) (emit t).
Hypothesis Inv_errorf : forall format, keeps (holding Inv) (errorf format).

Lemma holding_refl (l : lexer) : holding Inv l l.
Proof. intros H. exact H. Qed.

Lemma holding_trans (a b c : lexer) :
  holding Inv a b -> holding Inv b c -> holding Inv a c.
Proof. unfold holding. auto. Qed.

Ltac kept :=
  repeat (intros;
          first
            [ apply (keeps_ret _ holding_refl)
            | apply (keeps_get _ holding_refl)
            | apply (keeps_lift _ holding_refl)
            | apply (keeps_diverge _ holding_refl)
            | apply Inv_next
            | apply Inv_backup
            | apply Inv_errorf
            | solve [apply Inv_emit; discriminate]
            | solve [auto]
            | apply (keeps_bind _ holding_trans)
            | match goal with
              | |- keeps _ (if ?c then _ else _) => destruct c
              | |- keeps _ (let '(_, _) := ?p in _) => destruct p
              end ]).

Lemma backupTimes_kept (n : nat) : keeps (holding Inv) (backupTimes n).
Proof. induction n; simpl; kept. Qed.

Lemma backupMultiple_kept (count : Z) : keeps (holding Inv) (backupMultiple count).
Proof. apply backupTimes_kept. Qed.

Lemma accept_kept (valid : gostring) : keeps (holding Inv) (accept valid).
Proof. unfold accept. kept. Qed.

Lemma acceptRunLoop_kept (fuel : nat) (valid : gostring) :
  keeps (holding Inv) (acceptRunLoop fuel valid).
Proof. induction fuel; simpl; kept. Qed.

Lemma acceptRun_kept (valid : gostring) : keeps (holding Inv) (acceptRun valid).
Proof. pose proof acceptRunLoop_kept. unfold acceptRun. kept. Qed.

Lemma acceptRune_kept (expected : rune) : keeps (holding Inv) (acceptRune expected).
Proof. unfold acceptRune. kept. Qed.

Lemma acceptStringLoop_kept (steps : list (Z * rune)) :
  keeps (holding Inv) (acceptStringLoop steps).
Proof.
  pose proof backupMultiple_kept.
  induction steps as [|[i c] steps IH]; simpl; kept.
Qed.

Lemma acceptString_kept (s : gostring) : keeps (holding Inv) (acceptString s).
Proof. apply acceptStringLoop_kept. Qed.

Lemma lexer_eof_kept : keeps (holding Inv) lexer_eof.
Proof. unfold lexer_eof. kept. Qed.

Variable IsLetter IsDigit : rune -> bool.

Lemma acceptAlphaNumeric_kept : keeps (holding Inv) (acceptAlphaNumeric IsLetter IsDigit).
Proof. unfold acceptAlphaNumeric. kept. Qed.

Lemma acceptIdentifierLoop_kept (fuel : nat) :
  keeps (holding Inv) (acceptIdentifierLoop IsLetter IsDigit fuel).
Proof. induction fuel; simpl; kept. Qed.

Lemma acceptIdentifier_kept : keeps (holding Inv) (acceptIdentifier IsLetter IsDigit).
Proof. pose proof acceptIdentifierLoop_kept. unfold acceptIdentifier. kept. Qed.

Lemma acceptKeyword_kept (k : gostring) :
  keeps (holding Inv) (acceptKeyword IsLetter IsDigit k).
Proof.
  pose proof acceptString_kept. pose proof lexer_eof_kept.
  pose proof acceptAlphaNumeric_kept. pose proof backupMultiple_kept.
  unfold acceptKeyword. kept.
Qed.

Lemma lexLineCommentFn_kept : keeps (holding Inv) lexLineCommentFn.
Proof.
  pose proof lexer_eof_kept. pose proof accept_kept.
  unfold lexLineCommentFn. kept.
Qed.

Lemma lexEatLineFn_kept : keeps (holding Inv) lexEatLineFn.
Proof.
  pose proof lexer_eof_kept. pose proof accept_kept.
  unfold lexEatLineFn. kept.
Qed.

Lemma lexBlockCommentFn_kept : keeps (holding Inv) lexBlockCommentFn.
Proof.
  pose proof lexer_eof_kept. pose proof accept_kept.
  unfold lexBlockCommentFn. kept.
Qed.

Lemma lexNamespaceFn_over_kept (lexBlockFn : M nextState) :
  keeps (holding Inv) lexBlockFn ->
  keeps (holding Inv) (lexNamespaceFn_over IsLetter IsDigit lexBlockFn).
Proof.
  intros H. pose proof acceptRune_kept. pose proof acceptIdentifier_kept.
  unfold lexNamespaceFn_over. cbv zeta. kept.
Qed.

Lemma lexBlockFn_over_kept (lexNamespaceFn : M nextState) :
  keeps (holding Inv) lexNamespaceFn ->
  keeps (holding Inv) (lexBlockFn_over IsLetter IsDigit lexNamespaceFn).
Proof.
  intros H. pose proof acceptRune_kept. pose proof acceptIdentifier_kept.
  pose proof acceptKeyword_kept.
  unfold lexBlockFn_over. kept.
Qed.

Lemma lexBlockFn_fuel_kept (fuel : nat) :
  keeps (holding Inv) (lexBlockFn_fuel IsLetter IsDigit fuel).
Proof.
  induction fuel as [|fuel IH]; simpl; [kept|].
  apply lexBlockFn_over_kept, lexNamespaceFn_over_kept, IH.
Qed.

Lemma lexBlockFn_kept : keeps (holding Inv) (lexBlockFn IsLetter IsDigit).
Proof. pose proof lexBlockFn_fuel_kept. unfold lexBlockFn. kept. Qed.

Lemma lexNamespaceFn_kept : keeps (holding Inv) (lexNamespaceFn IsLetter IsDigit).
Proof. apply lexNamespaceFn_over_kept, lexBlockFn_kept. Qed.

Lemma lexRootFn_kept : keeps (holding Inv) (lexRootFn IsLetter IsDigit).
Proof.
  pose proof lexer_eof_kept. pose proof accept_kept. pose proof acceptRun_kept.
  pose proof acceptString_kept. pose proof acceptRune_kept.
  pose proof acceptKeyword_kept. pose proof lexNamespaceFn_kept.
  pose proof lexLineCommentFn_kept. pose proof lexEatLineFn_kept.
  pose proof lexBlockCommentFn_kept.
  unfold lexRootFn, acceptSpace. kept.
Qed.

Lemma call_kept (s : stateFn) :
  scanning s -> keeps (holding Inv) (call IsLetter IsDigit s).
Proof.
  destruct s; simpl; intros H; try contradiction.
  - apply lexRootFn_kept.
  - apply lexLineCommentFn_kept.
  - apply lexEatLineFn_kept.
  - apply lexBlockCommentFn_kept.
Qed.

Lemma runFrom_kept (fuel : nat) :
  forall (s : stateFn) (l : lexer),
  scanning s -> Inv l -> Inv (scanner (runFrom IsLetter IsDigit fuel s l)).
Proof.
  induction fuel as [|fuel IH]; intros s l Hsc HI; simpl; [assumption|].
  pose proof (call_kept s Hsc l) as Hk.
  pose proof (call_scanning IsLetter IsDigit s Hsc l) as Hs.
  destruct (call IsLetter IsDigit s l) as [[|s'|f] l'|e l'|l']; simpl in *;
    try (apply Hk; assumption).
  apply IH; [apply Hs | apply Hk; assumption].
Qed.

End Invariant.

(** ** The items tile the input *)

Lemma steady_tiled (l l' : lexer) : steady l l' -> holding tiled l l'.
Proof.
  intros (Hi & Hit & Hs & _) H. unfold tiled in *. rewrite Hi, Hit, Hs. exact H.
Qed.

Lemma emit_tiled (t : itemType) : t <> itemError -> keeps (holding tiled) (emit t).
Proof.
  intros Ht l H. rewrite emit_run.
  destruct (slice (input l) (start l) (pos l)) as [v|e] eqn:Hs; [|exact H].
  unfold tiled in *. simpl.
  apply slice_inv in H. destruct H as (H1 & H2 & EX).
  apply slice_inv in Hs. destruct Hs as (H3 & H4 & Ev).
  rewrite filter_app, map_app, concat_app. simpl.
  replace (notError (mkItem t (start l) v (startLine l))) with true
    by (destruct t; try reflexivity; contradiction).
  simpl. rewrite app_nil_r, EX, Ev.
  rewrite slice_ok by lia. f_equal. rewrite !Z.sub_0_r. simpl skipn.
  replace (Z.to_nat (pos l)) with (Z.to_nat (start l) + Z.to_nat (pos l - start l))%nat
    by lia.
  apply firstn_plus.
Qed.

Lemma errorf_tiled (format : gostring) : keeps (holding tiled) (errorf format).
Proof.
  intros l H. rewrite errorf_run. unfold tiled in *. simpl.
  rewrite filter_app. simpl. rewrite app_nil_r. exact H.
Qed.

Lemma runFrom_tiled (IsLetter IsDigit : rune -> bool) (fuel : nat)
      (s : stateFn) (l : lexer) :
  scanning s -> tiled l -> tiled (scanner (runFrom IsLetter IsDigit fuel s l)).
Proof.
  apply (runFrom_kept tiled).
  - intros l0. apply steady_tiled, next_steady.
  - intros l0. apply steady_tiled, backup_steady.
  - apply emit_tiled.
  - apply errorf_tiled.
Qed.

(** ** The lines of the items *)

Lemma lineOf_advance (s : gostring) (p : Z) :
  0 <= p < len s ->
  lineOf s (p + widthAt s p) = lineOf s p + (if runeAt s p =? 10 then 1 else 0).
Proof.
  intros Hp. pose proof (widthAt_bounds s p Hp) as Hw. unfold lineOf.
  replace (Z.to_nat (p + widthAt s p))
    with (Z.to_nat p + Z.to_nat (p + widthAt s p - p))%nat by lia.
  rewrite firstn_plus, CountNewlines_app.
  fold (segment s p (p + widthAt s p)). rewrite newlines_of_rune by assumption.
  lia.
Qed.

Lemma advance_lineCounted (l : lexer) :
  wellFormed l -> pos l < len (input l) ->
  (lineCounted l <-> lineCounted (advance l)).
Proof.
  intros Hwf Hin. pose proof (wellFormed_range l Hwf) as Hr.
  destruct (advance_fields l) as (Ai & Ait & As & Asl & _ & _ & Ap & Al).
  pose proof (lineOf_advance (input l) (pos l) (conj (proj1 Hr) Hin)) as HL.
  pose proof (wellFormed_advance l Hwf Hin) as Hwf'.
  unfold lineCounted. rewrite Ai, Ait, As, Asl, Ap, Al, HL.
  split; intros (_ & H1 & H2 & H3); splits; auto; lia.
Qed.

Lemma next_lineCounted : keeps (holding lineCounted) next.
Proof.
  intros l H. pose proof H as (Hwf & _). rewrite next_run by assumption. simpl.
  destruct (Z.le_gt_cases (len (input l)) (pos l)) as [Hend|Hin].
  - rewrite taken_at_end by assumption.
    destruct H as (_ & H1 & H2 & H3). unfold lineCounted. simpl.
    splits; auto. apply wellFormed_atEOF; assumption.
  - rewrite taken_inside by assumption.
    apply (proj1 (advance_lineCounted l Hwf Hin)). exact H.
Qed.

Lemma backup_lineCounted : keeps (holding lineCounted) backup.
Proof.
  intros l H. pose proof H as (Hwf & _).
  destruct (backup_inv l Hwf) as [E|(l0 & Hwf0 & Hin0 & Ea & E)]; rewrite E; simpl.
  - exact H.
  - apply (proj2 (advance_lineCounted l0 Hwf0 Hin0)). rewrite Ea. exact H.
Qed.

Lemma emit_lineCounted (t : itemType) : keeps (holding lineCounted) (emit t).
Proof.
  intros l H. rewrite emit_run.
  destruct (slice (input l) (start l) (pos l)) as [v|e]; [|exact H].
  destruct H as (Hwf & H1 & H2 & H3). unfold lineCounted. simpl.
  splits; auto.
  apply Forall_app. split; [assumption|]. constructor; [exact H2 | constructor].
Qed.

Lemma errorf_lineCounted (format : gostring) :
  keeps (holding lineCounted) (errorf format).
Proof.
  intros l H. rewrite errorf_run.
  destruct H as (Hwf & H1 & H2 & H3). unfold lineCounted. simpl.
  splits; auto.
  apply Forall_app. split; [assumption|]. constructor; [exact H2 | constructor].
Qed.

Lemma runFrom_lineCounted (IsLetter IsDigit : rune -> bool) (fuel : nat)
      (s : stateFn) (l : lexer) :
  scanning s -> lineCounted l ->
  lineCounted (scanner (runFrom IsLetter IsDigit fuel s l)).
Proof.
  apply (runFrom_kept lineCounted).
  - apply next_lineCounted.
  - apply backup_lineCounted.
  - intros t _. apply emit_lineCounted.
  - apply errorf_lineCounted.
Qed.

(* ================================================================= *)
(** * The state functions one by one *)

(** ** [strings.ContainsRune] on a set of ASCII bytes *)

Lemma u8_byteOf (z : Z) : u8 (utf8.byteOf z) = z mod 256.
Proof.
  unfold utf8.byteOf, u8.
  pose proof (Z.mod_pos_bound z 256 eq_refl) as Hm.
  destruct (Byte.of_N (Z.to_N (z mod 256))) as [b|] eqn:E.
  - apply Byte.to_of_N in E. rewrite E. lia.
  - apply Byte.of_N_None_iff in E. lia.
Qed.

Lemma high_bit (z : Z) : Z.testbit z 7 = true -> 0x80 <= z mod 256.
Proof.
  intros H. apply Z.testbit_true in H; [|lia].
  change (2 ^ 7) with 128 in H.
  Z.div_mod_to_equations. lia.
Qed.

Lemma lead_byte (c x : Z) :
  Z.testbit c 7 = true -> 0x80 <= u8 (utf8.byteOf (Z.lor c x)).
Proof.
  intros H. rewrite u8_byteOf. apply high_bit.
  rewrite Z.lor_spec, H. reflexivity.
Qed.

Lemma EncodeRune_high (r : rune) :
  ~ (0 <= r < utf8.RuneSelf) ->
  exists b rest, utf8.EncodeRune r = b :: rest /\ 0x80 <= u8 b.
Proof.
  intros Hr. unfold utf8.RuneSelf in Hr. unfold utf8.EncodeRune.
  destruct ((0 <=? r) && (r <=? 0x7F)) eqn:H1.
  { apply andb_prop in H1. destruct H1 as [A B].
    apply Z.leb_le in A, B. lia. }
  destruct ((0 <=? r) && (r <=? 0x7FF)).
  { eexists _, _. split; [reflexivity|]. apply lead_byte. reflexivity. }
  cbv zeta. destruct (_ <=? 0xFFFF).
  - eexists _, _. split; [reflexivity|]. apply lead_byte. reflexivity.
  - eexists _, _. split; [reflexivity|]. apply lead_byte. reflexivity.
Qed.

Lemma Contains_high (valid : gostring) (b : byte) (rest : gostring) :
  asciiString valid -> 0x80 <= u8 b ->
  strings.Contains valid (b :: rest) = false.
Proof.
  intros Hv Hb. induction Hv as [|c valid Hc Hv IH]; [reflexivity|].
  cbn [strings.Contains strings.HasPrefix]. rewrite IH.
  destruct (Byte.eqb c b) eqn:E; [|reflexivity].
  apply Byte.byte_dec_bl in E. subst c. unfold utf8.RuneSelf in Hc. lia.
Qed.

Lemma inSet_outside (valid : gostring) (r : rune) :
  asciiString valid -> ~ (0 <= r < utf8.RuneSelf) -> inSet valid r = false.
Proof.
  intros Hv Hr. unfold inSet. induction Hv as [|c valid Hc Hv IH]; [reflexivity|].
  simpl. rewrite IH. pose proof (u8_range c).
  destruct (Z.eqb_spec (u8 c) r); [lia | reflexivity].
Qed.

Lemma asciiSteps_runes (k : gostring) (r : rune) :
  forall i, existsb (fun ic : Z * rune => snd ic =? r) (asciiSteps i k) = inSet k r.
Proof.
  induction k as [|b k IH]; intros i; [reflexivity|].
  simpl. rewrite IH. reflexivity.
Qed.

(** On a set of ASCII bytes [ContainsRune] looks for the byte of the rune. *)
Lemma ContainsRune_ascii (valid : gostring) (r : rune) :
  asciiString valid -> strings.ContainsRune valid r = inSet valid r.
Proof.
  intros Hv. unfold strings.ContainsRune.
  destruct ((0 <=? r) && (r <? utf8.RuneSelf)) eqn:H1; [reflexivity|].
  assert (Hr : ~ (0 <= r < utf8.RuneSelf)).
  { intros [A B]. apply Z.leb_le in A. apply Z.ltb_lt in B.
    rewrite A, B in H1. discriminate. }
  rewrite (inSet_outside valid r Hv Hr).
  destruct (Z.eqb_spec r utf8.RuneError) as [->|_].
  { rewrite rangeString_ascii, asciiSteps_runes by assumption.
    apply inSet_outside; assumption. }
  destruct (negb (utf8.ValidRune r)); [reflexivity|].
  destruct (EncodeRune_high r Hr) as (b & rest & -> & Hb).
  apply Contains_high; assumption.
Qed.

Lemma newline_is_ascii : asciiString newline.
Proof. repeat constructor. Qed.

Lemma star_slash_is_ascii : asciiString (go "*/").
Proof. repeat constructor. Qed.

Lemma star_slash_is_ascii_open : asciiString (go "/*").
Proof. repeat constructor. Qed.


Lemma blanks_are_ascii : asciiString space_tab_newline /\ asciiString space_newline_tab.
Proof. split; repeat constructor. Qed.

(** ** The comment states *)

(** A state function that tests for the end of the input and then for a rune
    of a set: at a rune outside the set it returns itself and the scanner is
    as before. *)
Lemma comment_state_run (valid : gostring) (atEnd : M nextState)
      (self : stateFn) (l : lexer) :
  asciiString valid -> wellFormed l ->
  (e <- lexer_eof;;
   if e then atEnd else
   found <- accept valid;;
   if found then ret (Next LexRootFn) else ret (Next self)) l
  = if len (input l) <=? pos l then atEnd l
    else if inSet valid (runeAt (input l) (pos l))
         then Return (Next LexRootFn) (advance l)
         else Return (Next self) l.
Proof.
  intros Hv Hwf. rewrite bind_lexer_eof.
  destruct (Z.leb_spec (len (input l)) (pos l)) as [Hend|Hin]; [reflexivity|].
  unfold bind. rewrite accept_run, ContainsRune_ascii by assumption.
  rewrite ahead_inside, taken_inside, looked_inside by assumption.
  destruct (inSet valid (runeAt (input l) (pos l))); reflexivity.
Qed.

(** ** [lexSpaceFn] and [lexSymbolFn] *)

Lemma set_pos_same (l : lexer) : set_pos (pos l) l = l.
Proof. destruct l; reflexivity. Qed.

Lemma lexSpaceLoop_skips (fuel : nat) :
  forall l, 0 <= pos l -> (Z.to_nat (len (input l) - pos l) < fuel)%nat ->
  ~ onlySpaceAhead l ->
  exists q, pos l <= q < len (input l) /\
            lexSpaceLoop fuel l = Return tt (set_pos q l) /\
            Forall (fun b => unicode.IsSpace (u8 b) = true)
                   (segment (input l) (pos l) q) /\
            unicode.IsSpace (u8 (nth (Z.to_nat q) (input l) x00)) = false.
Proof.
  induction fuel as [|fuel IH]; intros l Hp Hf Hn; [lia|].
  simpl. mstep.
  destruct (Z.le_gt_cases (len (input l)) (pos l)) as [Hend|Hin].
  { exfalso. apply Hn. unfold onlySpaceAhead.
    rewrite skipn_all2 by (unfold len in Hend; lia). constructor. }
  rewrite index_inside by lia. mstep. rewrite bind_lexer_eof.
  destruct (Z.leb_spec (len (input l)) (pos l)); [lia|].
  destruct (unicode.IsSpace (u8 (nth (Z.to_nat (pos l)) (input l) x00))) eqn:Hsp;
    cbn [negb andb].
  - mstep. destruct (IH (set_pos (pos l + 1) l)) as (q & Hq & E & Hall & Hnot);
      simpl; try lia.
    { intros Hall. apply Hn. unfold onlySpaceAhead in *. simpl in Hall.
      rewrite (skipn_cons_nth (input l) (pos l)) by lia. constructor; assumption. }
    simpl in *. exists q. split; [lia|]. split; [exact E|]. split; [|exact Hnot].
    rewrite (segment_split (input l) (pos l) (pos l + 1) q) by lia.
    rewrite segment_byte by lia. constructor; assumption.
  - exists (pos l). split; [lia|]. split; [rewrite set_pos_same; reflexivity|].
    split; [rewrite segment_empty; constructor | exact Hsp].
Qed.

Lemma lexSpaceFn_skips (l : lexer) :
  0 <= start l <= pos l -> ~ onlySpaceAhead l ->
  exists q l',
    lexSpaceFn l = Return (Next LexRootFn) l' /\
    pos l <= q < len (input l) /\
    Forall (fun b => unicode.IsSpace (u8 b) = true) (segment (input l) (pos l) q) /\
    unicode.IsSpace (u8 (nth (Z.to_nat q) (input l) x00)) = false /\
    pos l' = q /\ start l' = q /\
    line l' = line l + strings.CountNewlines (segment (input l) (start l) q) /\
    startLine l' = line l' /\ items l' = items l /\ input l' = input l.
Proof.
  intros Hs Hn. unfold lexSpaceFn. mstep.
  destruct (lexSpaceLoop_skips (S (length (input l))) l) as (q & Hq & E & Hall & Hnot);
    [lia | unfold len; lia | assumption |].
  rewrite (bind_return _ _ _ _ _ E). unfold ignore. mstep. simpl.
  rewrite slice_segment by lia. mstep.
  eexists q, _. split; [reflexivity|]. simpl. splits; auto; lia.
Qed.

(** ** Blank input *)

Lemma blank_rune (text : gostring) (p : Z) :
  Forall (fun b => In b space_tab_newline) text -> 0 <= p < len text ->
  inSet space_tab_newline (runeAt text p) = true /\
  inSet space_newline_tab (runeAt text p) = true.
Proof.
  intros Hall Hp. rewrite Forall_forall in Hall.
  assert (Hb : In (nth (Z.to_nat p) text x00) space_tab_newline).
  { apply Hall, nth_In. unfold len in Hp. lia. }
  destruct (rune_of_ascii_byte text p Hp) as [Hr _].
  { unfold byteAt. simpl in Hb. destruct Hb as [<-|[<-|[<-|[]]]]; reflexivity. }
  rewrite Hr. unfold byteAt.
  simpl in Hb. destruct Hb as [<-|[<-|[<-|[]]]]; split; reflexivity.
Qed.

Lemma runFrom_input (IsLetter IsDigit : rune -> bool) (fuel : nat)
      (s : stateFn) (l : lexer) :
  input (scanner (runFrom IsLetter IsDigit fuel s l)) = input l.
Proof.
  pose proof (runFrom_well IsLetter IsDigit fuel s l) as H.
  destruct (runFrom IsLetter IsDigit fuel s l); simpl in *;
    try (destruct H as (H & _); exact H).
  destruct H as [H|H]; destruct H as (H & _); exact H.
Qed.

Lemma lex_lineCounted (name text : gostring) : lineCounted (lex name text).
Proof.
  unfold lineCounted. simpl. split; [apply wellFormed_lex|]. auto.
Qed.

Lemma lex_tiled (name text : gostring) : tiled (lex name text).
Proof. unfold tiled. simpl. apply slice_ok; pose proof (len_nonneg text); lia. Qed.

Lemma blank_input_run (IsLetter IsDigit : rune -> bool) (name text : gostring)
      (fuel : nat) :
  Forall (fun b => In b space_tab_newline) text ->
  exists l', run IsLetter IsDigit (S (S fuel)) (lex name text) = Closed l' /\
             moved (lex name text) l' /\ pos l' = len text.
Proof.
  intros Hall. pose proof (wellFormed_lex name text) as Hwf.
  set (l := lex name text) in *.
  destruct (Z.le_gt_cases (len text) 0) as [Hempty|Hne].
  { exists l. unfold run. cbn [runFrom call]. unfold lexRootFn.
    rewrite bind_lexer_eof.
    destruct (Z.leb_spec (len (input l)) (pos l)) as [_|H]; [|simpl in H; lia].
    split; [reflexivity|]. split; [apply moved_refl; assumption|].
    simpl. pose proof (len_nonneg text). lia. }
  assert (Hin : pos l < len (input l)) by (simpl; lia).
  destruct (blank_rune text 0 Hall) as [Hb1 _]; [lia|].
  destruct (acceptRun_run space_newline_tab (advance l)
              (wellFormed_advance l Hwf Hin)) as (l2 & E2 & Hread).
  destruct Hread as (Hrun & Ha & _ & Hi & Hit & Hs & Hsl & Hwf2).
  assert (E1 : lexRootFn IsLetter IsDigit l = Return (Next LexRootFn) l2).
  { unfold lexRootFn. rewrite bind_lexer_eof.
    destruct (Z.leb_spec (len (input l)) (pos l)) as [H|_]; [lia|].
    unfold acceptSpace.
    assert (Ea : accept space_tab_newline l = Return true (advance l)).
    { rewrite accept_run, ContainsRune_ascii by (auto; apply blanks_are_ascii).
      rewrite ahead_inside, taken_inside by assumption.
      change (inSet space_tab_newline (runeAt text 0) = true) in Hb1.
      simpl input. simpl pos. rewrite Hb1. reflexivity. }
    rewrite (bind_return _ _ _ _ _ Ea). rewrite (bind_return _ _ _ _ _ E2).
    reflexivity. }
  destruct (advance_fields l) as (Ai & Ait & As & Asl & _).
  assert (Hend : len (input l2) <= pos l2).
  { destruct (Z.le_gt_cases (len (input l2)) (pos l2)) as [H|H]; [assumption|].
    exfalso. rewrite ahead_inside in Ha by assumption.
    rewrite ContainsRune_ascii in Ha by apply blanks_are_ascii.
    pose proof (wellFormed_range l2 Hwf2) as Hr2.
    rewrite Hi, Ai in Ha, H. change (input l) with text in Ha, H.
    destruct (blank_rune text (pos l2) Hall) as [_ Hb2]; [lia|].
    rewrite Hb2 in Ha. discriminate. }
  exists l2. split.
  - unfold run. cbn [runFrom call]. fold l. rewrite E1. cbn [runFrom call].
    unfold lexRootFn. rewrite bind_lexer_eof.
    destruct (Z.leb_spec (len (input l2)) (pos l2)) as [_|H]; [reflexivity|lia].
  - split; [unfold moved; splits; congruence|].
    pose proof (wellFormed_range l2 Hwf2). rewrite Hi, Ai in *. simpl in *. lia.
Qed.

(** ** [lexNamespaceFn] after the keyword *)


(** ** The turns of the loop of [run] *)





Section Progress.

Variable IsLetter IsDigit : rune -> bool.




End Progress.

(** ** [lexRootFn] at the keyword *)

Lemma HasPrefix_rune (s k : gostring) (p : Z) (i : nat) :
  asciiString k -> 0 <= p <= len s ->
  strings.HasPrefix (skipn (Z.to_nat p) s) k = true -> (i < length k)%nat ->
  p + Z.of_nat i < len s /\
  runeAt s (p + Z.of_nat i) = u8 (nth i k x00) /\
  widthAt s (p + Z.of_nat i) = 1.
Proof.
  intros Hk Hp H Hi. apply HasPrefix_firstn in H. destruct H as [E Hl].
  rewrite length_skipn in Hl.
  assert (Hin : p + Z.of_nat i < len s) by (unfold len in *; lia).
  assert (Hb : byteAt s (Z.to_nat (p + Z.of_nat i)) = u8 (nth i k x00)).
  { unfold byteAt. f_equal.
    replace (nth i k x00)
      with (nth i (firstn (length k) (skipn (Z.to_nat p) s)) x00)
      by (rewrite E; reflexivity).
    rewrite nth_firstn.
    destruct (Nat.ltb_spec i (length k)); [|lia].
    rewrite nth_skipn. f_equal. lia. }
  destruct (rune_of_ascii_byte s (p + Z.of_nat i)) as [Hr Hw]; [lia| |].
  - rewrite Hb. unfold asciiString in Hk. rewrite Forall_forall in Hk.
    apply Hk, nth_In, Hi.
  - rewrite Hr, Hb. auto.
Qed.

(** [lexRootFn] entered at the keyword: the tests for the two comments eat
    its first two runes, and the keyword is not found at the third. *)
Lemma lexRootFn_at_the_keyword (IsLetter IsDigit : rune -> bool) (l : lexer) :
  wellFormed l ->
  strings.HasPrefix (skipn (Z.to_nat (pos l)) (input l)) (go "namespace") = true ->
  lexRootFn IsLetter IsDigit l
  = errorf (go "Expected namespace") (advance (advance (advance l))) /\
  pos (advance (advance (advance l))) = pos l + 3 /\
  items (advance (advance (advance l))) = items l /\
  start (advance (advance (advance l))) = start l /\
  startLine (advance (advance (advance l))) = startLine l.
Proof.
  intros Hwf Hfound. pose proof (wellFormed_range l Hwf) as Hr.
  pose proof (fun i => HasPrefix_rune (input l) (go "namespace") (pos l) i
                         namespace_is_ascii Hr Hfound) as Hrune.
  destruct (Hrune 0%nat) as (I0 & R0 & W0); [simpl; lia|].
  destruct (Hrune 1%nat) as (I1 & R1 & W1); [simpl; lia|].
  destruct (Hrune 2%nat) as (I2 & R2 & W2); [simpl; lia|].
  change (Z.of_nat 0) with 0 in *. change (Z.of_nat 1) with 1 in *.
  change (Z.of_nat 2) with 2 in *. rewrite Z.add_0_r in *.
  change (u8 (nth 0 (go "namespace") x00)) with 110 in R0.
  change (u8 (nth 1 (go "namespace") x00)) with 97 in R1.
  change (u8 (nth 2 (go "namespace") x00)) with 109 in R2.
  set (l1 := advance l). set (l2 := advance l1). set (l3 := advance l2).
  destruct (advance_fields l) as (Ai1 & Ait1 & As1 & Asl1 & _ & _ & Ap1 & _).
  fold l1 in Ai1, Ait1, As1, Asl1, Ap1. rewrite W0 in Ap1.
  pose proof (wellFormed_advance l Hwf I0) as Hwf1. fold l1 in Hwf1.
  assert (I1' : pos l1 < len (input l1)) by (rewrite Ai1, Ap1; assumption).
  destruct (advance_fields l1) as (Ai2 & Ait2 & As2 & Asl2 & _ & _ & Ap2 & _).
  fold l2 in Ai2, Ait2, As2, Asl2, Ap2. rewrite Ai1, Ap1, W1 in Ap2.
  pose proof (wellFormed_advance l1 Hwf1 I1') as Hwf2. fold l2 in Hwf2.
  assert (I2' : pos l2 < len (input l2)).
  { rewrite Ai2, Ai1, Ap2. replace (pos l + 1 + 1) with (pos l + 2) by lia.
    assumption. }
  destruct (advance_fields l2) as (Ai3 & Ait3 & As3 & Asl3 & _ & _ & Ap3 & _).
  fold l3 in Ai3, Ait3, As3, Asl3, Ap3.
  replace (pos l + 1 + 1) with (pos l + 2) in Ap2 by lia.
  rewrite Ai2, Ai1, Ap2, W2 in Ap3.
  split; [|splits; try congruence; lia].
  unfold lexRootFn. rewrite bind_lexer_eof.
  destruct (Z.leb_spec (len (input l)) (pos l)) as [H|_]; [lia|].
  (* white space *)
  assert (E1 : acceptSpace l = Return false l).
  { unfold acceptSpace. rewrite accept_run by assumption.
    rewrite ahead_inside, looked_inside by assumption. rewrite R0. reflexivity. }
  rewrite (bind_return _ _ _ _ _ E1).
  (* the comments *)
  assert (E2 : acceptString (go "/*") l = Return false l1).
  { apply acceptString_eats_a_rune; [discriminate | lia |].
    rewrite R0. discriminate. }
  rewrite (bind_return _ _ _ _ _ E2).
  assert (E3 : acceptString (go "//") l1 = Return false l2).
  { apply acceptString_eats_a_rune; [discriminate | lia |].
    rewrite Ai1, Ap1, R1. discriminate. }
  rewrite (bind_return _ _ _ _ _ E3).
  (* the preprocessor line *)
  assert (E4 : acceptRune 35 l2 = Return false l2).
  { rewrite acceptRune_false; [rewrite looked_inside by assumption; reflexivity
                              | assumption |].
    rewrite ahead_inside by assumption. rewrite Ai2, Ai1, Ap2, R2. discriminate. }
  rewrite (bind_return _ _ _ _ _ E4).
  (* the keyword *)
  assert (E5 : acceptKeyword IsLetter IsDigit (go "namespace") l2 = Return false l3).
  { unfold acceptKeyword. mstep.
    assert (E : acceptString (go "namespace") l2 = Return false l3).
    { apply acceptString_eats_a_rune; [discriminate | lia |].
      rewrite Ai2, Ai1, Ap2, R2. discriminate. }
    rewrite (bind_return _ _ _ _ _ E). reflexivity. }
  rewrite (bind_return _ _ _ _ _ E5). reflexivity.
Qed.

(** ** The keyword after blanks *)

Lemma blank_prefix_rune (blanks rest : gostring) (p : Z) :
  Forall (fun b => In b space_tab_newline) blanks -> 0 <= p < len blanks ->
  inSet space_tab_newline (runeAt (blanks ++ rest) p) = true /\
  inSet space_newline_tab (runeAt (blanks ++ rest) p) = true /\
  widthAt (blanks ++ rest) p = 1.
Proof.
  intros Hall Hp. rewrite Forall_forall in Hall.
  assert (Hn : (Z.to_nat p < length blanks)%nat) by (unfold len in Hp; lia).
  assert (Hb : In (nth (Z.to_nat p) (blanks ++ rest) x00) space_tab_newline).
  { rewrite app_nth1 by assumption. apply Hall, nth_In, Hn. }
  destruct (rune_of_ascii_byte (blanks ++ rest) p) as [Hr Hw].
  - rewrite len_app. pose proof (len_nonneg rest). lia.
  - unfold byteAt. simpl in Hb. destruct Hb as [<-|[<-|[<-|[]]]]; reflexivity.
  - rewrite Hr. unfold byteAt.
    simpl in Hb. destruct Hb as [<-|[<-|[<-|[]]]]; splits; auto.
Qed.

(** A run of blanks does not go past a rune that is not a blank. *)
Lemma runOf_stops (blanks rest : gostring) (p q : Z) :
  Forall (fun b => In b space_tab_newline) blanks ->
  strings.ContainsRune space_newline_tab (runeAt (blanks ++ rest) (len blanks)) = false ->
  runOf (strings.ContainsRune space_newline_tab) (blanks ++ rest) p q ->
  p <= len blanks -> q <= len blanks.
Proof.
  intros Hall Hstop Hrun. induction Hrun as [p|p q Hp Ht Hrun IH]; [auto|].
  intros Hle. apply IH.
  destruct (Z.eq_dec p (len blanks)) as [->|Hne]; [congruence|].
  destruct (blank_prefix_rune blanks rest p Hall) as (_ & _ & Hw); lia.
Qed.

Lemma keyword_after_blanks_run (IsLetter IsDigit : rune -> bool)
      (name blanks rest : gostring) (fuel : nat) :
  Forall (fun b => In b space_tab_newline) blanks ->
  exists l',
    run IsLetter IsDigit (S (S fuel)) (lex name (blanks ++ go "namespace" ++ rest))
    = Closed l' /\
    items l' = [mkItem itemError 0 (go "Expected namespace") 1].
Proof.
  intros Hall. set (text := blanks ++ go "namespace" ++ rest).
  pose proof (wellFormed_lex name text) as Hwf. set (l := lex name text) in *.
  pose proof (len_nonneg blanks) as Hb0.
  assert (Hlen : len text = len blanks + 9 + len rest).
  { unfold text. rewrite !len_app. change (len (go "namespace")) with 9. lia. }
  pose proof (len_nonneg rest) as Hr0.
  assert (Hkey : strings.HasPrefix (skipn (Z.to_nat (len blanks)) text)
                                   (go "namespace") = true).
  { unfold text, len. rewrite Nat2Z.id, skipn_app, skipn_all, Nat.sub_diag.
    reflexivity. }
  assert (Hn : runeAt text (len blanks) = 110).
  { destruct (HasPrefix_rune text (go "namespace") (len blanks) 0
                namespace_is_ascii) as (_ & R & _); try assumption; [lia|simpl; lia|].
    change (Z.of_nat 0) with 0 in R. rewrite Z.add_0_r in R. exact R. }
  destruct (Z.eq_dec (len blanks) 0) as [Hempty|Hne].
  { (* no blank at all *)
    destruct (lexRootFn_at_the_keyword IsLetter IsDigit l Hwf) as (E & _ & Hit & Hs & Hsl).
    { change (pos l) with 0. rewrite <- Hempty. exact Hkey. }
    eexists. unfold run. cbn [runFrom call]. fold l. rewrite E, errorf_run.
    split; [reflexivity|]. simpl. rewrite Hit, Hs, Hsl. reflexivity. }
  (* the first turn reads the blanks *)
  assert (Hin : pos l < len (input l)) by (simpl; lia).
  destruct (blank_prefix_rune blanks (go "namespace" ++ rest) 0 Hall)
    as (Hb1 & _ & Hw0); [lia|]. fold text in Hb1, Hw0.
  destruct (acceptRun_run space_newline_tab (advance l)
              (wellFormed_advance l Hwf Hin)) as (l2 & E2 & Hread).
  destruct Hread as (Hrun & Ha & _ & Hi & Hit & Hs & Hsl & Hwf2).
  destruct (advance_fields l) as (Ai & Ait & As & Asl & _ & _ & Ap & _).
  change (input l) with text in *. change (pos l) with 0 in *.
  rewrite Hw0 in Ap. rewrite Ai, Ap in Hrun. rewrite Ai in Hi.
  assert (E1 : lexRootFn IsLetter IsDigit l = Return (Next LexRootFn) l2).
  { unfold lexRootFn. rewrite bind_lexer_eof.
    destruct (Z.leb_spec (len (input l)) (pos l)) as [H|_]; [simpl in H; lia|].
    unfold acceptSpace.
    assert (Ea : accept space_tab_newline l = Return true (advance l)).
    { rewrite accept_run, ContainsRune_ascii by (auto; apply blanks_are_ascii).
      rewrite ahead_inside, taken_inside by assumption.
      change (input l) with text. change (pos l) with 0.
      rewrite Hb1. reflexivity. }
    rewrite (bind_return _ _ _ _ _ Ea). rewrite (bind_return _ _ _ _ _ E2).
    reflexivity. }
  pose proof (wellFormed_range l2 Hwf2) as Hr2. rewrite Hi in Hr2.
  assert (Hpos : pos l2 = len blanks).
  { apply Z.le_antisymm.
    - apply (runOf_stops blanks (go "namespace" ++ rest) 1 (pos l2) Hall);
        [|exact Hrun | lia].
      fold text. rewrite Hn. reflexivity.
    - destruct (Z.le_gt_cases (len blanks) (pos l2)) as [H|H]; [assumption|].
      exfalso. rewrite ahead_inside in Ha by (rewrite Hi; lia).
      rewrite ContainsRune_ascii in Ha by apply blanks_are_ascii.
      rewrite Hi in Ha.
      destruct (blank_prefix_rune blanks (go "namespace" ++ rest) (pos l2) Hall)
        as (_ & Hb2 & _); [lia|].
      fold text in Hb2. rewrite Hb2 in Ha. discriminate. }
  destruct (lexRootFn_at_the_keyword IsLetter IsDigit l2 Hwf2)
    as (E & _ & Hit3 & Hs3 & Hsl3).
  { rewrite Hi, Hpos. exact Hkey. }
  eexists. unfold run. cbn [runFrom call]. fold l. rewrite E1. cbn [runFrom call].
  rewrite E, errorf_run. split; [reflexivity|].
  simpl. rewrite Hit3, Hs3, Hsl3, Hit, Hs, Hsl, Ait, As, Asl. reflexivity.
Qed.

(** ** States within ASCII text *)

Lemma ascii_boundary (s : gostring) (n : nat) :
  (n <= length s)%nat ->
  (forall i, (i < n)%nat -> byteAt s i < utf8.RuneSelf) ->
  boundary s (Z.of_nat n).
Proof.
  induction n as [|n IH]; intros Hn Hall; [constructor|].
  replace (Z.of_nat (S n)) with (Z.of_nat n + 1) by lia.
  apply boundary_single.
  - apply IH; [lia|]. intros i Hi. apply Hall. lia.
  - unfold len. lia.
  - rewrite Nat2Z.id. specialize (Hall n ltac:(lia)).
    unfold utf8.RuneSelf in Hall. lia.
Qed.

Lemma ascii_wellFormed (l : lexer) :
  atEOF l = false -> 0 <= pos l <= len (input l) ->
  (forall i, (i < Z.to_nat (pos l))%nat -> byteAt (input l) i < utf8.RuneSelf) ->
  wellFormed l.
Proof.
  intros Ha Hp Hall. split; [|rewrite Ha; discriminate].
  rewrite <- (Z2Nat.id (pos l)) by lia.
  apply ascii_boundary; [unfold len in Hp; lia | exact Hall].
Qed.
(* ================================================================= *)
(** * The claims of the specification *)

(** C1 (the source does otherwise).  The claim: on an input made of
    whitespace, comments and preprocessor lines followed by the keyword
    [namespace], the scanner started in [lexRootFn] skips the prefix and sends
    an [itemNamespace] item first, not an error item.  The source: on the
    input [namespace], and on the input of a space and [namespace], the only
    item sent is the error item "Expected namespace".  [acceptString] steps
    back [i] runes where it has read [i + 1], so each failed test for a
    comment eats a rune of the keyword. *)
Theorem namespace_keyword_is_rejected
        (IsLetter IsDigit : rune -> bool) (name : gostring) (fuel : nat) :
  (closed (run IsLetter IsDigit (S fuel) (lex name (go "namespace"))) /\
   items (scanner (run IsLetter IsDigit (S fuel) (lex name (go "namespace"))))
   = [mkItem itemError 0 (go "Expected namespace") 1]) /\
  (closed (run IsLetter IsDigit (S (S fuel)) (lex name (go " namespace"))) /\
   items (scanner (run IsLetter IsDigit (S (S fuel)) (lex name (go " namespace"))))
   = [mkItem itemError 0 (go "Expected namespace") 1]).
Proof.
  split; split; vm_compute; solve [exact I | reflexivity].
Qed.

(** C2 (the source does otherwise).  The claim: on every input the loop of
    the state machine ends, also on a line comment or a block comment with
    text in it.  The source: on the block comment [/*x] and on the line
    comment [///x] the loop is still running after any number of turns, in
    the state of the comment, and nothing has been sent.  [accept] steps back
    over the rune it refuses, and neither [lexBlockCommentFn] nor
    [lexLineCommentFn] reads it in another way. *)
Theorem comment_text_is_never_passed
        (IsLetter IsDigit : rune -> bool) (name : gostring) (fuel : nat) :
  (running LexBlockCommentFn
     (run IsLetter IsDigit (S fuel) (lex name (go "/*x"))) /\
   items (scanner (run IsLetter IsDigit (S fuel) (lex name (go "/*x")))) = []) /\
  (running LexLineCommentFn
     (run IsLetter IsDigit (S fuel) (lex name (go "///x"))) /\
   items (scanner (run IsLetter IsDigit (S fuel) (lex name (go "///x")))) = []).
Proof.
  assert (E1 : call IsLetter IsDigit LexRootFn (lex name (go "/*x"))
               = Return (Next LexBlockCommentFn)
                   (mkLexer name (go "/*x") [] 1 1 0 0 0 2 0 false))
    by (vm_compute; reflexivity).
  assert (E2 : call IsLetter IsDigit LexRootFn (lex name (go "///x"))
               = Return (Next LexLineCommentFn)
                   (mkLexer name (go "///x") [] 1 1 0 0 0 3 0 false))
    by (vm_compute; reflexivity).
  unfold run. cbn [runFrom]. rewrite E1, E2.
  rewrite !runFrom_stuck by (vm_compute; reflexivity).
  repeat split.
Qed.

(** C3 (the source does otherwise).  The claim: the text of a keyword or
    symbol token is the characters of the token itself, without the
    whitespace, comments and preprocessor lines skipped before it, and its
    line is the line the token starts on.  The source: on a preprocessor line
    followed by [namespace] on the second line, the [itemNamespace] item
    carries the text of both lines, offset 0 and line 1.  [lexRootFn] never
    calls [ignore], so [start] and [startLine] stay where the skipped text
    began. *)
Theorem namespace_token_holds_skipped_text
        (IsLetter IsDigit : rune -> bool) (name : gostring) (fuel : nat) :
  unicodeTables IsLetter IsDigit ->
  hd_error
    (items (scanner (run IsLetter IsDigit (S fuel)
                         (lex name (preprocessorLine ++ go "namespace")))))
  = Some (mkItem itemNamespace 0 (preprocessorLine ++ go "namespace") 1).
Proof.
  intros H. destruct (unicodeTables_clip _ _ H) as [EL ED].
  rewrite EL, ED. vm_compute. reflexivity.
Qed.

(** C4, as amended.  The claim: when scanning completes without a lexical
    error, the last item delivered is an [itemEOF] item.  The source: no
    state function sends [itemEOF].  Whatever the input and at whatever turn
    of the loop the scan is looked at, no item delivered is of that type, and
    so the last one is not; a state function of the source entered in any
    state of the scanner adds no such item to those already sent. *)
Theorem scan_sends_no_itemEOF
        (IsLetter IsDigit : rune -> bool) (fuel : nat) (name input : gostring) :
  (forall it,
      In it (items (scanner (run IsLetter IsDigit fuel (lex name input)))) ->
      typ it <> itemEOF) /\
  lastType (items (scanner (run IsLetter IsDigit fuel (lex name input))))
  <> Some itemEOF /\
  (forall (state : stateFn) (l : lexer),
      exists new,
        items (scanner (runFrom IsLetter IsDigit fuel state l)) = items l ++ new /\
        Forall (fun it => typ it <> itemEOF) new).
Proof.
  assert (Hall : forall it,
             In it (items (scanner (run IsLetter IsDigit fuel (lex name input)))) ->
             typ it <> itemEOF).
  { intros it Hin. unfold run in Hin.
    destruct (runFrom_adds_no_EOF IsLetter IsDigit fuel LexRootFn (lex name input))
      as (new & E & Hnew).
    rewrite E in Hin. simpl in Hin. rewrite Forall_forall in Hnew.
    apply (Hnew it Hin). }
  split; [exact Hall|]. split.
  - intros Hlast. apply lastType_In in Hlast. destruct Hlast as (it & Hin & Ht).
    apply (Hall it Hin Ht).
  - intros state l. apply runFrom_adds_no_EOF.
Qed.

(** C5.  If the scanner sends an error item, that item is the last one sent:
    at whatever turn of the loop the scan is looked at, nothing follows an
    error item on the channel, and [run] has left its loop and closed the
    channel. *)
Theorem error_item_is_last
        (IsLetter IsDigit : rune -> bool) (fuel : nat) (name input : gostring)
        (before after : list item) (it : item) :
  items (scanner (run IsLetter IsDigit fuel (lex name input)))
  = before ++ it :: after ->
  typ it = itemError ->
  after = [] /\ exists l, run IsLetter IsDigit fuel (lex name input) = Closed l.
Proof.
  unfold run. intros Hitems Herr.
  pose proof (runFrom_well IsLetter IsDigit fuel LexRootFn (lex name input)) as H.
  assert (Hq : forall l', quiet (lex name input) l' ->
                          items l' = before ++ it :: after -> False).
  { intros l' (_ & (new & E & Hall) & _) E'. simpl in E. rewrite E in E'.
    apply (token_not_error _ _ it Hall); [|assumption].
    rewrite E'. apply in_elt. }
  destruct (runFrom IsLetter IsDigit fuel LexRootFn (lex name input)) as [l'|f l'|e l'|s l'|s l'];
    simpl in *; try (exfalso; apply (Hq _ H Hitems)).
  destruct H as [H|H]; [exfalso; apply (Hq _ H Hitems)|].
  split; [|eauto].
  destruct H as (_ & (new & e & E & Hall & He) & _). simpl in E.
  rewrite E in Hitems.
  destruct after as [|a after]; [reflexivity|exfalso].
  destruct (@exists_last _ (a :: after)) as (after' & z & Ea); [discriminate|].
  rewrite Ea, app_comm_cons, app_assoc in Hitems.
  apply app_inj_tail in Hitems. destruct Hitems as [Hn _].
  apply (token_not_error _ _ it Hall); [|assumption].
  rewrite Hn. apply in_elt.
Qed.

(** C6 (the source does otherwise).  The claim: in a block body [class] and
    [enum] without an identifier give an error item, while after [struct]
    and [namespace] a brace is accepted at once and the open-brace item is
    sent.  The source: on a block body that begins with [struct{] the scan
    ends in the error item "Expected namespace, struct, class, or enum.";
    the keyword [struct] is never recognised there, because the failed test
    for [namespace] before it has eaten its first rune (the defect of C1). *)
Theorem anonymous_struct_is_rejected
        (IsLetter IsDigit : rune -> bool) (name : gostring) (fuel : nat) :
  unicodeTables IsLetter IsDigit ->
  let o := run IsLetter IsDigit (S fuel)
               (lex name (preprocessorLine ++ go "namespace{struct{")) in
  closed o /\
  map typ (items (scanner o)) = [itemNamespace; itemOpenBrace; itemError] /\
  last (map val (items (scanner o))) []
  = go "Expected namespace, struct, class, or enum.".
Proof.
  intros H. destruct (unicodeTables_clip _ _ H) as [EL ED].
  rewrite EL, ED. vm_compute. repeat split.
Qed.

(** C7.  In every state the scanner reaches, when [next] returns a rune
    other than [eof], a [backup] right after it puts [pos] and [line] back to
    what they were before the [next]; when the rune is a newline, [backup]
    takes one off the line counter. *)
Theorem backup_undoes_next (l l1 : lexer) (r : rune) :
  wellFormed l -> next l = Return r l1 -> r <> eof ->
  exists l2,
    backup l1 = Return tt l2 /\
    pos l2 = pos l /\ line l2 = line l /\
    (r = 10 -> line l2 = line l1 - 1).
Proof.
  intros Hwf Hnext Hr. pose proof (wellFormed_range l Hwf) as Hp.
  destruct (Z.le_gt_cases (len (input l)) (pos l)) as [Hend|Hin].
  { rewrite next_at_end in Hnext by assumption. congruence. }
  rewrite next_inside in Hnext by lia. injection Hnext as <- <-.
  exists l. rewrite backup_advance by assumption.
  split; [reflexivity|]. split; [reflexivity|]. split; [reflexivity|].
  intros E. unfold advance. rewrite E. simpl. lia.
Qed.

(** C8.  Every item sent by [emit] has [val == input[pos : pos+len(val)]],
    whatever its type; so has every item of a scan that is not an error
    item (those are sent by [errorf]). *)
Theorem emitted_text_is_verbatim
        (IsLetter IsDigit : rune -> bool) (fuel : nat) (name text : gostring) :
  (forall t l l',
      emit t l = Return tt l' ->
      exists it, items l' = items l ++ [it] /\ typ it = t /\
                 slice (input l') (item_pos it) (item_pos it + len (val it))
                 = Ok (val it)) /\
  (forall it,
      In it (items (scanner (run IsLetter IsDigit fuel (lex name text)))) ->
      typ it <> itemError ->
      slice text (item_pos it) (item_pos it + len (val it)) = Ok (val it)).
Proof.
  split.
  - intros t l l' E. destruct (emit_verbatim t l l' E) as (it & H1 & H2 & H3 & _).
    exists it. auto.
  - unfold run. intros it Hin Hne.
    pose proof (runFrom_well IsLetter IsDigit fuel LexRootFn (lex name text)) as H.
    assert (Hq : forall l', quiet (lex name text) l' -> In it (items l') ->
                            verbatim text it).
    { intros l' (_ & (new & E & Hall) & _) Hi. simpl in E, Hall. rewrite E in Hi.
      rewrite Forall_forall in Hall. apply (Hall it Hi). }
    destruct (runFrom IsLetter IsDigit fuel LexRootFn (lex name text));
      simpl in *; try (apply (Hq _ H Hin)).
    destruct H as [H|H]; [apply (Hq _ H Hin)|].
    destruct H as (_ & (new & e & E & Hall & He) & _). simpl in E, Hall.
    rewrite E in Hin. apply in_app_or in Hin. destruct Hin as [Hi|[<-|[]]].
    + rewrite Forall_forall in Hall. apply (Hall it Hi).
    + contradiction.
Qed.
(** C9.  On a keyword [k] of the source (bytes below [utf8.RuneSelf]) and in
    every state the scanner reaches, [acceptKeyword(k)] returns, and it
    returns [true] exactly when the input at [pos] begins with [k] and the
    rune after it, if there is one, is neither a letter nor a digit nor an
    underscore; [pos] has then advanced by [len(k)].  When the byte after
    the keyword is below [utf8.RuneSelf], the result is [false] exactly when
    that byte is one of [A-Z], [a-z], [0-9] and the underscore: a keyword
    that an identifier goes on from, as [struct] in [structure], is not
    matched. *)
Theorem acceptKeyword_spec
        (IsLetter IsDigit : rune -> bool) (k : gostring) (l : lexer) :
  unicodeTables IsLetter IsDigit -> asciiString k -> wellFormed l ->
  exists b l',
    acceptKeyword IsLetter IsDigit k l = Return b l' /\
    (b = true <->
       strings.HasPrefix (skipn (Z.to_nat (pos l)) (input l)) k = true /\
       (pos l + len k < len (input l) ->
        ~ letterDigitOrUnderscore IsLetter IsDigit
            (runeAt (input l) (pos l + len k)))) /\
    (b = true -> pos l' = pos l + len k) /\
    (forall (c : byte) (rest : gostring),
        skipn (Z.to_nat (pos l)) (input l) = k ++ c :: rest ->
        u8 c < utf8.RuneSelf ->
        b = negb (identifierByte c)).
Proof.
  intros tables Hk Hwf.
  destruct (acceptKeyword_ascii IsLetter IsDigit k l Hk Hwf)
    as (b & l' & E & _ & _ & Hiff & Hpos).
  exists b, l'. split; [exact E|]. split; [|split; [exact Hpos|]].
  - rewrite Hiff. split; intros [H1 H2]; (split; [exact H1|]); intros Hlt.
    + apply isAlphaNumeric_words, H2, Hlt.
    + apply isAlphaNumeric_words, H2, Hlt.
  - intros c rest Eq Hc.
    destruct (rune_after_keyword (input l) k rest c (pos l)
                (wellFormed_range l Hwf) Eq Hc) as (Hp & Hlt & Hr).
    rewrite Hr, (isAlphaNumeric_byte IsLetter IsDigit c tables Hc) in Hiff.
    destruct (identifierByte c); simpl.
    + destruct b; [|reflexivity].
      destruct (proj1 Hiff eq_refl) as [_ H]. discriminate (H Hlt).
    + apply Hiff. split; [exact Hp | reflexivity].
Qed.

(** C10.  [lexSymbolFn] and [lexSpaceFn] read [input[pos]] before any test
    for the end of the input: at the end of the input both panic with an
    index out of range, [lexSymbolFn] returns whenever [pos] is inside the
    input, and [lexSpaceFn] returns exactly when a byte that is not a space
    comes before the end.  The other state functions, those that [run] goes
    through from [lexRootFn], never index out of range.  They test [eof()]
    first: at the end of the input they read nothing, return [nil] and leave
    the scanner as it is, [lexBlockCommentFn] after its error item.  And
    they read through [next], which tests for the end before it reads: at
    the end it returns [eof] and only sets [atEOF]; inside the input the rune
    it reads lies within the input.  The methods built on [next] return in
    every state the scanner reaches. *)
Theorem index_is_unchecked_in_lexSymbolFn_and_lexSpaceFn
        (IsLetter IsDigit : rune -> bool) (l : lexer) :
  0 <= start l <= pos l ->
  (len (input l) <= pos l ->
   lexSymbolFn l = Panicked IndexOutOfRange l /\
   exists l', lexSpaceFn l = Panicked IndexOutOfRange l') /\
  (pos l < len (input l) -> exists s l', lexSymbolFn l = Return s l') /\
  (onlySpaceAhead l -> exists l', lexSpaceFn l = Panicked IndexOutOfRange l') /\
  (~ onlySpaceAhead l -> exists l', lexSpaceFn l = Return (Next LexRootFn) l') /\
  (forall state, scanning state -> boundsChecked (call IsLetter IsDigit state)) /\
  (len (input l) <= pos l ->
   next l = Return eof (set_atEOF true l) /\
   lexer_eof l = Return true l /\
   lexRootFn IsLetter IsDigit l = Return Nil l /\
   lexLineCommentFn l = Return Nil l /\
   lexEatLineFn l = Return Nil l /\
   lexBlockCommentFn l
   = Return Nil
       (set_items (items l ++ [mkItem itemError (start l) (go "Unexpected EOF")
                                      (startLine l)]) l)) /\
  (wellFormed l -> pos l < len (input l) ->
   lexer_eof l = Return false l /\
   exists r l',
     next l = Return r l' /\ r <> eof /\ pos l < pos l' <= len (input l)) /\
  (wellFormed l ->
   (exists r l', peek l = Return r l') /\
   (exists l', backup l = Return tt l') /\
   (forall valid, exists b l', accept valid l = Return b l') /\
   (forall valid, exists l', acceptRun valid l = Return tt l') /\
   (forall s, exists b l', acceptString s l = Return b l')).
Proof.
  intros Hs. destruct (lexSpaceFn_run l Hs) as [Hpanic Hret].
  split; [|split; [|split; [|split; [|split; [|split; [|split]]]]]].
  - intros Hend. split; [apply lexSymbolFn_past_end; assumption|].
    apply Hpanic. unfold onlySpaceAhead.
    rewrite skipn_all2 by (unfold len in Hend; lia). constructor.
  - intros Hin. apply lexSymbolFn_inside; assumption.
  - exact Hpanic.
  - exact Hret.
  - intros state Hsc. destruct state; simpl in *; try contradiction.
    + apply lexRootFn_checked.
    + apply lexLineCommentFn_checked.
    + apply lexEatLineFn_checked.
    + apply lexBlockCommentFn_checked.
  - intros Hend.
    assert (Ee : (len (input l) <=? pos l) = true) by (apply Z.leb_le; exact Hend).
    split; [apply next_at_end; exact Hend|].
    split; [rewrite lexer_eof_run, Ee; reflexivity|].
    unfold lexRootFn, lexLineCommentFn, lexEatLineFn, lexBlockCommentFn.
    rewrite !bind_lexer_eof, Ee. repeat split.
  - intros Hwf Hin. pose proof (wellFormed_range l Hwf) as Hr.
    assert (Ee : (len (input l) <=? pos l) = false) by (apply Z.leb_gt; exact Hin).
    split; [rewrite lexer_eof_run, Ee; reflexivity|].
    exists (runeAt (input l) (pos l)), (advance l).
    split; [apply next_inside; lia|].
    pose proof (runeAt_nonneg (input l) (pos l) (conj (proj1 Hr) Hin)).
    pose proof (widthAt_bounds (input l) (pos l) (conj (proj1 Hr) Hin)).
    destruct (advance_fields l) as (_ & _ & _ & _ & _ & _ & Ap & _).
    unfold eof. split; lia.
  - intros Hwf. split; [|split; [|split; [|split]]].
    + exists (ahead l), (looked l). unfold peek.
      rewrite (bind_return _ _ _ _ _ (next_run l Hwf)).
      rewrite (bind_return _ _ _ _ _ (backup_taken l Hwf)). reflexivity.
    + destruct (backup_safe l Hwf) as ([] & l' & E). exists l'. exact E.
    + intros valid. apply accept_safe; exact Hwf.
    + intros valid. destruct (acceptRun_safe valid l Hwf) as ([] & l' & E).
      exists l'. exact E.
    + intros s. apply acceptString_safe; exact Hwf.
Qed.

(* ================================================================= *)
(** * The claims at concrete inputs *)

(** ** Block bodies at the tables [Latin1] *)

(** What [run] has sent, by type, and the text of the last item. *)
Definition report (o : outcome) : list itemType * gostring :=
  (map typ (items (scanner o)), last (map val (items (scanner o))) []).

(** An anonymous namespace in a block body is accepted: [namespace] is the
    first keyword that [lexBlockFn] tests.  The scan then fails on the end of
    the input. *)
Example anonymous_namespace_in_block :
  report (run Latin1.IsLetter Latin1.IsDigit 1
              (lex [] (preprocessorLine ++ go "namespace{namespace{")))
  = ([itemNamespace; itemOpenBrace; itemNamespace; itemOpenBrace; itemError],
     go "Expected namespace, struct, class, or enum.").
Proof. vm_compute. reflexivity. Qed.

(** The keyword [struct] is recognised one rune into the block body, and an
    anonymous struct is accepted there; the scan goes on in [lexStruct]. *)
Example anonymous_struct_after_a_rune :
  run Latin1.IsLetter Latin1.IsDigit 1
      (lex [] (preprocessorLine ++ go "namespace{xstruct{"))
  = Leaves lexStruct
      (mkLexer [] (preprocessorLine ++ go "namespace{xstruct{")
         [mkItem itemNamespace 0 (preprocessorLine ++ go "namespace") 1;
          mkItem itemOpenBrace 11 (go "{") 2;
          mkItem itemStruct 12 (go "xstruct") 2;
          mkItem itemOpenBrace 19 (go "{") 2]
         2 2 0 0 0 20 20 false).
Proof. vm_compute. reflexivity. Qed.

(** The keywords [class] and [enum] are recognised two and three runes into
    the block body, and without an identifier they are refused. *)
Example anonymous_class_in_block :
  report (run Latin1.IsLetter Latin1.IsDigit 1
              (lex [] (preprocessorLine ++ go "namespace{xxclass{")))
  = ([itemNamespace; itemOpenBrace; itemClass; itemError],
     go "Anonymous classes are illegal.").
Proof. vm_compute. reflexivity. Qed.

Example anonymous_enum_in_block :
  report (run Latin1.IsLetter Latin1.IsDigit 1
              (lex [] (preprocessorLine ++ go "namespace{xxxenum{")))
  = ([itemNamespace; itemOpenBrace; itemEnum; itemError],
     go "Anonymous enums are illegal.").
Proof. vm_compute. reflexivity. Qed.

(** At the keyword itself [class] is not recognised either; the error item
    is the one of the unknown keyword. *)
Example class_at_the_keyword :
  report (run Latin1.IsLetter Latin1.IsDigit 1
              (lex [] (preprocessorLine ++ go "namespace{class{")))
  = ([itemNamespace; itemOpenBrace; itemError],
     go "Expected namespace, struct, class, or enum.").
Proof. vm_compute. reflexivity. Qed.

(** ** Witnesses *)

(** C3 at the tables [Latin1]. *)
Lemma namespace_token_holds_skipped_text_witness :
  unicodeTables Latin1.IsLetter Latin1.IsDigit /\
  hd_error
    (items (scanner (run Latin1.IsLetter Latin1.IsDigit 1
                         (lex [] (preprocessorLine ++ go "namespace")))))
  = Some (mkItem itemNamespace 0 (preprocessorLine ++ go "namespace") 1).
Proof.
  split; [exact Latin1_tables|].
  apply (namespace_token_holds_skipped_text Latin1.IsLetter Latin1.IsDigit [] 0).
  exact Latin1_tables.
Defined.

(** C4, as it is stated, fails on the empty input: [run] leaves its loop at
    the first turn, no error item has been sent, and there is no last item,
    so none of type [itemEOF]. *)
Lemma empty_input_ends_without_EOF :
  exists l,
    (forall IsLetter IsDigit : rune -> bool,
        run IsLetter IsDigit 1 (lex [] []) = Closed l) /\
    Forall (fun it => typ it <> itemError) (items l) /\
    lastType (items l) <> Some itemEOF.
Proof.
  exists (lex [] []). split; [reflexivity|]. split; [constructor | discriminate].
Qed.

(** C5 on the input [namespace]. *)
Lemma error_item_is_last_witness :
  items (scanner (run Latin1.IsLetter Latin1.IsDigit 1 (lex [] (go "namespace"))))
  = [] ++ mkItem itemError 0 (go "Expected namespace") 1 :: [] /\
  typ (mkItem itemError 0 (go "Expected namespace") 1) = itemError /\
  (@nil item = [] /\
   exists l, run Latin1.IsLetter Latin1.IsDigit 1 (lex [] (go "namespace"))
             = Closed l).
Proof.
  split; [vm_compute; reflexivity|]. split; [reflexivity|].
  apply (error_item_is_last Latin1.IsLetter Latin1.IsDigit 1 [] (go "namespace")
           [] [] (mkItem itemError 0 (go "Expected namespace") 1)).
  - vm_compute; reflexivity.
  - reflexivity.
Defined.

(** C6 at the tables [Latin1]. *)
Lemma anonymous_struct_is_rejected_witness :
  unicodeTables Latin1.IsLetter Latin1.IsDigit /\
  closed (run Latin1.IsLetter Latin1.IsDigit 1
              (lex [] (preprocessorLine ++ go "namespace{struct{"))) /\
  map typ (items (scanner (run Latin1.IsLetter Latin1.IsDigit 1
                               (lex [] (preprocessorLine ++ go "namespace{struct{")))))
  = [itemNamespace; itemOpenBrace; itemError] /\
  last (map val (items (scanner (run Latin1.IsLetter Latin1.IsDigit 1
                                     (lex [] (preprocessorLine ++ go "namespace{struct{"))))))
       []
  = go "Expected namespace, struct, class, or enum.".
Proof.
  split; [exact Latin1_tables|].
  apply (anonymous_struct_is_rejected Latin1.IsLetter Latin1.IsDigit [] 0).
  exact Latin1_tables.
Defined.

(** C7 on a newline: [next] reads it and counts line 2, [backup] is back at
    offset 0 on line 1. *)
Lemma backup_undoes_next_witness :
  wellFormed (lex [] [x0a]) /\
  next (lex [] [x0a]) = Return 10 (mkLexer [] [x0a] [] 2 1 0 0 0 1 0 false) /\
  10 <> eof /\
  exists l2,
    backup (mkLexer [] [x0a] [] 2 1 0 0 0 1 0 false) = Return tt l2 /\
    pos l2 = pos (lex [] [x0a]) /\ line l2 = line (lex [] [x0a]) /\
    (10 = 10 -> line l2 = line (mkLexer [] [x0a] [] 2 1 0 0 0 1 0 false) - 1).
Proof.
  split; [apply wellFormed_lex|]. split; [vm_compute; reflexivity|].
  split; [discriminate|].
  apply (backup_undoes_next (lex [] [x0a])
           (mkLexer [] [x0a] [] 2 1 0 0 0 1 0 false) 10).
  - apply wellFormed_lex.
  - vm_compute; reflexivity.
  - discriminate.
Defined.

(** C8 on the keyword [namespace] read from offset 0 to offset 9. *)
Lemma emitted_text_is_verbatim_witness :
  emit itemNamespace (mkLexer [] (go "namespace") [] 1 1 0 0 0 9 0 false)
  = Return tt (mkLexer [] (go "namespace")
                 [mkItem itemNamespace 0 (go "namespace") 1] 1 1 0 0 0 9 9 false) /\
  exists it,
    items (mkLexer [] (go "namespace")
             [mkItem itemNamespace 0 (go "namespace") 1] 1 1 0 0 0 9 9 false)
    = items (mkLexer [] (go "namespace") [] 1 1 0 0 0 9 0 false) ++ [it] /\
    typ it = itemNamespace /\
    slice (input (mkLexer [] (go "namespace")
                    [mkItem itemNamespace 0 (go "namespace") 1] 1 1 0 0 0 9 9 false))
          (item_pos it) (item_pos it + len (val it))
    = Ok (val it).
Proof.
  split; [vm_compute; reflexivity|].
  apply (proj1 (emitted_text_is_verbatim Latin1.IsLetter Latin1.IsDigit 0 [] [])
           itemNamespace (mkLexer [] (go "namespace") [] 1 1 0 0 0 9 0 false)).
  vm_compute; reflexivity.
Defined.

Lemma struct_is_ascii : asciiString (go "struct").
Proof. repeat constructor. Qed.

(** The keyword [struct] is not matched at the start of [structure]. *)
Lemma struct_in_structure :
  acceptKeyword Latin1.IsLetter Latin1.IsDigit (go "struct")
                (lex [] (go "structure"))
  = Return false (lex [] (go "structure")).
Proof. vm_compute. reflexivity. Qed.

(** C9 on the keyword [struct] at the start of [structure], at the tables
    [Latin1]. *)
Lemma acceptKeyword_spec_witness :
  let l := lex [] (go "structure") in
  let k := go "struct" in
  unicodeTables Latin1.IsLetter Latin1.IsDigit /\ asciiString k /\
  wellFormed l /\
  exists b l',
    acceptKeyword Latin1.IsLetter Latin1.IsDigit k l = Return b l' /\
    (b = true <->
       strings.HasPrefix (skipn (Z.to_nat (pos l)) (input l)) k = true /\
       (pos l + len k < len (input l) ->
        ~ letterDigitOrUnderscore Latin1.IsLetter Latin1.IsDigit
            (runeAt (input l) (pos l + len k)))) /\
    (b = true -> pos l' = pos l + len k) /\
    (forall (c : byte) (rest : gostring),
        skipn (Z.to_nat (pos l)) (input l) = k ++ c :: rest ->
        u8 c < utf8.RuneSelf ->
        b = negb (identifierByte c)).
Proof.
  intros l k. split; [exact Latin1_tables|]. split; [exact struct_is_ascii|].
  split; [apply wellFormed_lex|].
  apply (acceptKeyword_spec Latin1.IsLetter Latin1.IsDigit k l).
  - exact Latin1_tables.
  - exact struct_is_ascii.
  - apply wellFormed_lex.
Defined.

(** C10 on a newly made scanner for the input of one space. *)
Lemma index_is_unchecked_witness :
  let l := lex [] (go " ") in
  0 <= start l <= pos l /\
  ((len (input l) <= pos l ->
    lexSymbolFn l = Panicked IndexOutOfRange l /\
    exists l', lexSpaceFn l = Panicked IndexOutOfRange l') /\
   (pos l < len (input l) -> exists s l', lexSymbolFn l = Return s l') /\
   (onlySpaceAhead l -> exists l', lexSpaceFn l = Panicked IndexOutOfRange l') /\
   (~ onlySpaceAhead l -> exists l', lexSpaceFn l = Return (Next LexRootFn) l') /\
   (forall state, scanning state ->
                  boundsChecked (call Latin1.IsLetter Latin1.IsDigit state)) /\
   (len (input l) <= pos l ->
    next l = Return eof (set_atEOF true l) /\
    lexer_eof l = Return true l /\
    lexRootFn Latin1.IsLetter Latin1.IsDigit l = Return Nil l /\
    lexLineCommentFn l = Return Nil l /\
    lexEatLineFn l = Return Nil l /\
    lexBlockCommentFn l
    = Return Nil
        (set_items (items l ++ [mkItem itemError (start l) (go "Unexpected EOF")
                                       (startLine l)]) l)) /\
   (wellFormed l -> pos l < len (input l) ->
    lexer_eof l = Return false l /\
    exists r l',
      next l = Return r l' /\ r <> eof /\ pos l < pos l' <= len (input l)) /\
   (wellFormed l ->
    (exists r l', peek l = Return r l') /\
    (exists l', backup l = Return tt l') /\
    (forall valid, exists b l', accept valid l = Return b l') /\
    (forall valid, exists l', acceptRun valid l = Return tt l') /\
    (forall s, exists b l', acceptString s l = Return b l'))).
Proof.
  intros l. split; [simpl; lia|].
  apply (index_is_unchecked_in_lexSymbolFn_and_lexSpaceFn
           Latin1.IsLetter Latin1.IsDigit l).
  simpl; lia.
Defined.

(* ================================================================= *)
(** * Further properties of the code *)

(** ** The methods of the scanner *)

(** X1.  In every state the scanner reaches [next] returns: [eof] exactly at
    the end of the input, where only [atEOF] is set; elsewhere a rune that is
    not negative, after which [pos] has advanced by one to four bytes without
    passing the end of the input, and [line] by one exactly when the rune is
    a newline.  Nothing is sent and [start] stays. *)
Theorem next_reads_one_rune (l : lexer) :
  wellFormed l ->
  exists r l',
    next l = Return r l' /\ wellFormed l' /\
    input l' = input l /\ items l' = items l /\
    start l' = start l /\ startLine l' = startLine l /\
    (r = eof <-> len (input l) <= pos l) /\
    (len (input l) <= pos l ->
     pos l' = pos l /\ line l' = line l /\ atEOF l' = true) /\
    (pos l < len (input l) ->
     0 <= r /\ 1 <= pos l' - pos l <= 4 /\ pos l' <= len (input l) /\
     line l' = line l + (if r =? 10 then 1 else 0) /\ atEOF l' = atEOF l).
Proof.
  intros Hwf. pose proof (wellFormed_range l Hwf) as Hr.
  exists (ahead l), (taken l). split; [apply next_run; assumption|].
  split; [apply taken_wellFormed; assumption|].
  destruct (taken_moved l Hwf) as (H1 & H2 & H3 & H4 & _).
  splits; auto.
  - apply ahead_eof. lia.
  - intros Hend. rewrite taken_at_end by assumption. simpl. auto.
  - intros Hin. rewrite ahead_inside, taken_inside by assumption.
    destruct (advance_fields l) as (_ & _ & _ & _ & Ae & _ & Ap & Al).
    pose proof (widthAt_bounds (input l) (pos l) (conj (proj1 Hr) Hin)).
    pose proof (runeAt_nonneg (input l) (pos l) (conj (proj1 Hr) Hin)).
    splits; auto; lia.
Qed.

(** X2.  In every state the scanner reaches [peek] returns the rune that
    [next] returns and consumes nothing: [pos], [line], [start] and the items
    are as before.  At the end of the input it sets [atEOF]. *)
Theorem peek_consumes_nothing (l : lexer) :
  wellFormed l ->
  exists r l1 l',
    next l = Return r l1 /\ peek l = Return r l' /\
    pos l' = pos l /\ line l' = line l /\ input l' = input l /\
    items l' = items l /\ start l' = start l /\ startLine l' = startLine l /\
    atEOF l' = atEOF l || (len (input l) <=? pos l).
Proof.
  intros Hwf. exists (ahead l), (taken l), (looked l).
  split; [apply next_run; assumption|].
  split.
  { unfold peek. rewrite (bind_return _ _ _ _ _ (next_run l Hwf)).
    rewrite (bind_return _ _ _ _ _ (backup_taken l Hwf)). reflexivity. }
  destruct (looked_fields l) as (H1 & H2 & H3 & H4 & H5 & H6).
  splits; auto.
  unfold looked. destruct (len (input l) <=? pos l); simpl.
  - rewrite orb_true_r. reflexivity.
  - rewrite orb_false_r. reflexivity.
Qed.

(** X3.  Once [next] has returned [eof] the scanner cannot be moved any
    more: [backup] and [backupMultiple], whatever the count, leave it as it
    is, and [next] returns [eof] again. *)
Theorem scanner_is_fixed_after_eof (l l1 : lexer) (count : Z) :
  wellFormed l -> next l = Return eof l1 ->
  pos l1 = pos l /\ atEOF l1 = true /\
  backup l1 = Return tt l1 /\
  backupMultiple count l1 = Return tt l1 /\
  next l1 = Return eof l1.
Proof.
  intros Hwf E. pose proof (wellFormed_range l Hwf) as Hr.
  rewrite next_run in E by assumption. injection E as Ea El.
  apply ahead_eof in Ea; [|lia]. rewrite taken_at_end in El by assumption.
  subst l1. split; [reflexivity|]. split; [reflexivity|].
  split; [apply backup_idle; left; reflexivity|].
  split; [apply backupTimes_idle; reflexivity|].
  apply (next_at_end (set_atEOF true l)). simpl. assumption.
Qed.

(** X4.  [backupMultiple(n)] after [n] calls of [next] that have not met the
    end of the input puts the scanner back as it was before the first of
    them, line counter included.  A count that is not positive does
    nothing. *)
Theorem backupMultiple_undoes_nexts (l l1 : lexer) (n : nat) (rs : list rune) :
  wellFormed l -> nextTimes n l = Return rs l1 -> ~ In eof rs ->
  backupMultiple (Z.of_nat n) l1 = Return tt l /\
  forall count, count <= 0 -> backupMultiple count l1 = Return tt l1.
Proof.
  intros Hwf E Hne. split.
  - unfold backupMultiple. rewrite Nat2Z.id.
    apply (backupTimes_nextTimes n l l1 rs); assumption.
  - intros count Hc. unfold backupMultiple.
    replace (Z.to_nat count) with 0%nat by lia. reflexivity.
Qed.

(** X5.  [accept], [acceptSpace], [acceptRune] and [acceptAlphaNumeric] read
    one rune: when it passes their test they return [true] and the scanner
    is as [next] has left it; when it does not they return [false] and
    [pos] and [line] are as before.  For a set of ASCII bytes, as all the
    sets of the source are, the test of [accept] is that the rune is one of
    the bytes. *)
Theorem accept_takes_a_rune_of_the_set
        (IsLetter IsDigit : rune -> bool) (valid : gostring) (expected : rune)
        (l : lexer) :
  asciiString valid -> wellFormed l ->
  accept valid l
  = (if inSet valid (ahead l) then Return true (taken l)
     else Return false (looked l)) /\
  acceptSpace l
  = (if inSet space_tab_newline (ahead l) then Return true (taken l)
     else Return false (looked l)) /\
  acceptRune expected l
  = (if ahead l =? expected then Return true (taken l)
     else Return false (looked l)) /\
  acceptAlphaNumeric IsLetter IsDigit l
  = (if isAlphaNumeric IsLetter IsDigit (ahead l) then Return true (taken l)
     else Return false (looked l)) /\
  next l = Return (ahead l) (taken l) /\
  pos (looked l) = pos l /\ line (looked l) = line l.
Proof.
  intros Hv Hwf. destruct (looked_fields l) as (_ & _ & _ & _ & H5 & H6).
  splits; auto.
  - rewrite <- ContainsRune_ascii by assumption. apply accept_run; assumption.
  - rewrite <- ContainsRune_ascii by apply blanks_are_ascii.
    apply accept_run; assumption.
  - apply acceptRune_run; assumption.
  - apply acceptAlphaNumeric_run; assumption.
  - apply next_run; assumption.
Qed.

(** X6.  In every state the scanner reaches [acceptRun(valid)] returns, and
    it has read the longest run of runes of [valid] from [pos]: every rune
    between the old and the new [pos] is in [valid], the rune ahead is not,
    [line] has gone up by the newlines of the run, and nothing is sent. *)
Theorem acceptRun_takes_the_longest_run (valid : gostring) (l : lexer) :
  wellFormed l ->
  exists l',
    acceptRun valid l = Return tt l' /\
    runOf (strings.ContainsRune valid) (input l) (pos l) (pos l') /\
    strings.ContainsRune valid (ahead l') = false /\
    line l' = line l + strings.CountNewlines (segment (input l) (pos l) (pos l')) /\
    input l' = input l /\ items l' = items l /\
    start l' = start l /\ startLine l' = startLine l /\
    wellFormed l'.
Proof.
  intros Hwf. destruct (acceptRun_run valid l Hwf) as (l' & E & H).
  exists l'. split; [exact E | exact H].
Qed.

(** X7.  On a keyword [k] (bytes below [utf8.RuneSelf]) [acceptString(k)]
    returns whether the input at [pos] begins with [k]; when it does, [pos]
    is just behind it.  When it does not, the position is not put back: the
    scanner is left one rune further than it was, as after one [next], or at
    the end of the input with [atEOF] set when the input ends inside the
    keyword.  ([backupMultiple(i)] undoes [i] of the [i + 1] runes read.) *)
Theorem acceptString_failure_eats_a_rune (k : gostring) (l : lexer) :
  asciiString k -> wellFormed l ->
  exists l',
    acceptString k l
    = Return (strings.HasPrefix (skipn (Z.to_nat (pos l)) (input l)) k) l' /\
    (strings.HasPrefix (skipn (Z.to_nat (pos l)) (input l)) k = true ->
     pos l' = pos l + len k) /\
    (strings.HasPrefix (skipn (Z.to_nat (pos l)) (input l)) k = false ->
     (pos l < len (input l) /\ l' = advance l /\ pos l < pos l') \/
     (atEOF l' = true /\ pos l' = len (input l))).
Proof.
  intros Hk Hwf. destruct (acceptString_run k l Hk Hwf) as (l' & E & Ht & Hf).
  exists l'. split; [exact E|]. split.
  - intros H. destruct (Ht H) as (_ & _ & _ & Hp). exact Hp.
  - intros H. destruct (Hf H) as [[Hin ->]|(Ha & Hwf' & Hi)].
    + left. split; [assumption|]. split; [reflexivity|].
      destruct (advance_fields l) as (_ & _ & _ & _ & _ & _ & Ap & _).
      pose proof (wellFormed_range l Hwf).
      pose proof (widthAt_bounds (input l) (pos l)). lia.
    + right. split; [assumption|].
      pose proof (wellFormed_range l' Hwf'). destruct Hwf' as [_ He].
      specialize (He Ha). rewrite Hi in *. lia.
Qed.

(** X8.  [acceptIdentifier] returns [true] exactly when the rune ahead is an
    underscore or a letter; it has then read the longest run of alphanumeric
    runes, at least one.  Otherwise it returns [false] and [pos] and [line]
    are as before. *)
Theorem acceptIdentifier_takes_the_longest_name
        (IsLetter IsDigit : rune -> bool) (l : lexer) :
  unicodeTables IsLetter IsDigit -> wellFormed l ->
  exists b l',
    acceptIdentifier IsLetter IsDigit l = Return b l' /\
    b = (ahead l =? 95) || IsLetter (ahead l) /\
    (b = true ->
     pos l < pos l' /\
     runOf (isAlphaNumeric IsLetter IsDigit) (input l) (pos l) (pos l') /\
     isAlphaNumeric IsLetter IsDigit (ahead l') = false /\
     line l' = line l + strings.CountNewlines (segment (input l) (pos l) (pos l'))) /\
    (b = false -> pos l' = pos l /\ line l' = line l) /\
    input l' = input l /\ items l' = items l /\
    start l' = start l /\ startLine l' = startLine l.
Proof.
  intros tables Hwf.
  pose proof (acceptIdentifier_run IsLetter IsDigit tables l Hwf) as H.
  destruct ((ahead l =? 95) || IsLetter (ahead l)).
  - destruct H as (l' & E & (Hr & Ha & Hl & Hi & Hit & Hs & Hsl & _) & Hp).
    exists true, l'. splits; auto. discriminate.
  - exists false, (looked l).
    destruct (looked_fields l) as (H1 & H2 & H3 & H4 & H5 & H6).
    splits; auto; discriminate.
Qed.

(** X9.  When [acceptKeyword(k)] finds the keyword followed by an
    alphanumeric rune it returns [false] after [backupMultiple(pos - start)],
    a count of bytes used as a count of runes: the scanner is put back to
    where it was when that rune is one byte long, and otherwise stepped back
    from there by one rune for each further byte of it. *)
Theorem acceptKeyword_steps_back_by_bytes
        (IsLetter IsDigit : rune -> bool) (k : gostring) (l : lexer) :
  asciiString k -> wellFormed l ->
  strings.HasPrefix (skipn (Z.to_nat (pos l)) (input l)) k = true ->
  pos l + len k < len (input l) ->
  isAlphaNumeric IsLetter IsDigit (runeAt (input l) (pos l + len k)) = true ->
  exists l',
    acceptKeyword IsLetter IsDigit k l = Return false l' /\
    backupTimes (Z.to_nat (widthAt (input l) (pos l + len k) - 1)) l
    = Return tt l' /\
    (widthAt (input l) (pos l + len k) = 1 -> l' = l).
Proof.
  intros Hk Hwf Hfound Hmore Han.
  destruct (acceptKeyword_run IsLetter IsDigit k l Hk Hwf) as (_ & _ & Ha).
  specialize (Ha Hfound Hmore Han).
  destruct (backupTimes_wellFormed
              (Z.to_nat (widthAt (input l) (pos l + len k) - 1)) l Hwf)
    as (l' & E' & _).
  exists l'. rewrite (bind_return _ _ _ _ _ E') in Ha.
  split; [exact Ha|]. split; [exact E'|].
  intros Hw. rewrite Hw in E'. simpl in E'. injection E' as <-. reflexivity.
Qed.

(** ** The state functions *)

(** X10.  [lexLineCommentFn] and [lexEatLineFn] in a state the scanner
    reaches: at the end of the input they return [nil] and send nothing; at
    a newline they read it and return [lexRootFn]; at any other rune they
    return themselves and leave the scanner as it was, so that [run] calls
    them for ever. *)
Theorem line_states_wait_for_a_newline
        (IsLetter IsDigit : rune -> bool) (l : lexer) :
  wellFormed l ->
  (len (input l) <= pos l ->
   lexLineCommentFn l = Return Nil l /\ lexEatLineFn l = Return Nil l) /\
  (pos l < len (input l) -> runeAt (input l) (pos l) = 10 ->
   lexLineCommentFn l = Return (Next LexRootFn) (advance l) /\
   lexEatLineFn l = Return (Next LexRootFn) (advance l)) /\
  (pos l < len (input l) -> runeAt (input l) (pos l) <> 10 ->
   lexLineCommentFn l = Return (Next LexLineCommentFn) l /\
   lexEatLineFn l = Return (Next LexEatLineFn) l /\
   forall fuel,
     runFrom IsLetter IsDigit fuel LexLineCommentFn l = Running LexLineCommentFn l /\
     runFrom IsLetter IsDigit fuel LexEatLineFn l = Running LexEatLineFn l).
Proof.
  intros Hwf.
  pose proof (comment_state_run newline (ret Nil) LexLineCommentFn l
                newline_is_ascii Hwf) as H1.
  pose proof (comment_state_run newline (ret Nil) LexEatLineFn l
                newline_is_ascii Hwf) as H2.
  fold lexLineCommentFn in H1. fold lexEatLineFn in H2.
  assert (Hset : forall r, inSet newline r = (10 =? r)).
  { intros r. unfold inSet, newline. simpl. apply orb_false_r. }
  rewrite Hset in H1, H2.
  split; [|split].
  - intros Hend. destruct (Z.leb_spec (len (input l)) (pos l)); [|lia]. auto.
  - intros Hin Hr. destruct (Z.leb_spec (len (input l)) (pos l)); [lia|].
    rewrite Hr in H1, H2. auto.
  - intros Hin Hr. destruct (Z.leb_spec (len (input l)) (pos l)); [lia|].
    destruct (Z.eqb_spec 10 (runeAt (input l) (pos l))); [congruence|].
    split; [exact H1|]. split; [exact H2|]. intros fuel.
    split; apply runFrom_stuck; assumption.
Qed.

(** X11.  [lexBlockCommentFn] in a state the scanner reaches: at the end of
    the input it sends the error item "Unexpected EOF" and returns [nil]; at
    a star or at a slash, one rune of the set it passes to [accept], it
    reads that rune and returns [lexRootFn]; at any other rune it returns
    itself and leaves the scanner as it was, so that [run] calls it for
    ever. *)
Theorem block_comment_ends_at_a_star_or_a_slash
        (IsLetter IsDigit : rune -> bool) (l : lexer) :
  wellFormed l ->
  (len (input l) <= pos l ->
   lexBlockCommentFn l
   = Return Nil
       (set_items (items l ++ [mkItem itemError (start l) (go "Unexpected EOF")
                                      (startLine l)]) l)) /\
  (pos l < len (input l) ->
   runeAt (input l) (pos l) = 42 \/ runeAt (input l) (pos l) = 47 ->
   lexBlockCommentFn l = Return (Next LexRootFn) (advance l)) /\
  (pos l < len (input l) ->
   runeAt (input l) (pos l) <> 42 -> runeAt (input l) (pos l) <> 47 ->
   lexBlockCommentFn l = Return (Next LexBlockCommentFn) l /\
   forall fuel,
     runFrom IsLetter IsDigit fuel LexBlockCommentFn l
     = Running LexBlockCommentFn l).
Proof.
  intros Hwf.
  pose proof (comment_state_run (go "*/") (errorf (go "Unexpected EOF"))
                LexBlockCommentFn l star_slash_is_ascii Hwf) as H.
  fold lexBlockCommentFn in H.
  assert (Hset : forall r, inSet (go "*/") r = (42 =? r) || (47 =? r)).
  { intros r. unfold inSet. simpl. rewrite orb_false_r. reflexivity. }
  rewrite Hset in H.
  split; [|split].
  - intros Hend. destruct (Z.leb_spec (len (input l)) (pos l)); [|lia]. exact H.
  - intros Hin Hr. destruct (Z.leb_spec (len (input l)) (pos l)); [lia|].
    destruct Hr as [Hr|Hr]; rewrite Hr in H; exact H.
  - intros Hin H42 H47. destruct (Z.leb_spec (len (input l)) (pos l)); [lia|].
    destruct (Z.eqb_spec 42 (runeAt (input l) (pos l))); [congruence|].
    destruct (Z.eqb_spec 47 (runeAt (input l) (pos l))); [congruence|].
    split; [exact H|]. intros fuel. apply runFrom_stuck. exact H.
Qed.


(** X13.  [lexSpaceFn], when a byte that is not a space comes before the end
    of the input: it returns [lexRootFn] with [pos] at the first such byte;
    the bytes skipped are spaces for [unicode.IsSpace], taken one by one as
    runes; [start] is moved to [pos], [line] has gone up by the newlines
    between the old [start] and the new [pos], and nothing is sent. *)
Theorem lexSpaceFn_skips_the_spaces (l : lexer) :
  0 <= start l <= pos l -> ~ onlySpaceAhead l ->
  exists q l',
    lexSpaceFn l = Return (Next LexRootFn) l' /\
    pos l <= q < len (input l) /\
    Forall (fun b => unicode.IsSpace (u8 b) = true) (segment (input l) (pos l) q) /\
    unicode.IsSpace (u8 (nth (Z.to_nat q) (input l) x00)) = false /\
    pos l' = q /\ start l' = q /\
    line l' = line l + strings.CountNewlines (segment (input l) (start l) q) /\
    startLine l' = line l' /\ items l' = items l /\ input l' = input l.
Proof. apply lexSpaceFn_skips. Qed.

(** ** Whole scans *)

(** X14.  An input of spaces, tabs and newlines only is scanned to its end
    in two turns of the loop of [run]: the channel is closed, no item has
    been sent, and [line] is one more than the number of newlines. *)
Theorem blank_input_is_scanned_silently
        (IsLetter IsDigit : rune -> bool) (name text : gostring) (fuel : nat) :
  Forall (fun b => In b space_tab_newline) text ->
  exists l',
    run IsLetter IsDigit (S (S fuel)) (lex name text) = Closed l' /\
    items l' = [] /\ pos l' = len text /\ start l' = 0 /\
    line l' = 1 + strings.CountNewlines text.
Proof.
  intros Hall.
  destruct (blank_input_run IsLetter IsDigit name text fuel Hall)
    as (l' & E & (Hi & Hit & Hs & _) & Hp).
  exists l'. split; [exact E|]. split; [exact Hit|]. split; [exact Hp|].
  split; [exact Hs|].
  pose proof (runFrom_lineCounted IsLetter IsDigit (S (S fuel)) LexRootFn
                (lex name text) I (lex_lineCounted name text)) as H.
  unfold run in E. rewrite E in H. destruct H as (_ & H & _).
  simpl in H, Hi. rewrite H, Hi, Hp. unfold lineOf, len.
  rewrite Nat2Z.id, firstn_all. reflexivity.
Qed.

(** X15.  At every moment of a scan the texts of the items sent by [emit],
    put together in the order they were sent, are the input from its first
    byte up to [start]: no byte before [start] is missing from the items,
    neither white space nor comments. *)
Theorem items_tile_the_input
        (IsLetter IsDigit : rune -> bool) (fuel : nat) (name text : gostring) :
  slice text 0 (start (scanner (run IsLetter IsDigit fuel (lex name text))))
  = Ok (concat (map val (filter notError
          (items (scanner (run IsLetter IsDigit fuel (lex name text))))))).
Proof.
  pose proof (runFrom_tiled IsLetter IsDigit fuel LexRootFn (lex name text) I
                (lex_tiled name text)) as H.
  unfold tiled in H. rewrite runFrom_input in H. exact H.
Qed.

(** X16.  At every moment of a scan [line] is the line of [pos], one more
    than the number of newlines before it, and every item sent, error items
    included, carries the line of the offset it carries. *)
Theorem item_line_is_the_line_of_its_offset
        (IsLetter IsDigit : rune -> bool) (fuel : nat) (name text : gostring) :
  line (scanner (run IsLetter IsDigit fuel (lex name text)))
  = lineOf text (pos (scanner (run IsLetter IsDigit fuel (lex name text)))) /\
  Forall (fun it => item_line it = lineOf text (item_pos it))
         (items (scanner (run IsLetter IsDigit fuel (lex name text)))).
Proof.
  pose proof (runFrom_lineCounted IsLetter IsDigit fuel LexRootFn (lex name text) I
                (lex_lineCounted name text)) as H.
  unfold lineCounted in H. rewrite runFrom_input in H.
  destruct H as (_ & H1 & _ & H3). split; assumption.
Qed.

(** X17.  A scan never panics: on every input, after any number of turns,
    [run] has not left its loop through an index or a slice out of range.
    ([emit] is only called with [start <= pos].) *)
Theorem scan_never_panics
        (IsLetter IsDigit : rune -> bool) (fuel : nat) (name text : gostring)
        (e : runtimeError) (l' : lexer) :
  unicodeTables IsLetter IsDigit ->
  run IsLetter IsDigit fuel (lex name text) <> Crashed e l'.
Proof.
  intros tables E.
  pose proof (runFrom_plain IsLetter IsDigit tables fuel LexRootFn (lex name text) I
                (wellFormed_lex name text) eq_refl) as H.
  unfold run in E. rewrite E in H. exact H.
Qed.

(** X18.  The items of a scan are of six types: [itemNamespace],
    [itemOpenBrace], [itemStruct], [itemClass], [itemEnum] and [itemError].
    An [itemIdentifier] item is never sent: wherever the source calls
    [acceptIdentifier], [acceptKeyword] has just made sure that the rune
    ahead is not alphanumeric. *)
Theorem scan_sends_no_identifier
        (IsLetter IsDigit : rune -> bool) (fuel : nat) (name text : gostring) :
  unicodeTables IsLetter IsDigit ->
  Forall (fun it => In (typ it) (itemError :: blockTypes))
         (items (scanner (run IsLetter IsDigit fuel (lex name text)))).
Proof.
  intros tables.
  pose proof (runFrom_plain IsLetter IsDigit tables fuel LexRootFn (lex name text) I
                (wellFormed_lex name text) eq_refl) as H.
  pose proof (run_never_starved IsLetter IsDigit tables fuel LexRootFn) as Hst.
  unfold run.
  assert (Hpl : forall l', plain (lex name text) l' ->
                Forall (fun it => In (typ it) (itemError :: blockTypes)) (items l')).
  { intros l' (_ & (new & E & Hall) & _). rewrite E. simpl.
    apply (Forall_impl _ (fun it Hb => or_intror Hb) Hall). }
  assert (Hfl : forall l', plainFailed (lex name text) l' ->
                Forall (fun it => In (typ it) (itemError :: blockTypes)) (items l')).
  { intros l' (_ & (new & e & E & Hall & He) & _). rewrite E. simpl.
    apply Forall_app. split.
    - apply (Forall_impl _ (fun it Hb => or_intror Hb) Hall).
    - constructor; [left; symmetry; exact He | constructor]. }
  destruct (runFrom IsLetter IsDigit fuel LexRootFn (lex name text))
    as [l'|f l'|e l'|s l'|s l'] eqn:E; simpl in *.
  - destruct H as [H|H]; [apply Hpl, moved_plain, H | apply Hfl, H].
  - apply Hpl, H.
  - contradiction.
  - apply Hpl, moved_plain, H.
  - exfalso. apply (Hst s (lex name text) l' (wellFormed_lex name text)).
    exact E.
Qed.

(** X19.  When a scan passes to a state function that the source does not
    define, it is [lexStruct]: [lexClass] and [lexEnum] are never called,
    since a class or an enum is refused as anonymous wherever its keyword is
    found. *)
Theorem scan_never_enters_lexClass_or_lexEnum
        (IsLetter IsDigit : rune -> bool) (fuel : nat) (name text : gostring)
        (f : externFn) (l' : lexer) :
  unicodeTables IsLetter IsDigit ->
  run IsLetter IsDigit fuel (lex name text) = Leaves f l' -> f = lexStruct.
Proof.
  intros tables E.
  pose proof (runFrom_plain IsLetter IsDigit tables fuel LexRootFn (lex name text) I
                (wellFormed_lex name text) eq_refl) as H.
  unfold run in E. rewrite E in H. apply H.
Qed.

(** X20.  Every call of a state function in a scan returns: the loops of
    [acceptRun] and [acceptIdentifier] and the calls of [lexNamespaceFn] and
    [lexBlockFn] to each other end within as many turns as the input has
    bytes, and one more.  A scan that does not end is one that calls a
    state function again and again. *)
Theorem state_functions_return
        (IsLetter IsDigit : rune -> bool) (fuel : nat) (name text : gostring)
        (s : stateFn) (l' : lexer) :
  unicodeTables IsLetter IsDigit ->
  run IsLetter IsDigit fuel (lex name text) <> Starved s l'.
Proof.
  intros tables.
  apply (run_never_starved IsLetter IsDigit tables fuel LexRootFn s
           (lex name text) l' (wellFormed_lex name text)).
Qed.

(** ** The nodes of the syntax tree *)

(** X21.  [NodeType.String] names the ten node types by ten different
    names, none of them "Invalid", and any other value is "Invalid": two
    node types with the same name are the same, unless both are out of
    range. *)
Theorem NodeType_String_tells_the_types_apart (t u : ast.NodeType) :
  (ast.String t = go "Invalid" <-> ~ (ast.NodeRoot <= t <= ast.NodeField)) /\
  (ast.NodeRoot <= t <= ast.NodeField -> ast.String t = ast.String u -> t = u).
Proof.
  assert (Hout : forall v, ~ (0 <= v <= 9) -> ast.String v = go "Invalid").
  { intros v Hv. unfold ast.String, ast.NodeRoot, ast.NodeNamespace, ast.NodeClass,
      ast.NodeStruct, ast.NodeEnum, ast.NodeUsing, ast.NodeAccessSpecifier,
      ast.NodeGroupingDelimiter, ast.NodeMethod, ast.NodeField.
    repeat match goal with
           | |- context [v =? ?c] => destruct (Z.eqb_spec v c); [lia|]
           end.
    reflexivity. }
  assert (Hcases : forall v, 0 <= v <= 9 ->
            v = 0 \/ v = 1 \/ v = 2 \/ v = 3 \/ v = 4 \/
            v = 5 \/ v = 6 \/ v = 7 \/ v = 8 \/ v = 9) by (intros; lia).
  unfold ast.NodeRoot, ast.NodeField. split.
  - split.
    + intros E Hr. apply Hcases in Hr.
      repeat (destruct Hr as [->|Hr]; [discriminate E|]). subst t. discriminate E.
    + apply Hout.
  - intros Hr E. apply Hcases in Hr.
    destruct (Z.le_gt_cases 0 u) as [H0|H0];
      [destruct (Z.le_gt_cases u 9) as [H9|H9]|].
    + assert (Hu : 0 <= u <= 9) by lia. apply Hcases in Hu.
      repeat (destruct Hr as [->|Hr];
              [repeat (destruct Hu as [->|Hu]; [first [reflexivity | discriminate E]|]);
               subst u; first [reflexivity | discriminate E]|]).
      subst t.
      repeat (destruct Hu as [->|Hu]; [first [reflexivity | discriminate E]|]).
      subst u; reflexivity.
    + rewrite (Hout u) in E by lia.
      repeat (destruct Hr as [->|Hr]; [discriminate E|]). subst t. discriminate E.
    + rewrite (Hout u) in E by lia.
      repeat (destruct Hr as [->|Hr]; [discriminate E|]). subst t. discriminate E.
Qed.

(** ** More on whole scans *)


(** X23.  [lexRootFn] never finds the keyword where it stands: entered with
    [namespace] at [pos], it sends the error item "Expected namespace" and
    returns [nil], three runes into the keyword.  The failed tests for the
    two comments have each eaten a rune, and so has the test for the
    keyword. *)
Theorem lexRootFn_misses_the_keyword_at_pos
        (IsLetter IsDigit : rune -> bool) (l : lexer) :
  wellFormed l ->
  strings.HasPrefix (skipn (Z.to_nat (pos l)) (input l)) (go "namespace") = true ->
  exists l',
    lexRootFn IsLetter IsDigit l = Return Nil l' /\
    items l'
    = items l ++ [mkItem itemError (start l) (go "Expected namespace")
                         (startLine l)] /\
    pos l' = pos l + 3.
Proof.
  intros Hwf Hfound.
  destruct (lexRootFn_at_the_keyword IsLetter IsDigit l Hwf Hfound)
    as (E & Hp & Hit & Hs & Hsl).
  rewrite E, errorf_run. eexists. split; [reflexivity|].
  simpl. rewrite Hit, Hs, Hsl, Hp. auto.
Qed.

(** X24.  An input that begins with the keyword [namespace], or with
    spaces, tabs and newlines and then the keyword, is refused whatever
    follows: the scan is over after two turns, and the only item sent is
    the error item "Expected namespace", with offset 0 and line 1. *)
Theorem keyword_after_blanks_is_refused
        (IsLetter IsDigit : rune -> bool) (name blanks rest : gostring)
        (fuel : nat) :
  Forall (fun b => In b space_tab_newline) blanks ->
  exists l',
    run IsLetter IsDigit (S (S fuel)) (lex name (blanks ++ go "namespace" ++ rest))
    = Closed l' /\
    items l' = [mkItem itemError 0 (go "Expected namespace") 1].
Proof. apply keyword_after_blanks_run. Qed.

(** X25.  In a state the scanner reaches, with [atEOF] not set and [pos]
    not at the start of the input, [backup] steps back over exactly one
    rune, and a [next] right after it returns that rune and puts the scanner
    back as it was, line counter included. *)
Theorem next_undoes_backup (l : lexer) :
  wellFormed l -> atEOF l = false -> 0 < pos l ->
  exists l0 r,
    backup l = Return tt l0 /\ next l0 = Return r l /\
    r <> eof /\ pos l0 < pos l <= pos l0 + 4 /\ wellFormed l0.
Proof.
  intros Hwf Ha Hp.
  destruct (backup_inv l Hwf) as [E|(l0 & Hwf0 & Hin0 & Eadv & E)].
  - exfalso. unfold backup in E. revert E. mstep. rewrite Ha.
    destruct (Z.ltb_spec 0 (pos l)) as [_|H]; [|lia]. cbn [negb andb]. mstep.
    pose proof (wellFormed_range l Hwf) as Hr.
    rewrite slice_from_start by lia. mstep.
    destruct (utf8.DecodeLastRuneInString _) as [r w] eqn:D. mstep.
    destruct Hwf as [Hb _]. inversion Hb as [E0|p0 Hb0 Hlt0 E0]; [lia|].
    pose proof (decode_last_after_decode (input l) p0 Hb0 Hlt0) as HD.
    rewrite E0 in HD. rewrite HD in D. injection D as <- <-.
    pose proof (boundary_range _ _ Hb0).
    pose proof (widthAt_bounds (input l) p0).
    destruct (_ =? 10); intros E; injection E as E;
      apply (f_equal pos) in E; simpl in E; lia.
  - pose proof (wellFormed_range l0 Hwf0) as Hr0.
    pose proof (widthAt_bounds (input l0) (pos l0) (conj (proj1 Hr0) Hin0)) as Hw.
    destruct (advance_fields l0) as (_ & _ & _ & _ & _ & _ & Ap & _).
    rewrite Eadv in Ap.
    exists l0, (runeAt (input l0) (pos l0)). split; [exact E|].
    split; [rewrite <- Eadv; apply next_inside; lia|].
    pose proof (runeAt_nonneg (input l0) (pos l0) (conj (proj1 Hr0) Hin0)).
    unfold eof. splits; auto; lia.
Qed.

(* ================================================================= *)
(** * These properties at concrete inputs *)

(** X1 on a newline. *)
Lemma next_reads_one_rune_witness :
  let l := lex [] [x0a] in
  wellFormed l /\
  exists r l',
    next l = Return r l' /\ wellFormed l' /\
    input l' = input l /\ items l' = items l /\
    start l' = start l /\ startLine l' = startLine l /\
    (r = eof <-> len (input l) <= pos l) /\
    (len (input l) <= pos l ->
     pos l' = pos l /\ line l' = line l /\ atEOF l' = true) /\
    (pos l < len (input l) ->
     0 <= r /\ 1 <= pos l' - pos l <= 4 /\ pos l' <= len (input l) /\
     line l' = line l + (if r =? 10 then 1 else 0) /\ atEOF l' = atEOF l).
Proof.
  intros l. split; [apply wellFormed_lex|].
  apply (next_reads_one_rune l). apply wellFormed_lex.
Defined.

(** X2 on a newline. *)
Lemma peek_consumes_nothing_witness :
  let l := lex [] [x0a] in
  wellFormed l /\
  exists r l1 l',
    next l = Return r l1 /\ peek l = Return r l' /\
    pos l' = pos l /\ line l' = line l /\ input l' = input l /\
    items l' = items l /\ start l' = start l /\ startLine l' = startLine l /\
    atEOF l' = atEOF l || (len (input l) <=? pos l).
Proof.
  intros l. split; [apply wellFormed_lex|].
  apply (peek_consumes_nothing l). apply wellFormed_lex.
Defined.

(** X3 on the empty input. *)
Lemma scanner_is_fixed_after_eof_witness :
  let l := lex [] [] in
  let l1 := mkLexer [] [] [] 1 1 0 0 0 0 0 true in
  wellFormed l /\ next l = Return eof l1 /\
  (pos l1 = pos l /\ atEOF l1 = true /\
   backup l1 = Return tt l1 /\
   backupMultiple 3 l1 = Return tt l1 /\
   next l1 = Return eof l1).
Proof.
  intros l l1. split; [apply wellFormed_lex|]. split; [reflexivity|].
  apply (scanner_is_fixed_after_eof l l1 3); [apply wellFormed_lex | reflexivity].
Defined.

(** X4 on two letters. *)
Lemma backupMultiple_undoes_nexts_witness :
  let l := lex [] (go "ab") in
  let l1 := mkLexer [] (go "ab") [] 1 1 0 0 0 2 0 false in
  wellFormed l /\ nextTimes 2 l = Return [97; 98] l1 /\ ~ In eof [97; 98] /\
  (backupMultiple (Z.of_nat 2) l1 = Return tt l /\
   forall count, count <= 0 -> backupMultiple count l1 = Return tt l1).
Proof.
  intros l l1.
  assert (Hne : ~ In eof [97; 98]) by (simpl; intuition discriminate).
  split; [apply wellFormed_lex|]. split; [vm_compute; reflexivity|].
  split; [exact Hne|].
  apply (backupMultiple_undoes_nexts l l1 2 [97; 98]);
    [apply wellFormed_lex | vm_compute; reflexivity | exact Hne].
Defined.

(** X5 on a newline, at the tables [Latin1]. *)
Lemma accept_takes_a_rune_of_the_set_witness :
  let l := lex [] [x0a] in
  asciiString newline /\ wellFormed l /\
  (accept newline l
   = (if inSet newline (ahead l) then Return true (taken l)
      else Return false (looked l)) /\
   acceptSpace l
   = (if inSet space_tab_newline (ahead l) then Return true (taken l)
      else Return false (looked l)) /\
   acceptRune 35 l
   = (if ahead l =? 35 then Return true (taken l)
      else Return false (looked l)) /\
   acceptAlphaNumeric Latin1.IsLetter Latin1.IsDigit l
   = (if isAlphaNumeric Latin1.IsLetter Latin1.IsDigit (ahead l)
      then Return true (taken l) else Return false (looked l)) /\
   next l = Return (ahead l) (taken l) /\
   pos (looked l) = pos l /\ line (looked l) = line l).
Proof.
  intros l. split; [apply newline_is_ascii|]. split; [apply wellFormed_lex|].
  apply (accept_takes_a_rune_of_the_set Latin1.IsLetter Latin1.IsDigit newline 35 l);
    [apply newline_is_ascii | apply wellFormed_lex].
Defined.

(** X6 on two spaces and a letter. *)
Lemma acceptRun_takes_the_longest_run_witness :
  let l := lex [] (go "  x") in
  wellFormed l /\
  exists l',
    acceptRun space_newline_tab l = Return tt l' /\
    runOf (strings.ContainsRune space_newline_tab) (input l) (pos l) (pos l') /\
    strings.ContainsRune space_newline_tab (ahead l') = false /\
    line l' = line l + strings.CountNewlines (segment (input l) (pos l) (pos l')) /\
    input l' = input l /\ items l' = items l /\
    start l' = start l /\ startLine l' = startLine l /\
    wellFormed l'.
Proof.
  intros l. split; [apply wellFormed_lex|].
  apply (acceptRun_takes_the_longest_run space_newline_tab l). apply wellFormed_lex.
Defined.

(** X7 on the test for a block comment at the keyword. *)
Lemma acceptString_failure_eats_a_rune_witness :
  let l := lex [] (go "namespace") in
  let k := go "/*" in
  asciiString k /\ wellFormed l /\
  exists l',
    acceptString k l
    = Return (strings.HasPrefix (skipn (Z.to_nat (pos l)) (input l)) k) l' /\
    (strings.HasPrefix (skipn (Z.to_nat (pos l)) (input l)) k = true ->
     pos l' = pos l + len k) /\
    (strings.HasPrefix (skipn (Z.to_nat (pos l)) (input l)) k = false ->
     (pos l < len (input l) /\ l' = advance l /\ pos l < pos l') \/
     (atEOF l' = true /\ pos l' = len (input l))).
Proof.
  intros l k. split; [apply star_slash_is_ascii_open|].
  split; [apply wellFormed_lex|].
  apply (acceptString_failure_eats_a_rune k l);
    [apply star_slash_is_ascii_open | apply wellFormed_lex].
Defined.

(** X8 on a name, at the tables [Latin1]. *)
Lemma acceptIdentifier_takes_the_longest_name_witness :
  let l := lex [] (go "ab1 c") in
  unicodeTables Latin1.IsLetter Latin1.IsDigit /\ wellFormed l /\
  exists b l',
    acceptIdentifier Latin1.IsLetter Latin1.IsDigit l = Return b l' /\
    b = (ahead l =? 95) || Latin1.IsLetter (ahead l) /\
    (b = true ->
     pos l < pos l' /\
     runOf (isAlphaNumeric Latin1.IsLetter Latin1.IsDigit) (input l) (pos l) (pos l') /\
     isAlphaNumeric Latin1.IsLetter Latin1.IsDigit (ahead l') = false /\
     line l' = line l + strings.CountNewlines (segment (input l) (pos l) (pos l'))) /\
    (b = false -> pos l' = pos l /\ line l' = line l) /\
    input l' = input l /\ items l' = items l /\
    start l' = start l /\ startLine l' = startLine l.
Proof.
  intros l. split; [apply Latin1_tables|]. split; [apply wellFormed_lex|].
  apply (acceptIdentifier_takes_the_longest_name Latin1.IsLetter Latin1.IsDigit l);
    [apply Latin1_tables | apply wellFormed_lex].
Defined.

(** X9 on the keyword followed by a letter of two bytes, at the tables
    [Latin1]: the scanner ends one rune before the keyword. *)
Lemma acceptKeyword_steps_back_by_bytes_witness :
  let l := mkLexer [] (go "{namespace" ++ [xc3; xa9]) [] 1 1 0 0 0 1 1 false in
  let k := go "namespace" in
  asciiString k /\ wellFormed l /\
  strings.HasPrefix (skipn (Z.to_nat (pos l)) (input l)) k = true /\
  pos l + len k < len (input l) /\
  isAlphaNumeric Latin1.IsLetter Latin1.IsDigit (runeAt (input l) (pos l + len k))
  = true /\
  exists l',
    acceptKeyword Latin1.IsLetter Latin1.IsDigit k l = Return false l' /\
    backupTimes (Z.to_nat (widthAt (input l) (pos l + len k) - 1)) l
    = Return tt l' /\
    (widthAt (input l) (pos l + len k) = 1 -> l' = l).
Proof.
  intros l k.
  assert (Hwf : wellFormed l).
  { apply ascii_wellFormed; [reflexivity | vm_compute; split; discriminate |].
    intros i Hi. change (Z.to_nat (pos l)) with 1%nat in Hi.
    destruct i as [|i]; [reflexivity | lia]. }
  split; [apply namespace_is_ascii|]. split; [exact Hwf|].
  split; [reflexivity|]. split; [reflexivity|]. split; [reflexivity|].
  apply (acceptKeyword_steps_back_by_bytes Latin1.IsLetter Latin1.IsDigit k l);
    [apply namespace_is_ascii | exact Hwf | reflexivity | reflexivity | reflexivity].
Defined.

(** X10 on a letter, at the tables [Latin1]. *)
Lemma line_states_wait_for_a_newline_witness :
  let l := lex [] (go "x") in
  wellFormed l /\
  ((len (input l) <= pos l ->
    lexLineCommentFn l = Return Nil l /\ lexEatLineFn l = Return Nil l) /\
   (pos l < len (input l) -> runeAt (input l) (pos l) = 10 ->
    lexLineCommentFn l = Return (Next LexRootFn) (advance l) /\
    lexEatLineFn l = Return (Next LexRootFn) (advance l)) /\
   (pos l < len (input l) -> runeAt (input l) (pos l) <> 10 ->
    lexLineCommentFn l = Return (Next LexLineCommentFn) l /\
    lexEatLineFn l = Return (Next LexEatLineFn) l /\
    forall fuel,
      runFrom Latin1.IsLetter Latin1.IsDigit fuel LexLineCommentFn l
      = Running LexLineCommentFn l /\
      runFrom Latin1.IsLetter Latin1.IsDigit fuel LexEatLineFn l
      = Running LexEatLineFn l)).
Proof.
  intros l. split; [apply wellFormed_lex|].
  apply (line_states_wait_for_a_newline Latin1.IsLetter Latin1.IsDigit l).
  apply wellFormed_lex.
Defined.

(** X11 on a letter, at the tables [Latin1]. *)
Lemma block_comment_ends_at_a_star_or_a_slash_witness :
  let l := lex [] (go "x") in
  wellFormed l /\
  ((len (input l) <= pos l ->
    lexBlockCommentFn l
    = Return Nil
        (set_items (items l ++ [mkItem itemError (start l) (go "Unexpected EOF")
                                       (startLine l)]) l)) /\
   (pos l < len (input l) ->
    runeAt (input l) (pos l) = 42 \/ runeAt (input l) (pos l) = 47 ->
    lexBlockCommentFn l = Return (Next LexRootFn) (advance l)) /\
   (pos l < len (input l) ->
    runeAt (input l) (pos l) <> 42 -> runeAt (input l) (pos l) <> 47 ->
    lexBlockCommentFn l = Return (Next LexBlockCommentFn) l /\
    forall fuel,
      runFrom Latin1.IsLetter Latin1.IsDigit fuel LexBlockCommentFn l
      = Running LexBlockCommentFn l)).
Proof.
  intros l. split; [apply wellFormed_lex|].
  apply (block_comment_ends_at_a_star_or_a_slash Latin1.IsLetter Latin1.IsDigit l).
  apply wellFormed_lex.
Defined.


(** X13 on two spaces, a newline and a letter. *)
Lemma lexSpaceFn_skips_the_spaces_witness :
  let l := lex [] (go "  " ++ [x0a] ++ go "x") in
  0 <= start l <= pos l /\ ~ onlySpaceAhead l /\
  exists q l',
    lexSpaceFn l = Return (Next LexRootFn) l' /\
    pos l <= q < len (input l) /\
    Forall (fun b => unicode.IsSpace (u8 b) = true) (segment (input l) (pos l) q) /\
    unicode.IsSpace (u8 (nth (Z.to_nat q) (input l) x00)) = false /\
    pos l' = q /\ start l' = q /\
    line l' = line l + strings.CountNewlines (segment (input l) (start l) q) /\
    startLine l' = line l' /\ items l' = items l /\ input l' = input l.
Proof.
  intros l.
  assert (Hs : 0 <= start l <= pos l) by (simpl; lia).
  assert (Hn : ~ onlySpaceAhead l).
  { unfold onlySpaceAhead. rewrite Forall_forall. intros H.
    specialize (H x78). simpl in H.
    assert (E : unicode.IsSpace (u8 x78) = true) by (apply H; tauto).
    discriminate E. }
  split; [exact Hs|]. split; [exact Hn|].
  apply (lexSpaceFn_skips_the_spaces l); [exact Hs | exact Hn].
Defined.

(** X14 on a space and a newline. *)
Lemma blank_input_is_scanned_silently_witness :
  let text := [x20; x0a] in
  Forall (fun b => In b space_tab_newline) text /\
  exists l',
    run Latin1.IsLetter Latin1.IsDigit (S (S 0)) (lex [] text) = Closed l' /\
    items l' = [] /\ pos l' = len text /\ start l' = 0 /\
    line l' = 1 + strings.CountNewlines text.
Proof.
  intros text.
  assert (Hall : Forall (fun b => In b space_tab_newline) text).
  { repeat constructor; simpl; tauto. }
  split; [exact Hall|].
  apply (blank_input_is_scanned_silently Latin1.IsLetter Latin1.IsDigit [] text 0).
  exact Hall.
Defined.

(** X17 on a namespace with its brace, at the tables [Latin1]. *)
Lemma scan_never_panics_witness :
  unicodeTables Latin1.IsLetter Latin1.IsDigit /\
  run Latin1.IsLetter Latin1.IsDigit 3
      (lex [] (preprocessorLine ++ go "namespace{"))
  <> Crashed SliceBoundsOutOfRange (lex [] []).
Proof.
  split; [apply Latin1_tables|].
  apply (scan_never_panics Latin1.IsLetter Latin1.IsDigit 3 []
           (preprocessorLine ++ go "namespace{") SliceBoundsOutOfRange (lex [] [])).
  apply Latin1_tables.
Defined.

(** X18 on a namespace with its brace, at the tables [Latin1]. *)
Lemma scan_sends_no_identifier_witness :
  unicodeTables Latin1.IsLetter Latin1.IsDigit /\
  Forall (fun it => In (typ it) (itemError :: blockTypes))
         (items (scanner (run Latin1.IsLetter Latin1.IsDigit 3
                              (lex [] (preprocessorLine ++ go "namespace{"))))).
Proof.
  split; [apply Latin1_tables|].
  apply (scan_sends_no_identifier Latin1.IsLetter Latin1.IsDigit 3 []
           (preprocessorLine ++ go "namespace{")).
  apply Latin1_tables.
Defined.

(** X19 on a struct one rune into a block body, at the tables [Latin1]. *)
Lemma scan_never_enters_lexClass_or_lexEnum_witness :
  let text := preprocessorLine ++ go "namespace{xstruct{" in
  let l' := mkLexer [] text
              [mkItem itemNamespace 0 (preprocessorLine ++ go "namespace") 1;
               mkItem itemOpenBrace 11 (go "{") 2;
               mkItem itemStruct 12 (go "xstruct") 2;
               mkItem itemOpenBrace 19 (go "{") 2]
              2 2 0 0 0 20 20 false in
  unicodeTables Latin1.IsLetter Latin1.IsDigit /\
  run Latin1.IsLetter Latin1.IsDigit 1 (lex [] text) = Leaves lexStruct l' /\
  lexStruct = lexStruct.
Proof.
  intros text l'.
  assert (E : run Latin1.IsLetter Latin1.IsDigit 1 (lex [] text) = Leaves lexStruct l')
    by (vm_compute; reflexivity).
  split; [apply Latin1_tables|]. split; [exact E|].
  apply (scan_never_enters_lexClass_or_lexEnum Latin1.IsLetter Latin1.IsDigit 1 []
           text lexStruct l'); [apply Latin1_tables | exact E].
Defined.

(** X20 on a namespace with its brace, at the tables [Latin1]. *)
Lemma state_functions_return_witness :
  unicodeTables Latin1.IsLetter Latin1.IsDigit /\
  run Latin1.IsLetter Latin1.IsDigit 3
      (lex [] (preprocessorLine ++ go "namespace{"))
  <> Starved LexRootFn (lex [] []).
Proof.
  split; [apply Latin1_tables|].
  apply (state_functions_return Latin1.IsLetter Latin1.IsDigit 3 []
           (preprocessorLine ++ go "namespace{") LexRootFn (lex [] [])).
  apply Latin1_tables.
Defined.

(** X23 on the keyword alone, at the tables [Latin1]. *)
Lemma lexRootFn_misses_the_keyword_at_pos_witness :
  let l := lex [] (go "namespace") in
  wellFormed l /\
  strings.HasPrefix (skipn (Z.to_nat (pos l)) (input l)) (go "namespace") = true /\
  exists l',
    lexRootFn Latin1.IsLetter Latin1.IsDigit l = Return Nil l' /\
    items l'
    = items l ++ [mkItem itemError (start l) (go "Expected namespace")
                         (startLine l)] /\
    pos l' = pos l + 3.
Proof.
  intros l. split; [apply wellFormed_lex|]. split; [reflexivity|].
  apply (lexRootFn_misses_the_keyword_at_pos Latin1.IsLetter Latin1.IsDigit l);
    [apply wellFormed_lex | reflexivity].
Defined.

(** X24 on a newline, the keyword and a brace, at the tables [Latin1]. *)
Lemma keyword_after_blanks_is_refused_witness :
  let blanks := [x0a] in
  Forall (fun b => In b space_tab_newline) blanks /\
  exists l',
    run Latin1.IsLetter Latin1.IsDigit (S (S 0))
        (lex [] (blanks ++ go "namespace" ++ go "{"))
    = Closed l' /\
    items l' = [mkItem itemError 0 (go "Expected namespace") 1].
Proof.
  intros blanks.
  assert (Hall : Forall (fun b => In b space_tab_newline) blanks).
  { repeat constructor; simpl; tauto. }
  split; [exact Hall|].
  apply (keyword_after_blanks_is_refused Latin1.IsLetter Latin1.IsDigit []
           blanks (go "{") 0).
  exact Hall.
Defined.

(** X25 behind a newline. *)
Lemma next_undoes_backup_witness :
  let l := mkLexer [] [x0a] [] 2 1 0 0 0 1 0 false in
  wellFormed l /\ atEOF l = false /\ 0 < pos l /\
  exists l0 r,
    backup l = Return tt l0 /\ next l0 = Return r l /\
    r <> eof /\ pos l0 < pos l <= pos l0 + 4 /\ wellFormed l0.
Proof.
  intros l.
  assert (Hwf : wellFormed l).
  { apply ascii_wellFormed; [reflexivity | vm_compute; split; discriminate |].
    intros i Hi. change (Z.to_nat (pos l)) with 1%nat in Hi.
    destruct i as [|i]; [reflexivity | lia]. }
  split; [exact Hwf|]. split; [reflexivity|]. split; [reflexivity|].
  apply (next_undoes_backup l); [exact Hwf | reflexivity | reflexivity].
Defined.
